(** * Deadlock detection over a resource-allocation graph

    A shallow embedding of [deadlock_detecting_withinput.py] (the tracker,
    the detector and the resolver) and of the detector of
    [deadlock_detector.py], with the properties of the specification that
    concern them.

    Conventions.
    - Process identifiers are Python ints ([Z]); resource identifiers and
      graph nodes are Python strings over ASCII characters.
    - Python objects that are shared by reference (the per-process record
      dicts and the per-resource holder lists) live in an explicit heap;
      the two top-level dicts of the tracker map keys to heap addresses.
    - A Python dict is an association list in insertion order.
    - [nx.DiGraph] is an adjacency association list in insertion order;
      [nx.simple_cycles] is embedded as an enumerator of elementary
      circuits, each listed once, starting at its earliest node. *)

From Stdlib Require Import ZArith String Ascii Decimal DecimalString DecimalZ DecimalPos Lia.
From stdpp Require Import base decidable option list strings.

Local Open Scope string_scope.
Local Open Scope list_scope.
Local Open Scope nat_scope.

(** ** Python values *)

Definition pid := Z.
Definition rid := string.
Definition node := string.
Definition loc := nat.

(** A dict, as the list of its items in insertion order. *)
Module Dict.
Section Dict.
Context {K V : Type} `{EqDecision K}.

Fixpoint get (k : K) (d : list (K * V)) : option V :=
  match d with
  | [] => None
  | (k', v) :: d' => if decide (k = k') then Some v else get k d'
  end.

(** [d[k] = v]: an existing key keeps its position. *)
Fixpoint set (k : K) (v : V) (d : list (K * V)) : list (K * V) :=
  match d with
  | [] => [(k, v)]
  | (k', v') :: d' =>
      if decide (k = k') then (k, v) :: d' else (k', v') :: set k v d'
  end.

Definition keys (d : list (K * V)) : list K := d.*1.
End Dict.
End Dict.

(** [str(n)] for an int. *)
Definition str_int (n : Z) : string := NilZero.string_of_int (Z.to_int n).

(** [f"P{pid}"] and [f"R{rid}"]. *)
Definition process_node (p : pid) : node := String "P" (str_int p).
Definition resource_node (r : rid) : node := String "R" r.

(** ** [int(s)] on an ASCII string

    Surrounding whitespace is stripped, one sign is allowed, and the digits
    may be grouped by single underscores.  [None] stands for [ValueError].
    On an ASCII string [int] skips the characters tab, newline, vertical
    tab, form feed, carriage return and space only; the separators
    [0x1c]-[0x1f], which [str.strip] removes, are not among them. *)

Definition is_space (c : ascii) : bool :=
  let n := nat_of_ascii c in
  (Nat.leb 9 n && Nat.leb n 13) || Nat.eqb n 32.

Fixpoint lstrip (s : string) : string :=
  match s with
  | String c s' => if is_space c then lstrip s' else s
  | EmptyString => EmptyString
  end.

Fixpoint rstrip (s : string) : string :=
  match s with
  | String c s' =>
      match rstrip s' with
      | EmptyString => if is_space c then EmptyString else String c EmptyString
      | r => String c r
      end
  | EmptyString => EmptyString
  end.

Definition strip (s : string) : string := rstrip (lstrip s).

Fixpoint py_digits (s : string) : option uint :=
  match s with
  | EmptyString => None
  | String c rest =>
      match rest with
      | EmptyString => uint_of_char c (Some Nil)
      | String c2 rest2 =>
          if Ascii.eqb c2 "_" then uint_of_char c (py_digits rest2)
          else uint_of_char c (py_digits rest)
      end
  end.

Definition py_int (s : string) : option Z :=
  match strip s with
  | String c s' =>
      if Ascii.eqb c "-" then (fun d => Z.opp (Z.of_uint d)) <$> py_digits s'
      else if Ascii.eqb c "+" then Z.of_uint <$> py_digits s'
      else Z.of_uint <$> py_digits (String c s')
  | EmptyString => None
  end.

(** [s.startswith(c)] for a one-character prefix and [s[1:]]. *)
Definition startswith (c : ascii) (s : string) : bool :=
  match s with
  | String c' _ => Ascii.eqb c' c
  | EmptyString => false
  end.

Definition tail1 (s : string) : string :=
  match s with
  | String _ s' => s'
  | EmptyString => EmptyString
  end.

(** ** The tracker ([ProcessResourceTracker]) *)

(** The dict stored under a process id.  Its ['resources'] list is reachable
    only through the record, so it is kept inside the heap cell of the
    record. *)
Record process_record := {
  p_name : string;
  p_status : string;
  p_resources : list rid;
  p_waiting_for : option rid
}.

(** [processes] is [self.processes], [resources] is [self.resources]; both
    hold references.  [records] and [holder_lists] are the heap cells of the
    record dicts and of the holder lists, by address. *)
Record Tracker := {
  processes : list (pid * loc);
  resources : list (rid * loc);
  records : list process_record;
  holder_lists : list (list pid)
}.

(** What [get_system_state] returns: fresh copies of the two top-level dicts,
    whose values are still the references of the live store. *)
Record Snapshot := {
  snap_processes : list (pid * loc);
  snap_resources : list (rid * loc)
}.

Definition init : Tracker :=
  {| processes := []; resources := []; records := []; holder_lists := [] |}.

Definition add_process (p : pid) (name : string) (t : Tracker) : Tracker :=
  let l := length (records t) in
  {| processes := Dict.set p l (processes t);
     resources := resources t;
     records := records t ++
       [{| p_name := name; p_status := "running";
           p_resources := []; p_waiting_for := None |}];
     holder_lists := holder_lists t |}.

(** [self.resources[resource]] on the [defaultdict(list)]: a missing key is
    bound to a new empty list first. *)
Definition resources_getitem (r : rid) (t : Tracker) : loc * Tracker :=
  match Dict.get r (resources t) with
  | Some l => (l, t)
  | None =>
      let l := length (holder_lists t) in
      (l, {| processes := processes t;
             resources := Dict.set r l (resources t);
             records := records t;
             holder_lists := holder_lists t ++ [[]] |})
  end.

Definition append_resource (r : rid) (rec : process_record) : process_record :=
  {| p_name := p_name rec; p_status := p_status rec;
     p_resources := p_resources rec ++ [r];
     p_waiting_for := p_waiting_for rec |}.

Definition assign_waiting_for (r : rid) (rec : process_record) : process_record :=
  {| p_name := p_name rec; p_status := p_status rec;
     p_resources := p_resources rec;
     p_waiting_for := Some r |}.

Definition allocate_resource (p : pid) (r : rid) (t : Tracker) : bool * Tracker :=
  match Dict.get p (processes t) with
  | Some lp =>
      let '(lr, t1) := resources_getitem r t in
      (true,
       {| processes := processes t1;
          resources := resources t1;
          records := alter (append_resource r) lp (records t1);
          holder_lists := alter (fun h => h ++ [p]) lr (holder_lists t1) |})
  | None => (false, t)
  end.

Definition set_waiting_for (p : pid) (r : rid) (t : Tracker) : bool * Tracker :=
  match Dict.get p (processes t) with
  | Some lp =>
      (true,
       {| processes := processes t;
          resources := resources t;
          records := alter (assign_waiting_for r) lp (records t);
          holder_lists := holder_lists t |})
  | None => (false, t)
  end.

Definition get_system_state (t : Tracker) : Snapshot :=
  {| snap_processes := processes t; snap_resources := resources t |}.

Definition clear_system (t : Tracker) : Tracker :=
  {| processes := []; resources := [];
     records := records t; holder_lists := holder_lists t |}.

(** What a snapshot shows when it is read while the heap is that of [t]. *)
Definition snapshot_processes (t : Tracker) (s : Snapshot)
  : list (pid * option process_record) :=
  (fun '(p, l) => (p, records t !! l)) <$> snap_processes s.

Definition snapshot_resources (t : Tracker) (s : Snapshot)
  : list (rid * option (list pid)) :=
  (fun '(r, l) => (r, holder_lists t !! l)) <$> snap_resources s.

(** The record of a process and the holders of a resource in the live store. *)
Definition process_of (t : Tracker) (p : pid) : option process_record :=
  l ← Dict.get p (processes t); records t !! l.

Definition held (t : Tracker) (p : pid) : list rid :=
  from_option p_resources [] (process_of t p).

Definition holders (t : Tracker) (r : rid) : list pid :=
  default [] (l ← Dict.get r (resources t); holder_lists t !! l).

(** Calls of the front-end on the tracker. *)
Inductive op :=
| AddProcess (p : pid) (name : string)
| AllocateResource (p : pid) (r : rid)
| SetWaitingFor (p : pid) (r : rid)
| ClearSystem.

Definition step (t : Tracker) (o : op) : Tracker :=
  match o with
  | AddProcess p name => add_process p name t
  | AllocateResource p r => (allocate_resource p r t).2
  | SetWaitingFor p r => (set_waiting_for p r t).2
  | ClearSystem => clear_system t
  end.

Definition run (ops : list op) (t : Tracker) : Tracker := foldl step t ops.

(** ** [nx.DiGraph] *)

Definition DiGraph := list (node * list node).

Definition nodes (g : DiGraph) : list node := Dict.keys g.

Definition successors (g : DiGraph) (u : node) : list node :=
  default [] (Dict.get u g).

Definition add_node (n : node) (g : DiGraph) : DiGraph :=
  if decide (n ∈ nodes g) then g else g ++ [(n, [])].

Fixpoint add_successor (u v : node) (g : DiGraph) : DiGraph :=
  match g with
  | [] => []
  | (n, s) :: g' =>
      if decide (u = n)
      then (n, if decide (v ∈ s) then s else s ++ [v]) :: g'
      else (n, s) :: add_successor u v g'
  end.

Definition add_edge (u v : node) (g : DiGraph) : DiGraph :=
  add_successor u v (add_node v (add_node u g)).

Definition has_edge (g : DiGraph) (u v : node) : Prop := v ∈ successors g u.

(** ** [nx.simple_cycles]

    The library contract is: every elementary circuit of the graph is
    produced once, as the list of its nodes.  The enumerator below searches,
    from each node [root] in node order, the simple paths through the nodes
    that come after [root], and reports a path whenever its end has an edge
    back to [root]. *)

Fixpoint cycles_from (g : DiGraph) (later : list node) (root : node)
    (fuel : nat) (path : list node) (v : node) : list (list node) :=
  match fuel with
  | 0 => []
  | S fuel' =>
      (if decide (root ∈ successors g v) then [path] else []) ++
      (successors g v ≫= fun w =>
         if decide (w ∈ later ∧ w ∉ path)
         then cycles_from g later root fuel' (path ++ [w]) w
         else [])
  end.

Fixpoint cycles_rooted (g : DiGraph) (order : list node) : list (list node) :=
  match order with
  | [] => []
  | root :: later =>
      cycles_from g later root (S (length later)) [root] root
        ++ cycles_rooted g later
  end.

Definition simple_cycles (g : DiGraph) : list (list node) :=
  cycles_rooted g (nodes g).

(** Walks and cycles of a graph. *)
Fixpoint is_path (g : DiGraph) (l : list node) : Prop :=
  match l with
  | u :: (v :: _) as l' => has_edge g u v ∧ is_path g l'
  | _ => True
  end.

(** A closed walk: every node has an edge to the next one and the last node
    has an edge to the first. *)
Definition closed_walk (g : DiGraph) (w : list node) : Prop :=
  w ≠ [] ∧ is_path g (w ++ take 1 w).

Definition simple_cycle (g : DiGraph) (c : list node) : Prop :=
  closed_walk g c ∧ NoDup c.

(** The same cycle, read from another starting node. *)
Definition rotation (c c' : list node) : Prop :=
  ∃ l1 l2, c = l1 ++ l2 ∧ c' = l2 ++ l1.

(** ** The detector of [deadlock_detecting_withinput.py] *)

Record detection := {
  time : string;
  deadlocks : list (list node);
  graph : DiGraph
}.

(** Python truth value of [pdata['waiting_for']]: [None] and the empty
    string are false. *)
Definition truthy (w : option rid) : option rid :=
  match w with
  | Some (String c s) => Some (String c s)
  | _ => None
  end.

Definition add_process_edges (t : Tracker) (g : DiGraph) (item : pid * loc) : DiGraph :=
  match records t !! item.2 with
  | Some pdata =>
      let g1 := foldl (fun g r => add_edge (process_node item.1) (resource_node r) g)
                      g (p_resources pdata) in
      match truthy (p_waiting_for pdata) with
      | Some w => add_edge (resource_node w) (process_node item.1) g1
      | None => g1
      end
  | None => g
  end.

(** The graph built from a snapshot, read in the heap of [t]. *)
Definition build_graph (t : Tracker) (s : Snapshot) : DiGraph :=
  let g1 := foldl (fun g item => add_node (process_node item.1) g) [] (snap_processes s) in
  let g2 := foldl (fun g item => add_node (resource_node item.1) g) g1 (snap_resources s) in
  foldl (add_process_edges t) g2 (snap_processes s).

Definition allocation_graph (t : Tracker) : DiGraph :=
  build_graph t (get_system_state t).

(** The tail shared by both detectors: keep the cycles of at least four
    nodes, log them if there are any, return [None] otherwise. *)
Definition report (now : string) (g : DiGraph) (detection_history : list detection)
  : option (list (list node)) * list detection :=
  let cycles := simple_cycles g in
  let found := filter (fun cycle => 4 ≤ length cycle) cycles in
  match found with
  | [] => (None, detection_history)
  | _ :: _ =>
      (Some found,
       detection_history ++ [{| time := now; deadlocks := found; graph := g |}])
  end.

(** [now] is the reading of [time.strftime] during the call. *)
Definition detect_deadlocks (now : string) (t : Tracker)
    (detection_history : list detection)
  : option (list (list node)) * list detection :=
  report now (allocation_graph t) detection_history.

(** ** The detector of [deadlock_detector.py]

    The records of that file have no ['waiting_for'] key; the edges from a
    resource go to each of its holders. *)
Module Monitor.

Definition add_holds_edges (t : Tracker) (g : DiGraph) (item : pid * loc) : DiGraph :=
  match records t !! item.2 with
  | Some pdata =>
      foldl (fun g r => add_edge (process_node item.1) (resource_node r) g)
            g (p_resources pdata)
  | None => g
  end.

Definition add_holder_edges (t : Tracker) (g : DiGraph) (item : rid * loc) : DiGraph :=
  match holder_lists t !! item.2 with
  | Some pids =>
      foldl (fun g p => add_edge (resource_node item.1) (process_node p) g) g pids
  | None => g
  end.

Definition build_graph (t : Tracker) (s : Snapshot) : DiGraph :=
  let g1 := foldl (fun g item => add_node (process_node item.1) g) [] (snap_processes s) in
  let g2 := foldl (fun g item => add_node (resource_node item.1) g) g1 (snap_resources s) in
  let g3 := foldl (add_holds_edges t) g2 (snap_processes s) in
  foldl (add_holder_edges t) g3 (snap_resources s).

Definition detect_deadlocks (now : string) (t : Tracker)
    (detection_history : list detection)
  : option (list (list node)) * list detection :=
  report now (build_graph t (get_system_state t)) detection_history.

End Monitor.

(** ** The resolver *)

Inductive target_list :=
| ProcessTargets (l : list pid)
| ResourceTargets (l : list rid).

Record resolution := {
  r_type : string;
  description : string;
  targets : target_list;
  recommendation : string
}.

(** [s.add(x)] on a set kept as the list of its members. *)
Definition set_add {A} `{EqDecision A} (x : A) (s : list A) : list A :=
  if decide (x ∈ s) then s else s ++ [x].

(** [min(s)] of a non-empty set of ints. *)
Definition min_of (x : Z) (s : list Z) : Z := foldr Z.min x s.

(** The two sets collected by the loop over the nodes; [None] when
    [int(node[1:])] raises. *)
Fixpoint collect (deadlock : list node) (ps : list pid) (rs : list rid)
  : option (list pid * list rid) :=
  match deadlock with
  | [] => Some (ps, rs)
  | n :: rest =>
      if startswith "P" n then
        match py_int (tail1 n) with
        | Some p => collect rest (set_add p ps) rs
        | None => None
        end
      else if startswith "R" n then collect rest ps (set_add (tail1 n) rs)
      else collect rest ps rs
  end.

(** What a resolver can reach: the detector it was built with and the
    tracker of that detector. *)
Record System := {
  tracker : Tracker;
  detection_history : list detection
}.

(** The nodes the detectors create. *)
Definition graph_node (n : node) : Prop :=
  (∃ p, n = process_node p) ∨ (∃ r, n = resource_node r).

Section Resolver.
(** The iteration order of a Python set and the member that [set.pop]
    removes depend on the hash table; they are left to the interpreter. *)
Variable list_of_pids : list pid → list pid.
Variable list_of_rids : list rid → list rid.
Variable pop : list rid → rid.

Definition termination (ps : list pid) : list resolution :=
  match ps with
  | [] => []
  | p :: ps' =>
      [{| r_type := "process_termination";
          description := "Terminate one process involved in the deadlock";
          targets := ProcessTargets (list_of_pids ps);
          recommendation :=
            "Terminate process: " +:+ str_int (min_of p ps') +:+ " (lowest PID)" |}]
  end.

Definition preemption (rs : list rid) : list resolution :=
  match rs with
  | [] => []
  | _ :: _ =>
      [{| r_type := "resource_preemption";
          description := "Preempt one resource involved in the deadlock";
          targets := ResourceTargets (list_of_rids rs);
          recommendation := "Preempt resource: " +:+ pop rs |}]
  end.

(** The resolver holds [self.detector], and through it the history and the
    tracker; the call returns them as it leaves them. *)
Definition suggest_resolutions (deadlock : list node) (sys : System)
  : option (list resolution) * System :=
  match collect deadlock [] [] with
  | Some (ps, rs) => (Some (termination ps ++ preemption rs), sys)
  | None => (None, sys)
  end.
End Resolver.

(** The walk predicates are decidable, by evaluation. *)
#[global] Instance has_edge_dec g u v : Decision (has_edge g u v).
Proof. unfold has_edge. apply _. Defined.

#[global] Instance is_path_dec g l : Decision (is_path g l).
Proof.
  induction l as [|u l IH]; [left; exact I|].
  destruct l as [|v l]; [left; exact I|].
  simpl. apply and_dec; [apply _ | exact IH].
Defined.

#[global] Instance closed_walk_dec g w : Decision (closed_walk g w).
Proof. unfold closed_walk. apply _. Defined.

#[global] Instance simple_cycle_dec g c : Decision (simple_cycle g c).
Proof. unfold simple_cycle. apply _. Defined.

(** ** Well-formed stores and counting *)

(** Every reference held by the two dicts points into the heap. *)
Definition heap_wf (t : Tracker) : Prop :=
  (∀ p l, Dict.get p (processes t) = Some l → l < length (records t)) ∧
  (∀ r l, Dict.get r (resources t) = Some l → l < length (holder_lists t)).

Definition occurrences {A} `{EqDecision A} (x : A) (l : list A) : nat :=
  length (filter (x =.) l).

(** The scenarios used below. *)
Definition twice_allocated : Tracker :=
  run [AddProcess 1%Z "worker"; AllocateResource 1%Z "X"; AllocateResource 1%Z "X"] init.

Definition reregistered : Tracker :=
  run [AddProcess 1%Z "worker"; AllocateResource 1%Z "X"; AddProcess 1%Z "worker"] init.

Definition one_holder : Tracker :=
  run [AddProcess 1%Z "worker"; AllocateResource 1%Z "X"] init.

(** A process that waits for the resource it holds: the graph has the cycle
    of two nodes [P1], [RX] and no other. *)
Definition self_wait : Tracker :=
  run [AddProcess 1%Z "worker"; AllocateResource 1%Z "X"; SetWaitingFor 1%Z "X"] init.

(** The classic deadlock: [A] holds [X] and waits for [Y], [B] holds [Y] and
    waits for [X], in a store that has nothing else. *)
Definition classic_deadlock (A B : pid) (nameA nameB : string) (X Y : rid) : Tracker :=
  run [AddProcess A nameA; AddProcess B nameB;
       AllocateResource A X; AllocateResource B Y;
       SetWaitingFor A Y; SetWaitingFor B X] init.

Definition classic : Tracker := classic_deadlock 1%Z 2%Z "first" "second" "X" "Y".

(** A second, node-disjoint deadlock next to the classic one. *)
Definition two_deadlocks : Tracker :=
  run [AddProcess 3%Z "third"; AddProcess 4%Z "fourth";
       AllocateResource 3%Z "U"; AllocateResource 4%Z "V";
       SetWaitingFor 3%Z "V"; SetWaitingFor 4%Z "U"] classic.

(** The characters [str] writes for an int, apart from the sign. *)
Definition is_digit (c : ascii) : bool :=
  let n := nat_of_ascii c in Nat.leb 48 n && Nat.leb n 57.

Fixpoint all_chars (P : ascii → bool) (s : string) : bool :=
  match s with
  | String c s' => P c && all_chars P s'
  | EmptyString => true
  end.

(** The strings on which [py_int] is [int]: ASCII characters only, and short
    enough for the limit that an interpreter may put on the digits of an int
    in a conversion (4300 by default, never below 640). *)
Definition is_ascii (c : ascii) : bool := Nat.ltb (nat_of_ascii c) 128.

Definition short_ascii (s : string) : Prop :=
  all_chars is_ascii s = true ∧ String.length s ≤ 640.

(** What [nx.DiGraph] guarantees of its adjacency: a node is listed once and
    so is each successor of a node. *)
Definition graph_wf (g : DiGraph) : Prop :=
  NoDup (nodes g) ∧ ∀ u, NoDup (successors g u).

(** The two kinds of edges of the allocation graph, read off the store:
    a process to a resource it holds, and a (truthy) wait target to the
    process that waits for it. *)
Definition holds_edge (t : Tracker) (a b : node) : Prop :=
  ∃ p l rec r,
    (p, l) ∈ processes t ∧ records t !! l = Some rec ∧
    r ∈ p_resources rec ∧ a = process_node p ∧ b = resource_node r.

Definition waits_edge (t : Tracker) (a b : node) : Prop :=
  ∃ p l rec w,
    (p, l) ∈ processes t ∧ records t !! l = Some rec ∧
    truthy (p_waiting_for rec) = Some w ∧ a = resource_node w ∧ b = process_node p.

(** ** Reachable stores *)

(** In a store built by the calls of the tracker, a key occurs once in each
    dict, no two keys share an object, and every reference is allocated. *)
Definition store_ok (t : Tracker) : Prop :=
  NoDup (processes t).*1 ∧ NoDup (processes t).*2 ∧
  Forall (fun item => item.2 < length (records t)) (processes t) ∧
  NoDup (resources t).*1 ∧ NoDup (resources t).*2 ∧
  Forall (fun item => item.2 < length (holder_lists t)) (resources t).

(** [processes[pid]['waiting_for']], [None] also for an unknown id. *)
Definition waiting_for (t : Tracker) (p : pid) : option rid :=
  process_of t p ≫= p_waiting_for.

(** ** Kinds of nodes *)

Definition is_process_node (n : node) : Prop := ∃ p, n = process_node p.
Definition is_resource_node (n : node) : Prop := ∃ r, n = resource_node r.

(** Every edge joins a process node and a resource node. *)
Definition bipartite (g : DiGraph) : Prop :=
  ∀ a b, has_edge g a b →
    (is_process_node a ∧ is_resource_node b) ∨
    (is_resource_node a ∧ is_process_node b).

(** What every record of the detection history satisfies. *)
Definition record_ok (d : detection) : Prop :=
  deadlocks d ≠ [] ∧
  Forall (fun c => simple_cycle (graph d) c ∧ 4 ≤ length c) (deadlocks d).

(** Three processes in a ring: [A] waits for what [B] holds, [B] for what
    [C] holds, [C] for what [A] holds. *)
Definition ring_deadlock (A B C : pid) (X Y Z : rid) : Tracker :=
  run [AddProcess A "a"; AddProcess B "b"; AddProcess C "c";
       AllocateResource A X; AllocateResource B Y; AllocateResource C Z;
       SetWaitingFor A Y; SetWaitingFor B Z; SetWaitingFor C X] init.

(** ** The resolver of [deadlock_detector.py]

    Two loops over the nodes instead of one, the members under the keys
    ['processes'] and ['resources'] (both kept in [targets] here), and its
    own wording. *)
Module MonitorResolver.

Fixpoint collect_processes (deadlock : list node) (ps : list pid) : option (list pid) :=
  match deadlock with
  | [] => Some ps
  | n :: rest =>
      if startswith "P" n then
        match py_int (tail1 n) with
        | Some p => collect_processes rest (set_add p ps)
        | None => None
        end
      else collect_processes rest ps
  end.

Fixpoint collect_resources (deadlock : list node) (rs : list rid) : list rid :=
  match deadlock with
  | [] => rs
  | n :: rest =>
      if startswith "R" n then collect_resources rest (set_add (tail1 n) rs)
      else collect_resources rest rs
  end.

Section Resolver.
Variable list_of_pids : list pid → list pid.
Variable list_of_rids : list rid → list rid.
Variable pop : list rid → rid.

Definition termination (ps : list pid) : list resolution :=
  match ps with
  | [] => []
  | p :: ps' =>
      [{| r_type := "process_termination";
          description := "Terminate one of the processes involved in the deadlock";
          targets := ProcessTargets (list_of_pids ps);
          recommendation :=
            "Terminate process with PID: " +:+ str_int (min_of p ps') +:+ " (oldest)" |}]
  end.

Definition preemption (rs : list rid) : list resolution :=
  match rs with
  | [] => []
  | _ :: _ =>
      [{| r_type := "resource_preemption";
          description := "Preempt one of the resources involved in the deadlock";
          targets := ResourceTargets (list_of_rids rs);
          recommendation := "Preempt resource: " +:+ pop rs |}]
  end.

Definition suggest_resolutions (deadlock : list node) (sys : System)
  : option (list resolution) * System :=
  match collect_processes deadlock [] with
  | Some ps =>
      (Some (termination ps ++ preemption (collect_resources deadlock [])), sys)
  | None => (None, sys)
  end.
End Resolver.

End MonitorResolver.

(** ** The tracker of [deadlock_detector.py]

    Its store is rebuilt once a second by [_monitor_system]: the processes
    from [psutil.process_iter] (given here as the list of the [info] dicts it
    yields), then one simulated resource per process. *)
Module MonitorTracker.

(** [self.processes[pid] = {'name': ..., 'status': ..., 'resources': []}];
    the record has no wait target in this file. *)
Definition register (t : Tracker) (info : pid * string * string) : Tracker :=
  {| processes := Dict.set info.1.1 (length (records t)) (processes t);
     resources := resources t;
     records := records t ++
       [{| p_name := info.1.2; p_status := info.2;
           p_resources := []; p_waiting_for := None |}];
     holder_lists := holder_lists t |}.

Definition _update_processes (procs : list (pid * string * string)) (t : Tracker) : Tracker :=
  foldl register
    {| processes := []; resources := resources t;
       records := records t; holder_lists := holder_lists t |}
    procs.

(** [f"R{i%5}"]. *)
Definition resource_id (i : nat) : rid := String "R" (str_int (Z.of_nat (i mod 5))).

(** The body of the loop of [_update_resources]:
    [self.resources[resource_id].append(pid)], then
    [self.processes[pid]['resources'].append(resource_id)].  The pid is a key
    of [self.processes], so the second lookup finds it. *)
Definition assign (t : Tracker) (item : nat * pid) : Tracker :=
  let '(lr, t1) := resources_getitem (resource_id item.1) t in
  let t2 :=
    {| processes := processes t1; resources := resources t1;
       records := records t1;
       holder_lists := alter (fun h => h ++ [item.2]) lr (holder_lists t1) |} in
  match Dict.get item.2 (processes t2) with
  | Some lp =>
      {| processes := processes t2; resources := resources t2;
         records := alter (append_resource (resource_id item.1)) lp (records t2);
         holder_lists := holder_lists t2 |}
  | None => t2
  end.

Definition _update_resources (t : Tracker) : Tracker :=
  let t0 := {| processes := processes t; resources := [];
               records := records t; holder_lists := holder_lists t |} in
  match processes t with
  | [] => t0
  | _ :: _ => foldl assign t0 (imap pair (Dict.keys (processes t)))
  end.

(** One round of [_monitor_system]. *)
Definition monitor_pass (procs : list (pid * string * string)) (t : Tracker) : Tracker :=
  _update_resources (_update_processes procs t).

End MonitorTracker.

(** The edges of the graph of [deadlock_detector.py]: a process to a
    resource it holds, and a resource to each of its holders. *)
Definition holder_edge (t : Tracker) (a b : node) : Prop :=
  ∃ r l pids p,
    (r, l) ∈ resources t ∧ holder_lists t !! l = Some pids ∧
    p ∈ pids ∧ a = resource_node r ∧ b = process_node p.

(** ** The window of [deadlock_detecting_withinput.py]

    [DeadlockDetectionGUI] owns the tracker and the detector (the resolver
    reaches both), the text widget with its state, the status line, and
    shows error boxes.  The answers given in the dialogs are arguments of the
    handlers: [None] is a cancelled dialog.  A handler that raises ends
    there, with what it has done so far.  The monitor thread of this file
    calls [_update_processes], which is [pass]. *)
Module GUI.

Definition newline : string := String "010" EmptyString.

Record Gui := {
  system : System;
  results_text : string;
  text_enabled : bool;
  status_var : string;
  error_boxes : list (string * string)
}.

(** After [__init__] and [setup_ui]. *)
Definition new : Gui :=
  {| system := {| tracker := init; detection_history := [] |};
     results_text := ""; text_enabled := false;
     status_var := "Ready"; error_boxes := [] |}.

Definition with_system (sys : System) (g : Gui) : Gui :=
  {| system := sys; results_text := results_text g;
     text_enabled := text_enabled g; status_var := status_var g;
     error_boxes := error_boxes g |}.

Definition with_tracker (t : Tracker) (g : Gui) : Gui :=
  with_system {| tracker := t; detection_history := detection_history (system g) |} g.

(** [results_text.config(state=...)], [insert(END, s)] and
    [delete(1.0, END)]: a disabled text widget ignores edits. *)
Definition text_config (enabled : bool) (g : Gui) : Gui :=
  {| system := system g; results_text := results_text g;
     text_enabled := enabled; status_var := status_var g;
     error_boxes := error_boxes g |}.

Definition text_insert (s : string) (g : Gui) : Gui :=
  if text_enabled g then
    {| system := system g; results_text := results_text g +:+ s;
       text_enabled := text_enabled g; status_var := status_var g;
       error_boxes := error_boxes g |}
  else g.

Definition text_delete (g : Gui) : Gui :=
  if text_enabled g then
    {| system := system g; results_text := "";
       text_enabled := text_enabled g; status_var := status_var g;
       error_boxes := error_boxes g |}
  else g.

Definition set_status (s : string) (g : Gui) : Gui :=
  {| system := system g; results_text := results_text g;
     text_enabled := text_enabled g; status_var := s;
     error_boxes := error_boxes g |}.

Definition showerror (title message : string) (g : Gui) : Gui :=
  {| system := system g; results_text := results_text g;
     text_enabled := text_enabled g; status_var := status_var g;
     error_boxes := error_boxes g ++ [(title, message)] |}.

Definition log_message (message : string) (g : Gui) : Gui :=
  set_status message
    (text_config false (text_insert (message +:+ newline) (text_config true g))).

Section Handlers.
(** [sys.get_int_max_str_digits()]: the most decimal digits an int may have
    for [str] and [int] to convert it, [0] when there is no limit (as on
    interpreters that do not have one).  Above it [str(n)], and so an
    f-string that formats [n], raises [ValueError]. *)
Variable int_max_str_digits : nat.
Variable list_of_pids : list pid → list pid.
Variable list_of_rids : list rid → list rid.
Variable pop : list rid → rid.

Definition str_raises (n : Z) : bool :=
  Nat.ltb 0 int_max_str_digits &&
  Nat.ltb int_max_str_digits (String.length (str_int (Z.abs n))).

(** [askinteger] gave [pid]; [askstring] is asked only after a pid was
    given, and its answer is tested for truth.  The tracker is called before
    the log line is formatted, so a pid that [str] cannot convert is
    registered and not logged. *)
Definition add_process_dialog (pid : option pid) (name : option string) (g : Gui) : Gui :=
  match pid with
  | Some pid =>
      match truthy name with
      | Some name =>
          let g1 := with_tracker (add_process pid name (tracker (system g))) g in
          if str_raises pid then g1
          else
            log_message
              ("Added process: PID=" +:+ str_int pid +:+ ", Name='" +:+ name +:+ "'") g1
      | None => g
      end
  | None => g
  end.

Definition allocate_resource_dialog (pid : option pid) (resource : option string)
    (g : Gui) : Gui :=
  match pid with
  | Some pid =>
      match truthy resource with
      | Some resource =>
          let '(ok, t) := allocate_resource pid resource (tracker (system g)) in
          if str_raises pid then with_tracker t g
          else if ok then
            log_message
              ("Allocated resource '" +:+ resource +:+ "' to process " +:+ str_int pid)
              (with_tracker t g)
          else
            showerror "Error" ("Process " +:+ str_int pid +:+ " not found!")
              (with_tracker t g)
      | None => g
      end
  | None => g
  end.

Definition set_waiting_dialog (pid : option pid) (resource : option string)
    (g : Gui) : Gui :=
  match pid with
  | Some pid =>
      match truthy resource with
      | Some resource =>
          let '(ok, t) := set_waiting_for pid resource (tracker (system g)) in
          if str_raises pid then with_tracker t g
          else if ok then
            log_message
              ("Set process " +:+ str_int pid +:+ " to wait for resource '"
               +:+ resource +:+ "'")
              (with_tracker t g)
          else
            showerror "Error" ("Process " +:+ str_int pid +:+ " not found!")
              (with_tracker t g)
      | None => g
      end
  | None => g
  end.

Definition clear_system (g : Gui) : Gui :=
  log_message "System cleared - all processes and resources removed"
    (with_tracker (clear_system (tracker (system g))) g).

(** The loop of [check_for_deadlocks] over [enumerate(deadlocks, 1)].  The
    flag is [true] when [suggest_resolutions] raised, which ends the handler
    in the state reached so far.  The ids of the nodes are within the limit
    when the loop is reached. *)
Fixpoint show_deadlocks (i : nat) (deadlocks : list (list node)) (g : Gui) : bool * Gui :=
  match deadlocks with
  | [] => (false, g)
  | deadlock :: rest =>
      let g1 := text_insert ("Deadlock #" +:+ str_int (Z.of_nat i) +:+ ":" +:+ newline) g in
      let g2 := text_insert
                  (String.concat " → " deadlock +:+ " → ..." +:+ newline +:+ newline) g1 in
      match suggest_resolutions list_of_pids list_of_rids pop deadlock (system g2) with
      | (Some resolutions, sys) =>
          let g3 := text_insert ("Possible resolutions:" +:+ newline) (with_system sys g2) in
          let g4 := foldl (fun g res =>
                             text_insert ("- " +:+ recommendation res +:+ newline) g)
                          g3 resolutions in
          show_deadlocks (S i) rest (text_insert newline g4)
      | (None, sys) => (true, with_system sys g2)
      end
  end.

(** [now] is the reading of [time.strftime] inside [detect_deadlocks],
    [now'] the one of the handler.  The call of [detect_deadlocks] is the
    first statement: it raises at the first [f"P{pid}"] that [str] cannot
    convert, before it has built or logged anything and before the handler
    has touched the window. *)
Definition check_for_deadlocks (now now' : string) (g : Gui) : bool * Gui :=
  if existsb str_raises (Dict.keys (processes (tracker (system g)))) then (true, g)
  else
  let '(deadlocks, h) :=
    detect_deadlocks now (tracker (system g)) (detection_history (system g)) in
  let g1 := text_delete (text_config true
              (with_system {| tracker := tracker (system g); detection_history := h |} g)) in
  match deadlocks with
  | Some (d :: ds) =>
      let g2 := set_status "Deadlock detected!" g1 in
      let g3 := text_insert
                  ("DEADLOCK DETECTED at " +:+ now' +:+ newline +:+ newline) g2 in
      let '(raised, g4) := show_deadlocks 1 (d :: ds) g3 in
      if raised then (true, g4) else (false, text_config false g4)
  | _ =>
      let g2 := set_status "No deadlock detected" g1 in
      let g3 := text_insert ("No deadlock detected in current system state." +:+ newline) g2 in
      let g4 := text_insert
                  ("Create a circular wait to test deadlock detection."
                   +:+ newline +:+ newline) g3 in
      let g5 := text_insert ("Example deadlock scenario:" +:+ newline) g4 in
      let g6 := text_insert ("1. Process 1 holds Resource A" +:+ newline) g5 in
      let g7 := text_insert ("2. Process 2 holds Resource B" +:+ newline) g6 in
      let g8 := text_insert ("3. Process 1 waits for Resource B" +:+ newline) g7 in
      let g9 := text_insert ("4. Process 2 waits for Resource A" +:+ newline) g8 in
      (false, text_config false g9)
  end.

(** What the user does in the window. *)
Inductive event :=
| AddProcessDialog (pid : option pid) (name : option string)
| AllocateResourceDialog (pid : option pid) (resource : option string)
| SetWaitingDialog (pid : option pid) (resource : option string)
| ClearSystemButton
| CheckForDeadlocks (now now' : string).

(** The main loop goes on after a handler that raised. *)
Definition handle (g : Gui) (e : event) : Gui :=
  match e with
  | AddProcessDialog pid name => add_process_dialog pid name g
  | AllocateResourceDialog pid resource => allocate_resource_dialog pid resource g
  | SetWaitingDialog pid resource => set_waiting_dialog pid resource g
  | ClearSystemButton => clear_system g
  | CheckForDeadlocks now now' => (check_for_deadlocks now now' g).2
  end.

Definition mainloop (events : list event) (g : Gui) : Gui := foldl handle g events.
End Handlers.

End GUI.

(** Calls that carry a non-empty resource name, and stores in which no
    record holds or waits for the empty name. *)
Definition op_ok (o : op) : Prop :=
  match o with
  | AllocateResource _ r | SetWaitingFor _ r => r ≠ ""
  | _ => True
  end.

Definition record_names_ok (rec : process_record) : Prop :=
  ("" ∉ p_resources rec) ∧ p_waiting_for rec ≠ Some "".

Definition names_ok (t : Tracker) : Prop := Forall record_names_ok (records t).

(** ** Circular waits

    A chain of processes, each with a resource it holds, in which the next
    process waits for that resource and [first] waits for the resource of the
    last one. *)
Fixpoint circular_wait (t : Tracker) (first : pid) (chain : list (pid * rid)) : Prop :=
  match chain with
  | [] => True
  | (p, r) :: rest =>
      r ∈ held t p ∧ r ≠ "" ∧
      waiting_for t (match rest with [] => first | (p', _) :: _ => p' end) = Some r ∧
      circular_wait t first rest
  end.

(** The walk of the graph along a chain. *)
Fixpoint chain_nodes (chain : list (pid * rid)) : list node :=
  match chain with
  | [] => []
  | (p, r) :: rest => process_node p :: resource_node r :: chain_nodes rest
  end.

(** ** Stores cut off from an older heap

    The live dicts of [t] use only references allocated after [t0], and the
    objects of [t0] are in the heap of [t] as they were. *)
Definition detached (t0 t : Tracker) : Prop :=
  Forall (fun item => length (records t0) ≤ item.2) (processes t) ∧
  Forall (fun item => length (holder_lists t0) ≤ item.2) (resources t) ∧
  take (length (records t0)) (records t) = records t0 ∧
  take (length (holder_lists t0)) (holder_lists t) = holder_lists t0.

(** * Properties *)

(** ** Dicts *)

Section DictFacts.
Context {K V : Type} `{EqDecision K}.
Implicit Types (k : K) (v : V) (d : list (K * V)).

Lemma get_set_eq k v d : Dict.get k (Dict.set k v d) = Some v.
Proof.
  induction d as [|[k' v'] d IH]; simpl.
  - by rewrite decide_True.
  - destruct (decide (k = k')) as [->|Hne]; simpl.
    + by rewrite decide_True.
    + by rewrite decide_False.
Qed.

Lemma get_set_ne k k' v d : k ≠ k' → Dict.get k' (Dict.set k v d) = Dict.get k' d.
Proof.
  intros Hne. induction d as [|[k0 v0] d IH]; simpl.
  - by rewrite decide_False.
  - destruct (decide (k = k0)) as [->|Hk]; simpl.
    + by rewrite !decide_False.
    + destruct (decide (k' = k0)); auto.
Qed.

Lemma get_Some_keys k v d : Dict.get k d = Some v → k ∈ Dict.keys d.
Proof.
  unfold Dict.keys. induction d as [|[k0 v0] d IH]; simpl; [done|].
  destruct (decide (k = k0)) as [->|]; intros; [left | right; auto].
Qed.

Lemma get_None_keys k d : Dict.get k d = None ↔ k ∉ Dict.keys d.
Proof.
  unfold Dict.keys. induction d as [|[k0 v0] d IH]; simpl.
  - split; [intros _; apply not_elem_of_nil | done].
  - rewrite not_elem_of_cons. destruct (decide (k = k0)) as [->|Hne].
    + split; [done | intros [? _]; done].
    + rewrite IH. split; [by split | by intros [_ ?]].
Qed.
End DictFacts.

(** ** The tracker *)

Lemma resources_getitem_processes r t :
  processes (resources_getitem r t).2 = processes t.
Proof. unfold resources_getitem. by destruct (Dict.get r (resources t)). Qed.

Lemma resources_getitem_records r t :
  records (resources_getitem r t).2 = records t.
Proof. unfold resources_getitem. by destruct (Dict.get r (resources t)). Qed.

Lemma allocate_resource_processes p r t :
  processes (allocate_resource p r t).2 = processes t.
Proof.
  unfold allocate_resource. destruct (Dict.get p (processes t)); [|done].
  pose proof (resources_getitem_processes r t) as H.
  by destruct (resources_getitem r t).
Qed.

Lemma set_waiting_for_processes p r t :
  processes (set_waiting_for p r t).2 = processes t.
Proof. unfold set_waiting_for. by destruct (Dict.get p (processes t)). Qed.

Lemma step_unregistered p t o :
  (∀ name, o ≠ AddProcess p name) →
  Dict.get p (processes t) = None →
  Dict.get p (processes (step t o)) = None.
Proof.
  intros Ho Hp. destruct o as [q name|q r|q r|]; simpl.
  - rewrite get_set_ne; [done|]. intros ->. by apply (Ho name).
  - by rewrite allocate_resource_processes.
  - by rewrite set_waiting_for_processes.
  - done.
Qed.

Lemma run_unregistered p ops t :
  (∀ name, AddProcess p name ∉ ops) →
  Dict.get p (processes t) = None →
  Dict.get p (processes (run ops t)) = None.
Proof.
  unfold run. revert t. induction ops as [|o ops IH]; intros t Hops Hp; [done|].
  simpl. apply IH.
  - intros name Hin. apply (Hops name). by right.
  - apply step_unregistered; [|done].
    intros name ->. apply (Hops name). by left.
Qed.

(** C4. On a process id that no [add_process] call has registered,
    [allocate_resource] and [set_waiting_for] return [False] and leave the
    whole store (both dicts and the objects they refer to) as it was. *)
Theorem unregistered_pid_is_rejected (ops : list op) (p : pid) (r : rid) :
  (∀ name, AddProcess p name ∉ ops) →
  allocate_resource p r (run ops init) = (false, run ops init) ∧
  set_waiting_for p r (run ops init) = (false, run ops init).
Proof.
  intros Hops.
  assert (Dict.get p (processes (run ops init)) = None) as Hp
    by (by apply run_unregistered).
  unfold allocate_resource, set_waiting_for. by rewrite Hp.
Qed.

Lemma unregistered_pid_is_rejected_witness :
  allocate_resource 7%Z "X" (run [AddProcess 1%Z "worker"; AllocateResource 1%Z "X"] init)
    = (false, run [AddProcess 1%Z "worker"; AllocateResource 1%Z "X"] init) ∧
  set_waiting_for 7%Z "X" (run [AddProcess 1%Z "worker"; AllocateResource 1%Z "X"] init)
    = (false, run [AddProcess 1%Z "worker"; AllocateResource 1%Z "X"] init).
Proof.
  apply (unregistered_pid_is_rejected
           [AddProcess 1%Z "worker"; AllocateResource 1%Z "X"] 7%Z "X").
  intros name Hin. apply list_elem_of_In in Hin. simpl in Hin.
  destruct Hin as [H|[H|[]]]; discriminate H.
Defined.

Lemma heap_wf_init : heap_wf init.
Proof. split; intros ? ? H; discriminate H. Qed.

Lemma heap_wf_step t o : heap_wf t → heap_wf (step t o).
Proof.
  intros [Hp Hr]. destruct o as [q name|q r|q r|]; simpl.
  - split; simpl; [|done]. intros p l. rewrite length_app; simpl.
    destruct (decide (q = p)) as [->|Hne].
    + rewrite get_set_eq. intros [= <-]. lia.
    + rewrite get_set_ne by done. intros H%Hp. lia.
  - unfold allocate_resource. destruct (Dict.get q (processes t)); [|done].
    unfold resources_getitem.
    destruct (Dict.get r (resources t)) as [lr|] eqn:Hget; simpl.
    + split; simpl; intros ? ?; rewrite length_alter; [apply Hp | apply Hr].
    + split; simpl; intros k l'; rewrite length_alter; [apply Hp|].
      rewrite length_app; simpl.
      destruct (decide (r = k)) as [->|Hne].
      * rewrite get_set_eq. intros [= <-]. lia.
      * rewrite get_set_ne by done. intros H%Hr. lia.
  - unfold set_waiting_for. destruct (Dict.get q (processes t)); [|done].
    split; simpl; intros ? ?; rewrite ?length_alter; [apply Hp | apply Hr].
  - split; intros ? ? H; discriminate H.
Qed.

Lemma heap_wf_run ops t : heap_wf t → heap_wf (run ops t).
Proof.
  unfold run. revert t. induction ops as [|o ops IH]; intros t Ht; [done|].
  simpl. apply IH. by apply heap_wf_step.
Qed.

Lemma occurrences_snoc_eq {A} `{EqDecision A} (x : A) (l : list A) :
  occurrences x (l ++ [x]) = S (occurrences x l).
Proof.
  unfold occurrences. rewrite filter_app, length_app.
  rewrite filter_cons_True by done. simpl. lia.
Qed.

Lemma held_lookup t p lp rec :
  Dict.get p (processes t) = Some lp → records t !! lp = Some rec →
  held t p = p_resources rec.
Proof. intros H1 H2. unfold held, process_of. rewrite H1. simpl. by rewrite H2. Qed.

Lemma holders_lookup t r lr h :
  Dict.get r (resources t) = Some lr → holder_lists t !! lr = Some h →
  holders t r = h.
Proof. intros H1 H2. unfold holders. rewrite H1. simpl. by rewrite H2. Qed.

Lemma holders_unknown t r : Dict.get r (resources t) = None → holders t r = [].
Proof. intros H. unfold holders. by rewrite H. Qed.

(** C10 as stated fails: allocating the same resource twice to one process
    leaves two occurrences of it in the held list. *)
Lemma held_list_keeps_duplicates :
  ¬ (occurrences "X" (held twice_allocated 1%Z) ≤ 1).
Proof. vm_compute. lia. Qed.

(** C10, amended.  The held collection is a list: in every store reached by
    calls of the tracker, a call [allocate_resource(pid, r)] on a registered
    [pid] returns [True], adds exactly one occurrence of [r] to the held list
    of [pid] and exactly one occurrence of [pid] to the holders of [r]. *)
Theorem allocate_resource_appends (ops : list op) (p : pid) (r : rid) :
  is_Some (Dict.get p (processes (run ops init))) →
  (allocate_resource p r (run ops init)).1 = true ∧
  occurrences r (held (allocate_resource p r (run ops init)).2 p)
    = S (occurrences r (held (run ops init) p)) ∧
  occurrences p (holders (allocate_resource p r (run ops init)).2 r)
    = S (occurrences p (holders (run ops init) r)).
Proof.
  intros [lp Hlp].
  destruct (heap_wf_run ops init heap_wf_init) as [Hp Hr].
  generalize dependent (run ops init). intros t Hlp Hp Hr.
  destruct (lookup_lt_is_Some_2 (records t) lp (Hp p lp Hlp)) as [rec Hrec].
  rewrite (held_lookup t p lp rec) by done.
  unfold allocate_resource. rewrite Hlp.
  unfold resources_getitem.
  destruct (Dict.get r (resources t)) as [lr|] eqn:Hget; simpl.
  - destruct (lookup_lt_is_Some_2 (holder_lists t) lr (Hr r lr Hget)) as [h Hh].
    rewrite (holders_lookup t r lr h) by done.
    split; [done|]. split.
    + erewrite held_lookup; [|exact Hlp|simpl; by rewrite list_lookup_alter_eq, Hrec].
      apply occurrences_snoc_eq.
    + erewrite holders_lookup; [|exact Hget|simpl; by rewrite list_lookup_alter_eq, Hh].
      apply occurrences_snoc_eq.
  - rewrite (holders_unknown t r) by done.
    split; [done|]. split.
    + erewrite held_lookup; [|exact Hlp|simpl; by rewrite list_lookup_alter_eq, Hrec].
      apply occurrences_snoc_eq.
    + erewrite holders_lookup; [|simpl; apply get_set_eq|simpl].
      2:{ rewrite list_lookup_alter_eq, lookup_app_r by lia.
          by rewrite Nat.sub_diag. }
      apply (occurrences_snoc_eq p []).
Qed.

Lemma allocate_resource_appends_witness :
  (allocate_resource 1%Z "X" (run [AddProcess 1%Z "worker"; AllocateResource 1%Z "X"] init)).1 = true ∧
  occurrences "X" (held (allocate_resource 1%Z "X"
      (run [AddProcess 1%Z "worker"; AllocateResource 1%Z "X"] init)).2 1%Z)
    = S (occurrences "X" (held (run [AddProcess 1%Z "worker"; AllocateResource 1%Z "X"] init) 1%Z)) ∧
  occurrences 1%Z (holders (allocate_resource 1%Z "X"
      (run [AddProcess 1%Z "worker"; AllocateResource 1%Z "X"] init)).2 "X")
    = S (occurrences 1%Z (holders (run [AddProcess 1%Z "worker"; AllocateResource 1%Z "X"] init) "X")).
Proof.
  apply (allocate_resource_appends
           [AddProcess 1%Z "worker"; AllocateResource 1%Z "X"] 1%Z "X").
  vm_compute. eauto.
Defined.

(** C3 fails on the code.  [get_system_state] copies the two top-level dicts
    only: the record of a process and the holder list of a resource are the
    live objects.  A snapshot of a store in which process 1 holds X shows,
    after later calls of [set_waiting_for] and [allocate_resource], the wait
    target and the extra entries those calls wrote. *)
Theorem snapshot_shares_live_objects :
  snapshot_processes one_holder (get_system_state one_holder)
    = [(1%Z, Some {| p_name := "worker"; p_status := "running";
                     p_resources := ["X"]; p_waiting_for := None |})] ∧
  snapshot_resources one_holder (get_system_state one_holder)
    = [("X", Some [1%Z])] ∧
  snapshot_processes (set_waiting_for 1%Z "Y" one_holder).2 (get_system_state one_holder)
    = [(1%Z, Some {| p_name := "worker"; p_status := "running";
                     p_resources := ["X"]; p_waiting_for := Some "Y" |})] ∧
  snapshot_processes (allocate_resource 1%Z "X" one_holder).2 (get_system_state one_holder)
    = [(1%Z, Some {| p_name := "worker"; p_status := "running";
                     p_resources := ["X"; "X"]; p_waiting_for := None |})] ∧
  snapshot_resources (allocate_resource 1%Z "X" one_holder).2 (get_system_state one_holder)
    = [("X", Some [1%Z; 1%Z])].
Proof. repeat split. Qed.

(** The two mutations that replace or drop dict entries do not reach a
    snapshot: the heap cells it refers to are left alone. *)
Lemma clear_system_keeps_snapshot t s :
  snapshot_processes (clear_system t) s = snapshot_processes t s ∧
  snapshot_resources (clear_system t) s = snapshot_resources t s.
Proof. done. Qed.

Lemma add_process_keeps_snapshot t p name s :
  Forall (fun item => item.2 < length (records t)) (snap_processes s) →
  snapshot_processes (add_process p name t) s = snapshot_processes t s ∧
  snapshot_resources (add_process p name t) s = snapshot_resources t s.
Proof.
  intros Hs. split; [|done]. unfold snapshot_processes.
  apply list_fmap_ext. intros i [q l] Hi. simpl. f_equal.
  apply lookup_app_l. by apply (Forall_lookup_1 _ _ _ _ Hs Hi).
Qed.

(** C9 fails on the code.  [add_process] on a registered id installs a fresh
    record and leaves the index alone: process 1 is still listed as a holder
    of X while its held list is empty. *)
Theorem reregistration_leaves_stale_holder :
  holders reregistered "X" = [1%Z] ∧ held reregistered 1%Z = [].
Proof. split; reflexivity. Qed.

(** C8 as stated fails: after [clear_system] the detector answers [None],
    not an empty sequence of cycles. *)
Lemma cleared_store_result_is_none :
  (detect_deadlocks "12:00" (clear_system classic) []).1 = None ∧
  (detect_deadlocks "12:00" (clear_system classic) []).1 ≠ Some [].
Proof. split; [reflexivity | done]. Qed.

(** C8, amended.  After [clear_system], [detect_deadlocks] finds nothing: it
    returns [None], its result for "no deadlock", and logs nothing, whatever
    the store and the heap were before. *)
Theorem clear_system_then_detect (now : string) (t : Tracker) (h : list detection) :
  detect_deadlocks now (clear_system t) h = (None, h).
Proof. reflexivity. Qed.

(** ** Paths and cycles *)

Lemma is_path_cons g u v l :
  is_path g (u :: v :: l) ↔ has_edge g u v ∧ is_path g (v :: l).
Proof. done. Qed.

Lemma is_path_app g l x k :
  is_path g (l ++ x :: k) ↔ is_path g (l ++ [x]) ∧ is_path g (x :: k).
Proof.
  induction l as [|u l IH]; simpl.
  - tauto.
  - destruct l as [|v l]; simpl in *; tauto.
Qed.

Lemma is_path_snoc g l v w :
  is_path g (l ++ [v]) → has_edge g v w → is_path g ((l ++ [v]) ++ [w]).
Proof.
  intros Hl Hvw. rewrite <- app_assoc. simpl.
  apply is_path_app. split; [done|]. simpl. tauto.
Qed.

Lemma is_path_has_successor g l x u :
  is_path g (l ++ [x]) → u ∈ l → ∃ v, has_edge g u v.
Proof.
  induction l as [|a l IH]; intros Hp Hu; [by apply elem_of_nil in Hu|].
  apply elem_of_cons in Hu as [->|Hu].
  - destruct l as [|b l]; simpl in Hp; destruct Hp; eauto.
  - apply IH; [|done]. destruct l as [|b l]; simpl in *; tauto.
Qed.

Lemma has_edge_node g u v : has_edge g u v → u ∈ nodes g.
Proof.
  unfold has_edge, successors, nodes. intros H.
  destruct (Dict.get u g) as [s|] eqn:Hget.
  - by apply get_Some_keys in Hget.
  - by apply elem_of_nil in H.
Qed.

Lemma closed_walk_nodes g w u : closed_walk g w → u ∈ w → u ∈ nodes g.
Proof.
  intros [Hne Hp] Hu. destruct w as [|a w]; [done|].
  change (take 1 (a :: w)) with [a] in Hp.
  destruct (is_path_has_successor _ _ _ _ Hp Hu) as [v Hv].
  by apply has_edge_node in Hv.
Qed.

Lemma rotation_refl c : rotation c c.
Proof. exists [], c. by rewrite app_nil_r. Qed.

Lemma rotation_sym c c' : rotation c c' → rotation c' c.
Proof. intros (l1 & l2 & -> & ->). by exists l2, l1. Qed.

Lemma rotation_length c c' : rotation c c' → length c = length c'.
Proof. intros (l1 & l2 & -> & ->). rewrite !length_app. lia. Qed.

Lemma rotation_elem_of c c' x : rotation c c' → x ∈ c ↔ x ∈ c'.
Proof. intros (l1 & l2 & -> & ->). rewrite !elem_of_app. tauto. Qed.

Lemma rotation_Permutation c c' : rotation c c' → c ≡ₚ c'.
Proof. intros (l1 & l2 & -> & ->). apply Permutation_app_comm. Qed.

Lemma rotation_closed_walk g c c' : rotation c c' → closed_walk g c → closed_walk g c'.
Proof.
  intros (l1 & l2 & -> & ->) [Hne Hp].
  destruct l1 as [|a l1]; [by rewrite app_nil_r|].
  destruct l2 as [|b l2]; [by rewrite app_nil_r in *|].
  split; [done|].
  change (take 1 ((a :: l1) ++ b :: l2)) with [a] in Hp.
  change (take 1 ((b :: l2) ++ a :: l1)) with [b].
  rewrite <- app_assoc in Hp. rewrite <- app_assoc.
  change ((b :: l2) ++ [a]) with (b :: l2 ++ [a]) in Hp.
  change ((a :: l1) ++ [b]) with (a :: l1 ++ [b]).
  apply is_path_app in Hp as [Hp1 Hp2].
  apply is_path_app. split; [exact Hp2 | exact Hp1].
Qed.

Lemma rotation_simple_cycle g c c' : rotation c c' → simple_cycle g c → simple_cycle g c'.
Proof.
  intros Hrot [Hw Hnd]. split; [by eapply rotation_closed_walk|].
  by rewrite <- (rotation_Permutation _ _ Hrot).
Qed.

(** ** The cycle enumerator *)

Lemma cycles_from_sound g later root fuel pre v c :
  head (pre ++ [v]) = Some root →
  is_path g (pre ++ [v]) →
  NoDup (pre ++ [v]) →
  c ∈ cycles_from g later root fuel (pre ++ [v]) v →
  simple_cycle g c.
Proof.
  revert pre v. induction fuel as [|fuel IH]; intros pre v Hhd Hp Hnd Hc; simpl in Hc.
  - by apply elem_of_nil in Hc.
  - apply elem_of_app in Hc as [Hc|Hc].
    + destruct (decide (root ∈ successors g v)) as [Hback|]; [|by apply elem_of_nil in Hc].
      apply list_elem_of_singleton in Hc as ->.
      split; [split|done].
      * by destruct pre.
      * apply head_Some in Hhd as [l' Hl']. rewrite Hl' at 2.
        change (take 1 (root :: l')) with [root].
        by apply is_path_snoc.
    + apply list_elem_of_bind in Hc as (w & Hc & Hw).
      destruct (decide (w ∈ later ∧ w ∉ pre ++ [v])) as [[_ Hfresh]|];
        [|by apply elem_of_nil in Hc].
      apply (IH (pre ++ [v]) w); [| | |done].
      * apply head_Some in Hhd as [l' Hl']. by rewrite Hl'.
      * by apply is_path_snoc.
      * apply NoDup_app. split; [done|]. split; [|apply NoDup_singleton].
        intros x Hx Hxw%list_elem_of_singleton. subst x. contradiction.
Qed.

Lemma cycles_rooted_sound g order c :
  c ∈ cycles_rooted g order → simple_cycle g c.
Proof.
  induction order as [|root later IH]; simpl; intros Hc.
  - by apply elem_of_nil in Hc.
  - apply elem_of_app in Hc as [Hc|Hc]; [|by apply IH].
    apply (cycles_from_sound g later root (S (length later)) [] root c);
      [done|done|apply NoDup_singleton|done].
Qed.

Lemma simple_cycles_sound g c : c ∈ simple_cycles g → simple_cycle g c.
Proof. apply cycles_rooted_sound. Qed.

Lemma cycles_from_complete g later root suffix :
  ∀ fuel path v,
    is_path g (v :: suffix ++ [root]) →
    (∀ x, x ∈ suffix → x ∈ later) →
    NoDup (path ++ suffix) →
    length suffix < fuel →
    path ++ suffix ∈ cycles_from g later root fuel path v.
Proof.
  induction suffix as [|w suffix IH]; intros fuel path v Hp Hin Hnd Hfuel;
    (destruct fuel as [|fuel]; [simpl in Hfuel; lia|]); simpl.
  - rewrite app_nil_r. apply elem_of_app. left.
    destruct Hp as [Hback _]. rewrite decide_True by done. by left.
  - apply elem_of_app. right. apply list_elem_of_bind. exists w.
    simpl in Hp. destruct Hp as [Hvw Hp].
    assert (w ∉ path) as Hfresh.
    { apply NoDup_app in Hnd as (_ & Hdisj & _). intros Hw.
      apply (Hdisj w Hw). by left. }
    split; [|done]. rewrite decide_True.
    + rewrite (cons_middle w path suffix), app_assoc.
      apply IH; [done| |by rewrite <- app_assoc|simpl in Hfuel; lia].
      intros x Hx. apply Hin. by right.
    + split; [|done]. apply Hin. by left.
Qed.

Lemma cycles_rooted_cons g root later :
  cycles_rooted g (root :: later)
  = cycles_from g later root (S (length later)) [root] root ++ cycles_rooted g later.
Proof. done. Qed.

Lemma cycles_rooted_complete g order c :
  simple_cycle g c → (∀ x, x ∈ c → x ∈ order) →
  ∃ c', rotation c c' ∧ c' ∈ cycles_rooted g order.
Proof.
  revert c. induction order as [|root later IH]; intros c Hc Hsub.
  - destruct Hc as [[Hne _] _]. destruct c as [|x c]; [done|].
    exfalso. eapply elem_of_nil, (Hsub x). by left.
  - destruct (decide (root ∈ c)) as [Hroot|Hroot].
    + apply list_elem_of_split in Hroot as (l1 & l2 & ->).
      assert (rotation (l1 ++ root :: l2) (root :: l2 ++ l1)) as Hrot
        by (by exists l1, (root :: l2)).
      exists (root :: l2 ++ l1). split; [done|]. rewrite cycles_rooted_cons.
      apply elem_of_app. left.
      destruct (rotation_simple_cycle _ _ _ Hrot Hc) as [[_ Hp] Hnd].
      change (take 1 (root :: l2 ++ l1)) with [root] in Hp.
      assert (∀ x, x ∈ l2 ++ l1 → x ∈ later) as Hlater.
      { intros x Hx. apply NoDup_cons in Hnd as [Hnr _].
        assert (x ∈ root :: later) as Hx'.
        { apply Hsub. apply elem_of_app in Hx as [|].
          - apply elem_of_app. right. by right.
          - apply elem_of_app. by left. }
        apply elem_of_cons in Hx' as [->|]; done. }
      apply (cycles_from_complete g later root (l2 ++ l1) _ [root] root);
        [done|done|done|].
      simpl.
      apply NoDup_cons in Hnd as [_ Hnd].
      assert (length (l2 ++ l1) ≤ length later); [|lia].
      apply submseteq_length, NoDup_submseteq; [done|].
      intros x Hx. by apply Hlater.
    + destruct (IH c Hc) as (c' & Hrot & Hc').
      { intros x Hx. pose proof (Hsub x Hx) as Hx'.
        apply elem_of_cons in Hx' as [->|]; [contradiction|done]. }
      exists c'. split; [done|]. rewrite cycles_rooted_cons.
      apply elem_of_app. by right.
Qed.

Lemma simple_cycles_complete g c :
  simple_cycle g c → ∃ c', rotation c c' ∧ c' ∈ simple_cycles g.
Proof.
  intros Hc. apply cycles_rooted_complete; [done|].
  intros x Hx. destruct Hc as [Hw _]. by eapply closed_walk_nodes.
Qed.

(** ** The detector *)

Lemma report_None now g h :
  filter (fun cycle => 4 ≤ length cycle) (simple_cycles g) = [] →
  report now g h = (None, h).
Proof. unfold report. by intros ->. Qed.

Lemma report_Some now g h ds :
  (report now g h).1 = Some ds →
  ds = filter (fun cycle => 4 ≤ length cycle) (simple_cycles g) ∧
  (report now g h).2 = h ++ [{| time := now; deadlocks := ds; graph := g |}].
Proof.
  unfold report.
  destruct (filter _ (simple_cycles g)) as [|c l]; simpl; [done|].
  by intros [= <-].
Qed.

Lemma report_never_empty now g h : (report now g h).1 ≠ Some [].
Proof.
  unfold report.
  destruct (filter _ (simple_cycles g)) as [|c l]; simpl; [done|].
  by intros [= ?].
Qed.

Lemma report_complete now g h c :
  simple_cycle g c → 4 ≤ length c →
  ∃ ds c', (report now g h).1 = Some ds ∧ c' ∈ ds ∧ rotation c c'.
Proof.
  intros Hc Hlen. destruct (simple_cycles_complete g c Hc) as (c' & Hrot & Hc').
  assert (c' ∈ filter (fun cycle => 4 ≤ length cycle) (simple_cycles g)) as Hin.
  { apply list_elem_of_filter. split; [|done].
    by rewrite <- (rotation_length _ _ Hrot). }
  unfold report. destruct (filter _ (simple_cycles g)) as [|d l] eqn:Hf.
  - by apply elem_of_nil in Hin.
  - by exists (d :: l), c'.
Qed.

Lemma report_sound now g h ds c :
  (report now g h).1 = Some ds → c ∈ ds → simple_cycle g c ∧ 4 ≤ length c.
Proof.
  intros [-> _]%report_Some [Hlen Hc]%list_elem_of_filter.
  split; [by apply simple_cycles_sound | done].
Qed.

(** C2 as stated fails: with no closed walk at all, the detector answers
    [None], not an empty list. *)
Lemma no_deadlock_result_is_none :
  (∀ w, 4 ≤ length w → ¬ closed_walk (allocation_graph init) w) ∧
  (detect_deadlocks "12:00" init []).1 ≠ Some [].
Proof.
  split; [|done].
  intros w Hlen [_ Hp]. destruct w as [|a [|b w]]; simpl in Hlen; [lia..|].
  destruct Hp as [Hab _]. by apply elem_of_nil in Hab.
Qed.

(** C2, amended.  For a store whose allocation graph has no cycle of four
    nodes or more (an elementary circuit: a closed walk that repeats no
    node), [detect_deadlocks] returns [None] (the value it uses for "no
    deadlock"; it never returns an empty list) and leaves the detection
    history as it was.  Cycles of two nodes do not count. *)
Theorem no_long_cycle_no_detection (now : string) (t : Tracker) (h : list detection) :
  (¬ ∃ c, simple_cycle (allocation_graph t) c ∧ 4 ≤ length c) →
  detect_deadlocks now t h = (None, h) ∧
  (∀ now' t' h', (detect_deadlocks now' t' h').1 ≠ Some []).
Proof.
  intros Hno. split; [|intros; apply report_never_empty].
  apply report_None. apply elem_of_nil_inv. intros c [Hlen Hc]%list_elem_of_filter.
  apply Hno. exists c. split; [by apply simple_cycles_sound | done].
Qed.

Lemma no_long_cycle_no_detection_witness :
  detect_deadlocks "12:00" self_wait [] = (None, []) ∧
  (∀ now' t' h', (detect_deadlocks now' t' h').1 ≠ Some []).
Proof.
  apply (no_long_cycle_no_detection "12:00" self_wait []).
  intros (c & Hc & Hlen).
  destruct (simple_cycles_complete _ _ Hc) as (c' & Hrot & Hin).
  apply rotation_length in Hrot.
  replace (simple_cycles (allocation_graph self_wait)) with [["P1"; "RX"]] in Hin
    by (by vm_compute).
  apply list_elem_of_singleton in Hin. subst c'. simpl in Hrot. lia.
Defined.

(** C5. Whatever the store, a cycle that [detect_deadlocks] returns is an
    elementary circuit of the allocation graph with at least four nodes, and
    no circuit with fewer than four nodes (a process and a resource pointing
    at each other, in particular) is returned, read from any of its nodes.
    The same holds for the detector of [deadlock_detector.py]. *)
Theorem reported_cycles_have_four_nodes (now : string) (t : Tracker)
    (h : list detection) (ds : list (list node)) :
  ((detect_deadlocks now t h).1 = Some ds →
     (∀ c, c ∈ ds → 4 ≤ length c ∧ simple_cycle (allocation_graph t) c) ∧
     (∀ c c', simple_cycle (allocation_graph t) c → length c < 4 →
              rotation c c' → c' ∉ ds)) ∧
  ((Monitor.detect_deadlocks now t h).1 = Some ds →
     (∀ c, c ∈ ds →
           4 ≤ length c ∧ simple_cycle (Monitor.build_graph t (get_system_state t)) c) ∧
     (∀ c c', simple_cycle (Monitor.build_graph t (get_system_state t)) c →
              length c < 4 → rotation c c' → c' ∉ ds)).
Proof.
  split; intros Hds; (split; [intros c Hc | intros c c' _ Hlen Hrot Hc']).
  - destruct (report_sound _ _ _ _ _ Hds Hc). done.
  - destruct (report_sound _ _ _ _ _ Hds Hc') as [_ Hlen'].
    rewrite (rotation_length _ _ Hrot) in Hlen. lia.
  - destruct (report_sound _ _ _ _ _ Hds Hc). done.
  - destruct (report_sound _ _ _ _ _ Hds Hc') as [_ Hlen'].
    rewrite (rotation_length _ _ Hrot) in Hlen. lia.
Qed.

(** C6. Every elementary circuit of the allocation graph with at least four
    nodes is returned, up to the node it is read from: for any collection of
    such circuits (node-disjoint deadlocks among them), the detector returns
    a list in which each one occurs; everything in that list is an
    elementary circuit. *)
Theorem every_deadlock_is_reported (now : string) (t : Tracker)
    (h : list detection) (cs : list (list node)) :
  cs ≠ [] →
  Forall (fun c => simple_cycle (allocation_graph t) c ∧ 4 ≤ length c) cs →
  ∃ ds, (detect_deadlocks now t h).1 = Some ds ∧
        Forall (fun c => ∃ c', c' ∈ ds ∧ rotation c c') cs ∧
        Forall (fun d => simple_cycle (allocation_graph t) d ∧ 4 ≤ length d) ds.
Proof.
  intros Hne Hcs. destruct cs as [|c0 cs]; [done|].
  pose proof (Forall_inv Hcs) as [Hc0 Hlen0].
  destruct (report_complete now (allocation_graph t) h c0 Hc0 Hlen0)
    as (ds & c0' & Hds & _ & _).
  exists ds. split; [done|]. split.
  - apply Forall_forall. intros c Hc.
    destruct (proj1 (Forall_forall _ _) Hcs c Hc) as [Hcyc Hlen].
    destruct (report_complete now (allocation_graph t) h c Hcyc Hlen)
      as (ds' & c' & Hds' & Hin & Hrot).
    unfold detect_deadlocks in Hds. rewrite Hds in Hds'. injection Hds' as <-.
    by exists c'.
  - apply Forall_forall. intros d Hd.
    destruct (report_sound _ _ _ _ _ Hds Hd). done.
Qed.

Lemma every_deadlock_is_reported_witness :
  ∃ ds, (detect_deadlocks "12:00" two_deadlocks []).1 = Some ds ∧
        Forall (fun c => ∃ c', c' ∈ ds ∧ rotation c c')
               [["RX"; "P2"; "RY"; "P1"]; ["P4"; "RV"; "P3"; "RU"]] ∧
        Forall (fun d => simple_cycle (allocation_graph two_deadlocks) d ∧ 4 ≤ length d) ds.
Proof.
  apply (every_deadlock_is_reported "12:00" two_deadlocks []
           [["RX"; "P2"; "RY"; "P1"]; ["P4"; "RV"; "P3"; "RU"]]).
  - done.
  - apply (bool_decide_unpack _). vm_compute. exact I.
Defined.

(** ** Node names and [int] *)

Lemma is_digit_not_space c : is_digit c = true → is_space c = false.
Proof. destruct c as [[] [] [] [] [] [] [] []]; vm_compute; congruence. Qed.

Lemma is_digit_not_underscore c : is_digit c = true → Ascii.eqb c "_" = false.
Proof. destruct c as [[] [] [] [] [] [] [] []]; vm_compute; congruence. Qed.

Lemma is_digit_not_sign c :
  is_digit c = true → Ascii.eqb c "-" = false ∧ Ascii.eqb c "+" = false.
Proof. destruct c as [[] [] [] [] [] [] [] []]; vm_compute; split; congruence. Qed.

Lemma string_of_uint_digits d : all_chars is_digit (NilEmpty.string_of_uint d) = true.
Proof. induction d; simpl; by rewrite ?IHd. Qed.

Lemma rstrip_no_space s :
  all_chars (fun c => negb (is_space c)) s = true → rstrip s = s.
Proof.
  induction s as [|c s IH]; simpl; [done|].
  intros [Hc Hs]%andb_prop. rewrite (IH Hs).
  apply negb_true_iff in Hc. rewrite Hc. by destruct s.
Qed.

Lemma all_chars_impl (P Q : ascii → bool) s :
  (∀ c, P c = true → Q c = true) → all_chars P s = true → all_chars Q s = true.
Proof.
  intros HPQ. induction s as [|c s IH]; simpl; [done|].
  intros [Hc Hs]%andb_prop. by rewrite (HPQ c Hc), (IH Hs).
Qed.

Lemma digits_no_space s :
  all_chars is_digit s = true → all_chars (fun c => negb (is_space c)) s = true.
Proof.
  apply all_chars_impl. intros c Hc. by rewrite (is_digit_not_space c Hc).
Qed.

Lemma py_digits_cons c c2 rest :
  Ascii.eqb c2 "_" = false →
  py_digits (String c (String c2 rest)) = uint_of_char c (py_digits (String c2 rest)).
Proof.
  intros H.
  change (py_digits (String c (String c2 rest)))
    with (if Ascii.eqb c2 "_" then uint_of_char c (py_digits rest)
          else uint_of_char c (py_digits (String c2 rest))).
  by rewrite H.
Qed.

Lemma string_of_uint_head d :
  d ≠ Nil → ∃ c rest, NilEmpty.string_of_uint d = String c rest ∧ is_digit c = true.
Proof. destruct d; [done|..]; intros _; simpl; eauto. Qed.

Lemma uint_Nil_or d : d = Nil ∨ d ≠ Nil.
Proof. destruct d; (by left) || (by right). Qed.

Lemma py_digits_string_of_uint d :
  d ≠ Nil → py_digits (NilEmpty.string_of_uint d) = Some d.
Proof.
  induction d as [|d IH|d IH|d IH|d IH|d IH|d IH|d IH|d IH|d IH|d IH];
    intros Hd; [done|..];
    (destruct (uint_Nil_or d) as [->|Hne]; [done|];
     destruct (string_of_uint_head d Hne) as (c & rest & Hs & Hc);
     cbn [NilEmpty.string_of_uint]; rewrite Hs;
     rewrite py_digits_cons by (by apply is_digit_not_underscore);
     rewrite <- Hs, (IH Hne); done).
Qed.

Lemma strip_digits c s :
  is_space c = false → all_chars is_digit s = true →
  strip (String c s) = String c s.
Proof.
  intros Hc Hs. unfold strip. simpl. rewrite Hc.
  apply rstrip_no_space. simpl. rewrite Hc. simpl. by apply digits_no_space.
Qed.

Lemma py_int_unsigned d :
  d ≠ Nil → py_int (NilEmpty.string_of_uint d) = Some (Z.of_uint d).
Proof.
  intros Hd. destruct (string_of_uint_head d Hd) as (c & rest & Hs & Hc).
  pose proof (string_of_uint_digits d) as Hall. unfold py_int.
  rewrite Hs in Hall |- *. simpl in Hall. apply andb_prop in Hall as [_ Hall].
  rewrite strip_digits by (by try apply is_digit_not_space).
  destruct (is_digit_not_sign c Hc) as [-> ->].
  by rewrite <- Hs, py_digits_string_of_uint.
Qed.

Lemma py_int_negative d :
  d ≠ Nil →
  py_int (String "-" (NilEmpty.string_of_uint d)) = Some (- Z.of_uint d)%Z.
Proof.
  intros Hd. unfold py_int.
  rewrite strip_digits by (done || apply string_of_uint_digits).
  simpl. by rewrite py_digits_string_of_uint.
Qed.

(** [int(str(n)) == n]. *)
Lemma py_int_str_int n : py_int (str_int n) = Some n.
Proof.
  unfold str_int. destruct n as [|p|p]; [done|..].
  - pose proof (Unsigned.to_uint_nonnil p) as Hp.
    change (Z.to_int (Z.pos p)) with (Pos (Pos.to_uint p)).
    unfold NilZero.string_of_int, NilZero.string_of_uint.
    destruct (Pos.to_uint p) eqn:Hu; [done|..]; rewrite <- Hu;
      (rewrite py_int_unsigned by (by rewrite Hu));
      unfold Z.of_uint; by rewrite Unsigned.of_to.
  - pose proof (Unsigned.to_uint_nonnil p) as Hp.
    change (Z.to_int (Z.neg p)) with (Neg (Pos.to_uint p)).
    unfold NilZero.string_of_int, NilZero.string_of_uint.
    destruct (Pos.to_uint p) eqn:Hu; [done|..]; rewrite <- Hu;
      (rewrite py_int_negative by (by rewrite Hu));
      unfold Z.of_uint; by rewrite Unsigned.of_to.
Qed.

Lemma str_int_inj a b : str_int a = str_int b → a = b.
Proof.
  intros H. pose proof (py_int_str_int a) as Ha.
  rewrite H, py_int_str_int in Ha. congruence.
Qed.

Lemma process_node_inj a b : process_node a = process_node b → a = b.
Proof. intros [= H]. by apply str_int_inj. Qed.

Lemma resource_node_inj a b : resource_node a = resource_node b → a = b.
Proof. by intros [= H]. Qed.

Lemma process_node_not_resource p r : process_node p ≠ resource_node r.
Proof. discriminate. Qed.

(** ** The resolver *)

Lemma elem_of_set_add {A} `{EqDecision A} (x y : A) (s : list A) :
  y ∈ set_add x s ↔ y = x ∨ y ∈ s.
Proof.
  unfold set_add. destruct (decide (x ∈ s)) as [Hx|Hx].
  - split; [by right | intros [->|]; done].
  - rewrite elem_of_app, list_elem_of_singleton. tauto.
Qed.

Lemma NoDup_set_add {A} `{EqDecision A} (x : A) (s : list A) :
  NoDup s → NoDup (set_add x s).
Proof.
  intros Hs. unfold set_add. destruct (decide (x ∈ s)) as [Hx|Hx]; [done|].
  apply NoDup_app. split; [done|]. split; [|apply NoDup_singleton].
  intros y Hy Hyx%list_elem_of_singleton. by subst.
Qed.

Lemma collect_spec cycle :
  Forall graph_node cycle →
  ∀ ps rs, NoDup ps → NoDup rs →
  ∃ ps' rs',
    collect cycle ps rs = Some (ps', rs') ∧ NoDup ps' ∧ NoDup rs' ∧
    (∀ p, p ∈ ps' ↔ p ∈ ps ∨ process_node p ∈ cycle) ∧
    (∀ r, r ∈ rs' ↔ r ∈ rs ∨ resource_node r ∈ cycle).
Proof.
  induction 1 as [|n cycle Hn _ IH]; intros ps rs Hps Hrs.
  - exists ps, rs. repeat split; try done; rewrite ?elem_of_nil; tauto.
  - destruct Hn as [[p ->]|[r ->]].
    + destruct (IH (set_add p ps) rs) as (ps' & rs' & Hc & Hps' & Hrs' & Hp & Hr);
        [by apply NoDup_set_add | done |].
      exists ps', rs'. split.
      { change (collect (process_node p :: cycle) ps rs)
          with (match py_int (str_int p) with
                | Some q => collect cycle (set_add q ps) rs
                | None => None
                end).
        by rewrite py_int_str_int. }
      split; [done|]. split; [done|]. split.
      * intros q. rewrite Hp, elem_of_set_add, elem_of_cons.
        split; [intros [[->|]|]; auto | intros [|[->%process_node_inj|]]; auto].
      * intros r. rewrite Hr, elem_of_cons.
        split; [intros [|]; auto | intros [|[Heq|]]; auto].
        by destruct (process_node_not_resource p r).
    + destruct (IH ps (set_add r rs)) as (ps' & rs' & Hc & Hps' & Hrs' & Hp & Hr);
        [done | by apply NoDup_set_add |].
      exists ps', rs'. split; [exact Hc|].
      split; [done|]. split; [done|]. split.
      * intros q. rewrite Hp, elem_of_cons.
        split; [intros [|]; auto | intros [|[Heq|]]; auto].
        by destruct (process_node_not_resource q r).
      * intros q. rewrite Hr, elem_of_set_add, elem_of_cons.
        split; [intros [[->|]|]; auto | intros [|[->%resource_node_inj|]]; auto].
Qed.

Lemma min_of_spec x s :
  min_of x s ∈ x :: s ∧ ∀ y, y ∈ x :: s → (min_of x s ≤ y)%Z.
Proof.
  induction s as [|z s [IHin IHle]]; simpl.
  - split; [by left|]. intros y ->%list_elem_of_singleton. lia.
  - split.
    + destruct (Z.min_spec z (min_of x s)) as [[_ ->]|[_ ->]].
      * right. by left.
      * apply elem_of_cons in IHin as [->|]; [by left | by do 2 right].
    + intros y Hy. apply elem_of_cons in Hy as [->|Hy].
      * pose proof (IHle x (list_elem_of_here _ _)). lia.
      * apply elem_of_cons in Hy as [->|Hy]; [lia|].
        pose proof (IHle y (list_elem_of_further _ _ _ Hy)). lia.
Qed.

Section ResolverFacts.
Variable list_of_pids : list pid → list pid.
Variable list_of_rids : list rid → list rid.
Variable pop : list rid → rid.
Hypothesis list_of_pids_members : ∀ s, list_of_pids s ≡ₚ s.
Hypothesis list_of_rids_members : ∀ s, list_of_rids s ≡ₚ s.
Hypothesis pop_member : ∀ s, s ≠ [] → pop s ∈ s.

(** C7. For a cycle made of graph nodes, with at least one process node and
    one resource node, [suggest_resolutions] returns two resolutions.  The
    first is a [process_termination] whose targets are exactly the processes
    of the cycle and whose recommendation names the lowest of their ids; the
    second is a [resource_preemption] whose targets are exactly the resources
    of the cycle and whose recommendation names one of them.  The tracker and
    the detector history that the resolver can reach are returned as they
    were.  The order of the targets and the resource that is picked are the
    interpreter's. *)
Theorem suggest_resolutions_spec (cycle : list node) (sys : System) :
  Forall graph_node cycle →
  (∃ p, process_node p ∈ cycle) →
  (∃ r, resource_node r ∈ cycle) →
  ∃ pids lowest rids chosen,
    suggest_resolutions list_of_pids list_of_rids pop cycle sys =
      (Some [{| r_type := "process_termination";
                description := "Terminate one process involved in the deadlock";
                targets := ProcessTargets pids;
                recommendation :=
                  "Terminate process: " +:+ str_int lowest +:+ " (lowest PID)" |};
             {| r_type := "resource_preemption";
                description := "Preempt one resource involved in the deadlock";
                targets := ResourceTargets rids;
                recommendation := "Preempt resource: " +:+ chosen |}],
       sys) ∧
    NoDup pids ∧ (∀ p, p ∈ pids ↔ process_node p ∈ cycle) ∧
    lowest ∈ pids ∧ (∀ p, p ∈ pids → (lowest ≤ p)%Z) ∧
    NoDup rids ∧ (∀ r, r ∈ rids ↔ resource_node r ∈ cycle) ∧
    chosen ∈ rids.
Proof.
  intros Hnodes [p0 Hp0] [r0 Hr0].
  destruct (collect_spec cycle Hnodes [] [] NoDup_nil_2 NoDup_nil_2)
    as (ps & rs & Hc & Hps & Hrs & Hp & Hr).
  assert (∀ p, p ∈ ps ↔ process_node p ∈ cycle) as Hp'.
  { intros p. rewrite Hp, elem_of_nil. tauto. }
  assert (∀ r, r ∈ rs ↔ resource_node r ∈ cycle) as Hr'.
  { intros r. rewrite Hr, elem_of_nil. tauto. }
  unfold suggest_resolutions. rewrite Hc.
  destruct ps as [|p ps]; [by apply Hp', elem_of_nil in Hp0|].
  destruct rs as [|r rs]; [by apply Hr', elem_of_nil in Hr0|].
  destruct (min_of_spec p ps) as [Hmin Hle].
  exists (list_of_pids (p :: ps)), (min_of p ps), (list_of_rids (r :: rs)), (pop (r :: rs)).
  split; [done|].
  split; [by rewrite list_of_pids_members|].
  split; [intros q; by rewrite list_of_pids_members|].
  split; [by rewrite list_of_pids_members|].
  split; [intros q; rewrite list_of_pids_members; apply Hle|].
  split; [by rewrite list_of_rids_members|].
  split; [intros q; by rewrite list_of_rids_members|].
  rewrite list_of_rids_members. by apply pop_member.
Qed.
End ResolverFacts.

Lemma suggest_resolutions_spec_witness :
  ∃ pids lowest rids chosen,
    suggest_resolutions (fun s => s) (fun s => s) (fun s => default "" (head s))
        ["P2"; "RX"; "P1"; "RY"] {| tracker := init; detection_history := [] |} =
      (Some [{| r_type := "process_termination";
                description := "Terminate one process involved in the deadlock";
                targets := ProcessTargets pids;
                recommendation :=
                  "Terminate process: " +:+ str_int lowest +:+ " (lowest PID)" |};
             {| r_type := "resource_preemption";
                description := "Preempt one resource involved in the deadlock";
                targets := ResourceTargets rids;
                recommendation := "Preempt resource: " +:+ chosen |}],
       {| tracker := init; detection_history := [] |}) ∧
    NoDup pids ∧ (∀ p, p ∈ pids ↔ process_node p ∈ ["P2"; "RX"; "P1"; "RY"]) ∧
    lowest ∈ pids ∧ (∀ p, p ∈ pids → (lowest ≤ p)%Z) ∧
    NoDup rids ∧ (∀ r, r ∈ rids ↔ resource_node r ∈ ["P2"; "RX"; "P1"; "RY"]) ∧
    chosen ∈ rids.
Proof.
  apply (suggest_resolutions_spec (fun s => s) (fun s => s)
           (fun s => default "" (head s))).
  - done.
  - done.
  - intros [|x s] Hs; [done | by left].
  - rewrite !Forall_cons. split_and!; [| | | |done].
    + left. by exists 2%Z.
    + right. by exists "X".
    + left. by exists 1%Z.
    + right. by exists "Y".
  - exists 2%Z. by left.
  - exists "X". right. by left.
Defined.

(** Membership in an explicit list of distinct nodes. *)
Ltac solve_member :=
  first [ done | congruence
        | rewrite ?not_elem_of_cons, ?elem_of_cons, ?elem_of_nil;
          first [ tauto | intuition congruence ] ].

Ltac decide_step :=
  match goal with
  | |- context [decide ?P] =>
      first [ rewrite (decide_True (P:=P)) by solve_member
            | rewrite (decide_False (P:=P)) by solve_member ]
  end.

Lemma four_cycle (a b x y : node) :
  a ≠ b → a ≠ x → a ≠ y → b ≠ x → b ≠ y → x ≠ y →
  simple_cycles [(a, [x]); (b, [y]); (x, [b]); (y, [a])] = [[a; x; b; y]].
Proof.
  intros Hab Hax Hay Hbx Hby Hxy.
  set (g := [(a, [x]); (b, [y]); (x, [b]); (y, [a])]).
  assert (successors g a = [x]) as Sa.
  { unfold successors, g; simpl. by repeat decide_step. }
  assert (successors g b = [y]) as Sb.
  { unfold successors, g; simpl. by repeat decide_step. }
  assert (successors g x = [b]) as Sx.
  { unfold successors, g; simpl. by repeat decide_step. }
  assert (successors g y = [a]) as Sy.
  { unfold successors, g; simpl. by repeat decide_step. }
  unfold simple_cycles. change (nodes g) with [a; b; x; y]. clearbody g.
  simpl. rewrite ?Sa, ?Sb, ?Sx, ?Sy. simpl.
  repeat (decide_step; simpl; rewrite ?Sa, ?Sb, ?Sx, ?Sy; simpl).
  done.
Qed.

Lemma classic_deadlock_state A B nameA nameB X Y :
  A ≠ B → X ≠ Y →
  classic_deadlock A B nameA nameB X Y =
  {| processes := [(A, 0); (B, 1)];
     resources := [(X, 0); (Y, 1)];
     records :=
       [{| p_name := nameA; p_status := "running";
           p_resources := [X]; p_waiting_for := Some Y |};
        {| p_name := nameB; p_status := "running";
           p_resources := [Y]; p_waiting_for := Some X |}];
     holder_lists := [[A]; [B]] |}.
Proof.
  intros HAB HXY.
  cbv [classic_deadlock run foldl step add_process allocate_resource
       set_waiting_for resources_getitem Dict.get Dict.set init
       processes resources records holder_lists fst snd].
  repeat (decide_step; cbv beta iota zeta). reflexivity.
Qed.


Lemma truthy_nonempty r : r ≠ "" → truthy (Some r) = Some r.
Proof. by destruct r. Qed.

Lemma add_node_new n g : n ∉ nodes g → add_node n g = g ++ [(n, [])].
Proof. intros H. unfold add_node. by rewrite decide_False. Qed.

Lemma add_node_old n g : n ∈ nodes g → add_node n g = g.
Proof. intros H. unfold add_node. by rewrite decide_True. Qed.

Lemma add_edge_old u v g :
  u ∈ nodes g → v ∈ nodes g → add_edge u v g = add_successor u v g.
Proof. intros Hu Hv. unfold add_edge. by rewrite (add_node_old u), (add_node_old v). Qed.

Ltac solve_node := unfold nodes, Dict.keys; simpl; solve_member.

(** The graph of the classic deadlock, over any four distinct node names. *)
Lemma classic_edges (a b x y : node) :
  a ≠ b → a ≠ x → a ≠ y → b ≠ x → b ≠ y → x ≠ y →
  add_edge x b (add_edge b y (add_edge y a (add_edge a x
    (add_node y (add_node x (add_node b (add_node a [])))))))
  = [(a, [x]); (b, [y]); (x, [b]); (y, [a])].
Proof.
  intros Hab Hax Hay Hbx Hby Hxy.
  rewrite (add_node_new a []) by solve_node. simpl app.
  rewrite (add_node_new b [(a, [])]) by solve_node. simpl app.
  rewrite (add_node_new x [(a, []); (b, [])]) by solve_node. simpl app.
  rewrite (add_node_new y [(a, []); (b, []); (x, [])]) by solve_node. simpl app.
  rewrite (add_edge_old a x) by solve_node.
  simpl add_successor. repeat (decide_step; simpl app).
  rewrite (add_edge_old y a) by solve_node.
  simpl add_successor. repeat (decide_step; simpl app).
  rewrite (add_edge_old b y) by solve_node.
  simpl add_successor. repeat (decide_step; simpl app).
  rewrite (add_edge_old x b) by solve_node.
  simpl add_successor. repeat (decide_step; simpl app).
  done.
Qed.

Lemma classic_deadlock_graph A B nameA nameB X Y :
  A ≠ B → X ≠ Y → X ≠ "" → Y ≠ "" →
  allocation_graph (classic_deadlock A B nameA nameB X Y) =
  [(process_node A, [resource_node X]); (process_node B, [resource_node Y]);
   (resource_node X, [process_node B]); (resource_node Y, [process_node A])].
Proof.
  intros HAB HXY HX HY. rewrite classic_deadlock_state by done.
  cbv [allocation_graph build_graph get_system_state snap_processes snap_resources
       processes resources records foldl add_process_edges fst snd
       lookup list_lookup p_resources p_waiting_for].
  rewrite !truthy_nonempty by done.
  apply classic_edges;
    first [ apply process_node_not_resource
          | by intros ?%process_node_inj
          | by intros ?%resource_node_inj ].
Qed.

(** C1 as stated fails when a resource has the empty name: process 1 holds
    [X] and waits for the resource named by the empty string, process 2 holds
    that resource and waits for [X], and the detector, whose truth test reads
    the empty wait target as "not waiting", returns no cycle and appends no
    record. *)
Lemma empty_name_deadlock_is_missed :
  detect_deadlocks "12:00" (classic_deadlock 1%Z 2%Z "first" "second" "X" "") []
    = (None, []) ∧
  ¬ ∃ c, (detect_deadlocks "12:00"
            (classic_deadlock 1%Z 2%Z "first" "second" "X" "") []).1 = Some [c].
Proof. split; [reflexivity|]. intros [c Hc]. vm_compute in Hc. discriminate Hc. Qed.

(** C1, amended.  In a store that holds exactly the classic deadlock (two
    distinct processes, two distinct resources with non-empty names, each
    process holding one resource and waiting for the other),
    [detect_deadlocks] returns exactly one cycle, of four nodes, whose nodes
    are the two processes and the two resources, and appends exactly one
    record, holding that cycle and the graph, to the detection history. *)
Theorem classic_deadlock_detected (A B : pid) (nameA nameB : string) (X Y : rid)
    (now : string) (h : list detection) :
  A ≠ B → X ≠ Y → X ≠ "" → Y ≠ "" →
  ∃ c,
    detect_deadlocks now (classic_deadlock A B nameA nameB X Y) h =
      (Some [c],
       h ++ [{| time := now; deadlocks := [c];
                graph := allocation_graph (classic_deadlock A B nameA nameB X Y) |}]) ∧
    length c = 4 ∧
    (∀ n, n ∈ c ↔ n ∈ [process_node A; process_node B; resource_node X; resource_node Y]).
Proof.
  intros HAB HXY HX HY.
  exists [process_node A; resource_node X; process_node B; resource_node Y].
  split; [|split; [done|]].
  - unfold detect_deadlocks, report.
    rewrite classic_deadlock_graph by done.
    rewrite four_cycle;
      first [ done
            | apply process_node_not_resource
            | by intros ?%process_node_inj
            | by intros ?%resource_node_inj ].
  - intros n. rewrite !elem_of_cons. tauto.
Qed.

Lemma classic_deadlock_detected_witness :
  ∃ c,
    detect_deadlocks "12:00" (classic_deadlock 1%Z 2%Z "first" "second" "X" "Y") [] =
      (Some [c],
       [] ++ [{| time := "12:00"; deadlocks := [c];
                 graph := allocation_graph (classic_deadlock 1%Z 2%Z "first" "second" "X" "Y") |}]) ∧
    length c = 4 ∧
    (∀ n, n ∈ c ↔ n ∈ [process_node 1%Z; process_node 2%Z; resource_node "X"; resource_node "Y"]).
Proof.
  apply (classic_deadlock_detected 1%Z 2%Z "first" "second" "X" "Y" "12:00" []); done.
Defined.

(** ** Each circuit is listed once *)

Lemma cycles_from_prefix g later root fuel path v c :
  c ∈ cycles_from g later root fuel path v → path `prefix_of` c.
Proof.
  revert path v. induction fuel as [|fuel IH]; intros path v Hc; simpl in Hc.
  - by apply elem_of_nil in Hc.
  - apply elem_of_app in Hc as [Hc|Hc].
    + destruct (decide (root ∈ successors g v)); [|by apply elem_of_nil in Hc].
      by apply list_elem_of_singleton in Hc as ->.
    + apply list_elem_of_bind in Hc as (w & Hc & _).
      destruct (decide (w ∈ later ∧ w ∉ path)); [|by apply elem_of_nil in Hc].
      apply IH in Hc. etrans; [|exact Hc]. by apply prefix_app_r.
Qed.

Lemma cycles_from_nodes g later root fuel path v c x :
  c ∈ cycles_from g later root fuel path v → x ∈ c → x ∈ path ∨ x ∈ later.
Proof.
  revert path v. induction fuel as [|fuel IH]; intros path v Hc Hx; simpl in Hc.
  - by apply elem_of_nil in Hc.
  - apply elem_of_app in Hc as [Hc|Hc].
    + destruct (decide (root ∈ successors g v)); [|by apply elem_of_nil in Hc].
      apply list_elem_of_singleton in Hc as ->. by left.
    + apply list_elem_of_bind in Hc as (w & Hc & _).
      destruct (decide (w ∈ later ∧ w ∉ path)) as [[Hw _]|];
        [|by apply elem_of_nil in Hc].
      destruct (IH _ _ Hc Hx) as [Hp|]; [|by right].
      apply elem_of_app in Hp as [ | ->%list_elem_of_singleton]; [by left | by right].
Qed.

Lemma cycles_from_NoDup g later root fuel path v :
  (∀ u, NoDup (successors g u)) →
  NoDup (cycles_from g later root fuel path v).
Proof.
  intros Hsucc. revert path v.
  induction fuel as [|fuel IH]; intros path v; simpl; [constructor|].
  apply NoDup_app. split; [|split].
  - destruct (decide (root ∈ successors g v)); [apply NoDup_singleton | constructor].
  - intros c Hc Hc'.
    destruct (decide (root ∈ successors g v)); [|by apply elem_of_nil in Hc].
    apply list_elem_of_singleton in Hc as ->.
    apply list_elem_of_bind in Hc' as (w & Hc' & _).
    destruct (decide (w ∈ later ∧ w ∉ path)); [|by apply elem_of_nil in Hc'].
    apply cycles_from_prefix, prefix_length in Hc'.
    rewrite length_app in Hc'. simpl in Hc'. lia.
  - apply NoDup_bind; [|intros w _|apply Hsucc].
    + intros w1 w2 c _ _ H1 H2.
      destruct (decide (w1 ∈ later ∧ w1 ∉ path)); [|by apply elem_of_nil in H1].
      destruct (decide (w2 ∈ later ∧ w2 ∉ path)); [|by apply elem_of_nil in H2].
      apply cycles_from_prefix in H1 as [k1 ->].
      apply cycles_from_prefix in H2 as [k2 H2].
      rewrite <- !app_assoc in H2. apply app_inv_head in H2. by injection H2.
    + destruct (decide (w ∈ later ∧ w ∉ path)); [apply IH | constructor].
Qed.

Lemma cycles_rooted_nodes g order c x :
  c ∈ cycles_rooted g order → x ∈ c → x ∈ order.
Proof.
  induction order as [|root later IH]; intros Hc Hx.
  - by apply elem_of_nil in Hc.
  - rewrite cycles_rooted_cons in Hc. apply elem_of_app in Hc as [Hc|Hc].
    + destruct (cycles_from_nodes _ _ _ _ _ _ _ _ Hc Hx)
        as [->%list_elem_of_singleton|]; [by left | by right].
    + right. by apply IH.
Qed.

Lemma cycles_rooted_NoDup g order :
  NoDup order → (∀ u, NoDup (successors g u)) → NoDup (cycles_rooted g order).
Proof.
  intros Horder Hsucc. induction Horder as [|root later Hroot _ IH]; [constructor|].
  rewrite cycles_rooted_cons. apply NoDup_app. split; [|split; [|exact IH]].
  - by apply cycles_from_NoDup.
  - intros c Hc Hc'. apply cycles_from_prefix in Hc as [k ->].
    apply Hroot. apply (cycles_rooted_nodes g later _ root Hc'). by left.
Qed.

Lemma rotation_same_head c c' :
  NoDup c → rotation c c' → head c = head c' → c = c'.
Proof.
  intros Hnd (l1 & l2 & -> & ->) Hhd.
  destruct l1 as [|a l1]; [by rewrite app_nil_r|].
  destruct l2 as [|b l2]; [by rewrite app_nil_r|].
  simpl in Hhd. injection Hhd as ->.
  apply NoDup_app in Hnd as (_ & Hdisj & _).
  destruct (Hdisj b); by left.
Qed.

Lemma cycles_rooted_rotation g order c c' :
  NoDup order →
  c ∈ cycles_rooted g order → c' ∈ cycles_rooted g order →
  rotation c c' → c = c'.
Proof.
  intros Horder. induction Horder as [|root later Hroot _ IH]; intros Hc Hc' Hrot.
  - by apply elem_of_nil in Hc.
  - rewrite cycles_rooted_cons in Hc, Hc'.
    apply elem_of_app in Hc as [Hc|Hc]; apply elem_of_app in Hc' as [Hc'|Hc'].
    + apply rotation_same_head; [|done|].
      * eapply (cycles_from_sound g later root _ [] root c); [done|done| |done].
        apply NoDup_singleton.
      * apply cycles_from_prefix in Hc as [k ->].
        by apply cycles_from_prefix in Hc' as [k' ->].
    + destruct Hroot. apply (cycles_rooted_nodes g later c' root Hc').
      apply (rotation_elem_of _ _ root Hrot).
      apply cycles_from_prefix in Hc as [k ->]. by left.
    + destruct Hroot. apply (cycles_rooted_nodes g later c root Hc).
      apply (rotation_elem_of _ _ root Hrot).
      apply cycles_from_prefix in Hc' as [k ->]. by left.
    + by apply IH.
Qed.

(** The enumerator meets the contract of [nx.simple_cycles]: what it lists
    are elementary circuits, every elementary circuit is listed from one of
    its nodes, and no circuit is listed twice. *)
Lemma simple_cycles_contract g :
  graph_wf g →
  (∀ c, c ∈ simple_cycles g → simple_cycle g c) ∧
  (∀ c, simple_cycle g c → ∃ c', rotation c c' ∧ c' ∈ simple_cycles g) ∧
  NoDup (simple_cycles g) ∧
  (∀ c c', c ∈ simple_cycles g → c' ∈ simple_cycles g → rotation c c' → c = c').
Proof.
  intros [Hnodes Hsucc]. split; [apply simple_cycles_sound|].
  split; [apply simple_cycles_complete|]. split.
  - by apply cycles_rooted_NoDup.
  - intros c c'. by apply cycles_rooted_rotation.
Qed.

(** ** Building the graph *)

Lemma get_app {K V} `{EqDecision K} (k : K) (d1 d2 : list (K * V)) :
  Dict.get k (d1 ++ d2) =
  match Dict.get k d1 with Some v => Some v | None => Dict.get k d2 end.
Proof.
  induction d1 as [|[k' v'] d1 IH]; simpl; [done|].
  by destruct (decide (k = k')).
Qed.

Lemma nodes_add_node n g m : m ∈ nodes (add_node n g) ↔ m = n ∨ m ∈ nodes g.
Proof.
  unfold add_node. destruct (decide (n ∈ nodes g)) as [Hn|Hn].
  - split; [by right | intros [->|]; done].
  - unfold nodes, Dict.keys. rewrite fmap_app, elem_of_app. simpl.
    rewrite list_elem_of_singleton. tauto.
Qed.

Lemma NoDup_nodes_add_node n g : NoDup (nodes g) → NoDup (nodes (add_node n g)).
Proof.
  intros Hg. unfold add_node. destruct (decide (n ∈ nodes g)) as [Hn|Hn]; [done|].
  unfold nodes, Dict.keys in *. rewrite fmap_app. simpl.
  apply NoDup_app. split; [done|]. split; [|apply NoDup_singleton].
  intros m Hm Hmn%list_elem_of_singleton. by subst.
Qed.

Lemma successors_add_node n g u : successors (add_node n g) u = successors g u.
Proof.
  unfold add_node. destruct (decide (n ∈ nodes g)) as [Hn|Hn]; [done|].
  unfold successors. rewrite get_app. destruct (Dict.get u g); [done|].
  simpl. by destruct (decide (u = n)).
Qed.

Lemma nodes_add_successor u v g : nodes (add_successor u v g) = nodes g.
Proof.
  unfold nodes, Dict.keys. induction g as [|[n s] g IH]; simpl; [done|].
  destruct (decide (u = n)); simpl; [done | by f_equal].
Qed.

Tactic Notation "destruct_and" "as" simple_intropattern(pat) :=
  match goal with
  | |- context [decide (?P ∧ ?Q)] => destruct (decide (P ∧ Q)) as pat
  end.

Lemma successors_add_successor u v g a :
  successors (add_successor u v g) a =
  if decide (a = u ∧ u ∈ nodes g) then set_add v (successors g u) else successors g a.
Proof.
  unfold successors, nodes, Dict.keys.
  induction g as [|[n s] g IH].
  - simpl. destruct_and as [[_ H]|]; [|done].
    by apply elem_of_nil in H.
  - rewrite fmap_cons. cbn [add_successor Dict.get fst].
    destruct (decide (u = n)) as [->|Hun]; cbn [Dict.get].
    + destruct (decide (a = n)) as [->|Han].
      * destruct_and as [_|Hno]; [reflexivity|].
        destruct Hno. split; [done | by left].
      * destruct_and as [[? _]|_]; done.
    + destruct (decide (a = n)) as [->|Han].
      * destruct_and as [[? _]|_]; [congruence|done].
      * rewrite IH.
        destruct (decide (a = u ∧ u ∈ g.*1)) as [[-> Hu]|Hno];
          destruct_and as [[Hau Hu']|Hno']; try done.
        -- destruct Hno'. split; [done | by right].
        -- destruct Hno. split; [done|].
           apply elem_of_cons in Hu' as [|]; done.
Qed.

Lemma nodes_add_edge u v g m :
  m ∈ nodes (add_edge u v g) ↔ m = u ∨ m = v ∨ m ∈ nodes g.
Proof.
  unfold add_edge. rewrite nodes_add_successor, !nodes_add_node. tauto.
Qed.

Lemma has_edge_add_edge u v g a b :
  has_edge (add_edge u v g) a b ↔ has_edge g a b ∨ (a = u ∧ b = v).
Proof.
  unfold has_edge, add_edge. rewrite successors_add_successor, !successors_add_node.
  destruct (decide (a = u ∧ u ∈ nodes (add_node v (add_node u g)))) as [[-> _]|Hno].
  - rewrite elem_of_set_add. split; [intros [->|]; auto | intros [|[_ ->]]; auto].
  - split; [by left|]. intros [|[-> ->]]; [done|].
    destruct Hno. split; [done|]. rewrite !nodes_add_node. auto.
Qed.

Lemma graph_wf_add_node n g : graph_wf g → graph_wf (add_node n g).
Proof.
  intros [Hn Hs]. split; [by apply NoDup_nodes_add_node|].
  intros u. by rewrite successors_add_node.
Qed.

Lemma graph_wf_add_edge u v g : graph_wf g → graph_wf (add_edge u v g).
Proof.
  intros Hg. unfold add_edge.
  destruct (graph_wf_add_node v _ (graph_wf_add_node u g Hg)) as [Hn Hs].
  split; [by rewrite nodes_add_successor|].
  intros a. rewrite successors_add_successor.
  destruct (decide _); [by apply NoDup_set_add | done].
Qed.

Lemma graph_wf_nil : graph_wf [].
Proof. split; [constructor | intros u; constructor]. Qed.

Lemma foldl_add_node_edges {A} (f : A → node) (items : list A) g a b :
  has_edge (foldl (fun g item => add_node (f item) g) g items) a b ↔ has_edge g a b.
Proof.
  revert g. induction items as [|item items IH]; intros g; simpl; [done|].
  rewrite IH. unfold has_edge. by rewrite successors_add_node.
Qed.

Lemma foldl_add_node_wf {A} (f : A → node) (items : list A) g :
  graph_wf g → graph_wf (foldl (fun g item => add_node (f item) g) g items).
Proof.
  revert g. induction items as [|item items IH]; intros g Hg; simpl; [done|].
  by apply IH, graph_wf_add_node.
Qed.

Lemma foldl_holds_edges p (rs : list rid) g a b :
  has_edge (foldl (fun g r => add_edge (process_node p) (resource_node r) g) g rs) a b
  ↔ has_edge g a b ∨ (a = process_node p ∧ ∃ r, r ∈ rs ∧ b = resource_node r).
Proof.
  revert g. induction rs as [|r rs IH]; intros g; simpl.
  - split; [by left|]. intros [|[_ (r & Hr & _)]]; [done|].
    by apply elem_of_nil in Hr.
  - rewrite IH, has_edge_add_edge. split.
    + intros [[|[-> ->]]|[-> (r' & Hr' & ->)]]; auto.
      * right. split; [done|]. exists r. split; [by left | done].
      * right. split; [done|]. exists r'. split; [by right | done].
    + intros [|[-> (r' & Hr' & ->)]]; [auto|].
      apply elem_of_cons in Hr' as [->|Hr']; [auto|].
      right. split; [done|]. by exists r'.
Qed.

Lemma foldl_holds_wf p (rs : list rid) g :
  graph_wf g →
  graph_wf (foldl (fun g r => add_edge (process_node p) (resource_node r) g) g rs).
Proof.
  revert g. induction rs as [|r rs IH]; intros g Hg; simpl; [done|].
  by apply IH, graph_wf_add_edge.
Qed.

(** The edges one process contributes. *)
Lemma add_process_edges_edges t g item a b :
  has_edge (add_process_edges t g item) a b ↔
  has_edge g a b ∨
  ∃ rec, records t !! item.2 = Some rec ∧
    ((a = process_node item.1 ∧ ∃ r, r ∈ p_resources rec ∧ b = resource_node r) ∨
     (∃ w, truthy (p_waiting_for rec) = Some w ∧
           a = resource_node w ∧ b = process_node item.1)).
Proof.
  unfold add_process_edges. destruct (records t !! item.2) as [rec|].
  - destruct (truthy (p_waiting_for rec)) as [w|] eqn:Hw.
    + rewrite has_edge_add_edge, foldl_holds_edges. split.
      * intros [[|H]|[-> ->]]; [by left| |].
        -- right. exists rec. split; [done|]. by left.
        -- right. exists rec. split; [done|]. right. by exists w.
      * intros [|(rec' & [= <-] & [H|(w' & Hw' & -> & ->)])]; auto.
        rewrite Hw in Hw'. injection Hw' as <-. auto.
    + rewrite foldl_holds_edges. split.
      * intros [|H]; [by left|]. right. exists rec. split; [done|]. by left.
      * intros [|(rec' & [= <-] & [H|(w' & Hw' & _)])]; auto.
        rewrite Hw in Hw'. done.
  - split; [by left|]. intros [|(rec & ? & _)]; done.
Qed.

Lemma add_process_edges_wf t g item : graph_wf g → graph_wf (add_process_edges t g item).
Proof.
  intros Hg. unfold add_process_edges. destruct (records t !! item.2) as [rec|]; [|done].
  destruct (truthy (p_waiting_for rec)).
  - by apply graph_wf_add_edge, foldl_holds_wf.
  - by apply foldl_holds_wf.
Qed.

Lemma foldl_add_process_edges t items g a b :
  has_edge (foldl (add_process_edges t) g items) a b ↔
  has_edge g a b ∨
  ∃ item rec, item ∈ items ∧ records t !! item.2 = Some rec ∧
    ((a = process_node item.1 ∧ ∃ r, r ∈ p_resources rec ∧ b = resource_node r) ∨
     (∃ w, truthy (p_waiting_for rec) = Some w ∧
           a = resource_node w ∧ b = process_node item.1)).
Proof.
  revert g. induction items as [|item items IH]; intros g; simpl.
  - split; [by left|]. intros [|(item & rec & Hin & _)]; [done|].
    by apply elem_of_nil in Hin.
  - rewrite IH, add_process_edges_edges. split.
    + intros [[|(rec & Hrec & H)]|(item' & rec & Hin & Hrec & H)]; [by left| |].
      * right. exists item, rec. split; [by left | done].
      * right. exists item', rec. split; [by right | done].
    + intros [|(item' & rec & Hin & Hrec & H)]; [auto|].
      apply elem_of_cons in Hin as [->|Hin].
      * left. right. by exists rec.
      * right. by exists item', rec.
Qed.

Lemma foldl_add_process_edges_wf t items g :
  graph_wf g → graph_wf (foldl (add_process_edges t) g items).
Proof.
  revert g. induction items as [|item items IH]; intros g Hg; simpl; [done|].
  by apply IH, add_process_edges_wf.
Qed.

(** The allocation graph has the holds edges and the waits edges of the
    store and no other edge. *)
Lemma allocation_graph_edges t a b :
  has_edge (allocation_graph t) a b ↔ holds_edge t a b ∨ waits_edge t a b.
Proof.
  unfold allocation_graph, build_graph, get_system_state. simpl.
  rewrite foldl_add_process_edges, !foldl_add_node_edges.
  unfold holds_edge, waits_edge. split.
  - intros [H|([p l] & rec & Hin & Hrec & [[-> (r & Hr & ->)]|(w & Hw & -> & ->)])].
    + by apply elem_of_nil in H.
    + left. by exists p, l, rec, r.
    + right. by exists p, l, rec, w.
  - intros [(p & l & rec & r & Hin & Hrec & Hr & -> & ->)
           |(p & l & rec & w & Hin & Hrec & Hw & -> & ->)];
      right; exists (p, l), rec; (split; [done|]); (split; [done|]).
    + left. split; [done|]. by exists r.
    + right. by exists w.
Qed.

Lemma allocation_graph_wf t : graph_wf (allocation_graph t).
Proof.
  unfold allocation_graph, build_graph.
  apply foldl_add_process_edges_wf, foldl_add_node_wf, foldl_add_node_wf, graph_wf_nil.
Qed.

(** The graph is bipartite: an edge joins a process node and a resource
    node. *)
Lemma allocation_graph_bipartite t a b :
  has_edge (allocation_graph t) a b →
  (∃ p r, a = process_node p ∧ b = resource_node r) ∨
  (∃ p r, a = resource_node r ∧ b = process_node p).
Proof.
  intros [(p & l & rec & r & _ & _ & _ & -> & ->)
         |(p & l & rec & w & _ & _ & _ & -> & ->)]%allocation_graph_edges.
  - left. by exists p, r.
  - right. by exists p, w.
Qed.

(** The detector tests [pdata['waiting_for']] for truth, so an empty
    resource name as wait target counts as "not waiting": with [Y] empty the
    two processes above are not reported. *)
Lemma empty_wait_target_is_ignored :
  detect_deadlocks "12:00" (classic_deadlock 1%Z 2%Z "first" "second" "X" "") []
  = (None, []).
Proof. reflexivity. Qed.

(** ** Dicts with distinct keys *)

Section DictKeys.
Context {K V : Type} `{EqDecision K}.
Implicit Types (k : K) (v : V) (d : list (K * V)).

Lemma get_Some_elem_of k v d : Dict.get k d = Some v → (k, v) ∈ d.
Proof.
  induction d as [|[k' v'] d IH]; simpl; [done|].
  destruct (decide (k = k')) as [->|]; [intros [= ->]; by left | right; auto].
Qed.

Lemma elem_of_get_Some k v d : NoDup d.*1 → (k, v) ∈ d → Dict.get k d = Some v.
Proof.
  induction d as [|[k' v'] d IH]; simpl; intros Hnd Hin; [by apply elem_of_nil in Hin|].
  apply NoDup_cons in Hnd as [Hk' Hnd].
  apply elem_of_cons in Hin as [[= -> ->]|Hin].
  - by rewrite decide_True.
  - rewrite decide_False; [auto|]. intros ->. apply Hk'.
    apply list_elem_of_fmap. by exists (k', v).
Qed.

Lemma keys_set k v d :
  (Dict.set k v d).*1 = if decide (k ∈ d.*1) then d.*1 else d.*1 ++ [k].
Proof.
  induction d as [|[k0 v0] d IH].
  - destruct (decide (k ∈ ([] : list (K * V)).*1)) as [H|]; [|done].
    by apply elem_of_nil in H.
  - rewrite fmap_cons. cbn [Dict.set fst].
    destruct (decide (k = k0)) as [->|Hne].
    + rewrite fmap_cons. cbn [fst].
      destruct (decide (k0 ∈ k0 :: d.*1)) as [|Hno]; [done|].
      destruct Hno. by left.
    + rewrite fmap_cons, IH. cbn [fst].
      destruct (decide (k ∈ d.*1)) as [Hin|Hnin];
        destruct (decide (k ∈ k0 :: d.*1)) as [Hin'|Hnin']; try done.
      * destruct Hnin'. by right.
      * by apply elem_of_cons in Hin' as [|].
Qed.

Lemma NoDup_keys_set k v d : NoDup d.*1 → NoDup (Dict.set k v d).*1.
Proof.
  intros Hnd. rewrite keys_set. destruct (decide (k ∈ d.*1)); [done|].
  apply NoDup_app. split; [done|]. split; [|apply NoDup_singleton].
  intros x Hx Hxk%list_elem_of_singleton. by subst.
Qed.

Lemma values_set k v d x :
  x ∈ (Dict.set k v d).*2 → x = v ∨ x ∈ d.*2.
Proof.
  induction d as [|[k0 v0] d IH]; simpl.
  - intros ->%list_elem_of_singleton. by left.
  - destruct (decide (k = k0)) as [->|Hne]; simpl.
    + intros [->|Hin]%elem_of_cons; [by left | right; by right].
    + intros [->|Hin]%elem_of_cons; [right; by left|].
      destruct (IH Hin) as [|]; [by left | right; by right].
Qed.

Lemma NoDup_values_set k v d :
  NoDup d.*2 → v ∉ d.*2 → NoDup (Dict.set k v d).*2.
Proof.
  induction d as [|[k0 v0] d IH]; simpl; intros Hnd Hv.
  - apply NoDup_singleton.
  - apply NoDup_cons in Hnd as [Hv0 Hnd]. apply not_elem_of_cons in Hv as [Hne Hv].
    destruct (decide (k = k0)) as [->|Hk]; simpl.
    + apply NoDup_cons. by split.
    + apply NoDup_cons. split; [|by apply IH].
      intros [->|Hin]%values_set; done.
Qed.

Lemma Forall_set (P : K * V → Prop) k v d :
  P (k, v) → Forall P d → Forall P (Dict.set k v d).
Proof.
  intros Hkv. induction 1 as [|[k0 v0] d H0 Hd IH]; simpl.
  - by repeat constructor.
  - destruct (decide (k = k0)); constructor; done.
Qed.

Lemma get_Some_values k v d : Dict.get k d = Some v → v ∈ d.*2.
Proof.
  intros H%get_Some_elem_of. apply list_elem_of_fmap. by exists (k, v).
Qed.

Lemma get_inj k1 k2 v d :
  NoDup d.*2 → Dict.get k1 d = Some v → Dict.get k2 d = Some v → k1 = k2.
Proof.
  induction d as [|[k0 v0] d IH]; simpl; [done|]. intros Hnd H1 H2.
  apply NoDup_cons in Hnd as [Hv0 Hnd].
  destruct (decide (k1 = k0)) as [->|]; destruct (decide (k2 = k0)) as [->|].
  - done.
  - injection H1 as <-. by apply get_Some_values in H2.
  - injection H2 as <-. by apply get_Some_values in H1.
  - by apply IH.
Qed.
End DictKeys.

(** ** Stores reached by the calls of the tracker *)

Lemma store_ok_init : store_ok init.
Proof. repeat split; constructor. Qed.

Lemma Forall_bound_grow {A B} (l : list (A * nat)) (h : list B) (x : B) :
  Forall (fun item => item.2 < length h) l →
  Forall (fun item => item.2 < length (h ++ [x])) l.
Proof.
  intros H. eapply Forall_impl; [exact H|].
  intros item Hlt. rewrite length_app. simpl in *. lia.
Qed.

Lemma bound_not_in_values {A} (l : list (A * nat)) n :
  Forall (fun item => item.2 < n) l → n ∉ l.*2.
Proof.
  intros Hall [item [-> Hin]]%list_elem_of_fmap.
  pose proof (proj1 (Forall_forall _ _) Hall item Hin). simpl in *. lia.
Qed.

Lemma store_ok_add_process p name t : store_ok t → store_ok (add_process p name t).
Proof.
  intros (Hpk & Hpv & Hpb & Hrk & Hrv & Hrb). unfold add_process.
  split; [by apply NoDup_keys_set|].
  split; [by apply NoDup_values_set, bound_not_in_values|].
  split; [|done]. simpl. apply Forall_set.
  - rewrite length_app. simpl. lia.
  - by apply Forall_bound_grow.
Qed.

Lemma store_ok_set_waiting_for p r t : store_ok t → store_ok (set_waiting_for p r t).2.
Proof.
  intros (Hpk & Hpv & Hpb & Hrk & Hrv & Hrb). unfold set_waiting_for.
  destruct (Dict.get p (processes t)); [|done].
  repeat split; try done. simpl. by rewrite length_alter.
Qed.

Lemma store_ok_allocate_resource p r t : store_ok t → store_ok (allocate_resource p r t).2.
Proof.
  intros (Hpk & Hpv & Hpb & Hrk & Hrv & Hrb). unfold allocate_resource.
  destruct (Dict.get p (processes t)); [|done]. unfold resources_getitem.
  destruct (Dict.get r (resources t)); simpl.
  - repeat split; try done; simpl; by rewrite length_alter.
  - split; [done|]. split; [done|]. split; [simpl; by rewrite length_alter|].
    split; [by apply NoDup_keys_set|].
    split; [by apply NoDup_values_set, bound_not_in_values|].
    simpl. rewrite length_alter. apply Forall_set.
    + rewrite length_app. simpl. lia.
    + by apply Forall_bound_grow.
Qed.

Lemma store_ok_step t o : store_ok t → store_ok (step t o).
Proof.
  intros Ht. destruct o; simpl.
  - by apply store_ok_add_process.
  - by apply store_ok_allocate_resource.
  - by apply store_ok_set_waiting_for.
  - repeat split; constructor.
Qed.

Lemma run_snoc ops o t : run (ops ++ [o]) t = step (run ops t) o.
Proof. unfold run. by rewrite foldl_app. Qed.

Lemma store_ok_run ops t : store_ok t → store_ok (run ops t).
Proof.
  revert t. induction ops as [|o ops IH]; intros t Ht; [done|].
  apply (IH (step t o)). by apply store_ok_step.
Qed.

Lemma store_ok_lookup_process t p (l : nat) :
  store_ok t → Dict.get p (processes t) = Some l → is_Some (records t !! l).
Proof.
  intros (_ & _ & Hpb & _) Hget%get_Some_elem_of.
  apply lookup_lt_is_Some. apply (proj1 (Forall_forall _ _) Hpb (p, l) Hget).
Qed.

Lemma store_ok_lookup_resource t r (l : nat) :
  store_ok t → Dict.get r (resources t) = Some l → is_Some (holder_lists t !! l).
Proof.
  intros (_ & _ & _ & _ & _ & Hrb) Hget%get_Some_elem_of.
  apply lookup_lt_is_Some. apply (proj1 (Forall_forall _ _) Hrb (r, l) Hget).
Qed.

(** *** What each call changes *)

Lemma process_of_Some t p (l : nat) :
  Dict.get p (processes t) = Some l → process_of t p = records t !! l.
Proof. intros H. unfold process_of. by rewrite H. Qed.

Lemma process_of_None t p :
  Dict.get p (processes t) = None → process_of t p = None.
Proof. intros H. unfold process_of. by rewrite H. Qed.

Lemma process_of_add_process_eq p name t :
  process_of (add_process p name t) p
  = Some {| p_name := name; p_status := "running";
            p_resources := []; p_waiting_for := None |}.
Proof.
  unfold process_of, add_process. simpl. rewrite get_set_eq. simpl.
  rewrite lookup_app_r by lia. by rewrite Nat.sub_diag.
Qed.

Lemma process_of_add_process_ne p q name t :
  store_ok t → q ≠ p → process_of (add_process p name t) q = process_of t q.
Proof.
  intros Ht Hne.
  destruct (Dict.get q (processes t)) as [l|] eqn:Hq.
  - rewrite (process_of_Some t q l Hq).
    rewrite (process_of_Some (add_process p name t) q l)
      by (simpl; by rewrite get_set_ne).
    destruct (store_ok_lookup_process t q l Ht Hq) as [rec Hrec].
    simpl. rewrite Hrec. by apply lookup_app_l_Some.
  - rewrite (process_of_None t q Hq).
    apply process_of_None. simpl. by rewrite get_set_ne.
Qed.

Lemma process_of_set_waiting_for_eq p r t rec :
  process_of t p = Some rec →
  process_of (set_waiting_for p r t).2 p = Some (assign_waiting_for r rec).
Proof.
  intros Hrec. destruct (Dict.get p (processes t)) as [l|] eqn:Hp;
    [|by rewrite process_of_None in Hrec].
  rewrite (process_of_Some t p l Hp) in Hrec.
  unfold set_waiting_for. rewrite Hp. cbn [snd].
  rewrite (process_of_Some _ p l) by done. cbn [records].
  by rewrite list_lookup_alter_eq, Hrec.
Qed.

Lemma process_of_set_waiting_for_ne p q r t :
  store_ok t → q ≠ p → process_of (set_waiting_for p r t).2 q = process_of t q.
Proof.
  intros Ht Hne. unfold set_waiting_for.
  destruct (Dict.get p (processes t)) as [l|] eqn:Hp; [|done]. cbn [snd].
  destruct (Dict.get q (processes t)) as [lq|] eqn:Hq.
  - rewrite (process_of_Some t q lq Hq), (process_of_Some _ q lq) by done.
    cbn [records]. apply list_lookup_alter_ne. intros ->.
    destruct Ht as (_ & Hpv & _). destruct Hne.
    by apply (get_inj q p lq (processes t)).
  - by rewrite (process_of_None t q Hq), process_of_None.
Qed.

Lemma allocate_resource_registered p r t l :
  Dict.get p (processes t) = Some l →
  ∃ lr t1,
    resources_getitem r t = (lr, t1) ∧
    processes t1 = processes t ∧ records t1 = records t ∧
    allocate_resource p r t =
      (true,
       {| processes := processes t; resources := resources t1;
          records := alter (append_resource r) l (records t);
          holder_lists := alter (fun h => h ++ [p]) lr (holder_lists t1) |}).
Proof.
  intros Hp. unfold allocate_resource. rewrite Hp.
  pose proof (resources_getitem_processes r t) as H1.
  pose proof (resources_getitem_records r t) as H2.
  destruct (resources_getitem r t) as [lr t1]. simpl in H1, H2.
  exists lr, t1. by rewrite H1, H2.
Qed.

Lemma process_of_allocate_resource_eq p r t rec :
  process_of t p = Some rec →
  process_of (allocate_resource p r t).2 p = Some (append_resource r rec).
Proof.
  intros Hrec. destruct (Dict.get p (processes t)) as [l|] eqn:Hp;
    [|by rewrite process_of_None in Hrec].
  rewrite (process_of_Some t p l Hp) in Hrec.
  destruct (allocate_resource_registered p r t l Hp) as (lr & t1 & _ & _ & _ & ->).
  cbn [snd]. rewrite (process_of_Some _ p l) by done. cbn [records].
  by rewrite list_lookup_alter_eq, Hrec.
Qed.

Lemma process_of_allocate_resource_ne p q r t :
  store_ok t → q ≠ p → process_of (allocate_resource p r t).2 q = process_of t q.
Proof.
  intros Ht Hne.
  destruct (Dict.get p (processes t)) as [l|] eqn:Hp;
    [|unfold allocate_resource; by rewrite Hp].
  destruct (allocate_resource_registered p r t l Hp) as (lr & t1 & _ & _ & _ & ->).
  cbn [snd]. destruct (Dict.get q (processes t)) as [lq|] eqn:Hq.
  - rewrite (process_of_Some t q lq Hq), (process_of_Some _ q lq) by done.
    cbn [records]. apply list_lookup_alter_ne. intros ->.
    destruct Ht as (_ & Hpv & _). destruct Hne.
    by apply (get_inj q p lq (processes t)).
  - by rewrite (process_of_None t q Hq), process_of_None.
Qed.

Lemma holders_Some t r (l : nat) :
  Dict.get r (resources t) = Some l → holders t r = default [] (holder_lists t !! l).
Proof. intros H. unfold holders. by rewrite H. Qed.

Lemma holders_allocate_resource_eq p r t :
  store_ok t → is_Some (Dict.get p (processes t)) →
  holders (allocate_resource p r t).2 r = holders t r ++ [p].
Proof.
  intros Ht [l Hp]. unfold allocate_resource. rewrite Hp.
  unfold resources_getitem.
  destruct (Dict.get r (resources t)) as [lr|] eqn:Hr; cbn [snd].
  - rewrite (holders_Some t r lr Hr), (holders_Some _ r lr) by done.
    cbn [holder_lists]. rewrite list_lookup_alter_eq.
    destruct (store_ok_lookup_resource t r lr Ht Hr) as [h Hh]. by rewrite Hh.
  - rewrite (holders_unknown t r Hr).
    rewrite (holders_Some _ r (length (holder_lists t)))
      by (cbn [resources]; apply get_set_eq).
    cbn [holder_lists]. rewrite list_lookup_alter_eq.
    rewrite lookup_app_r by lia. by rewrite Nat.sub_diag.
Qed.

Lemma holders_allocate_resource_ne p r r' t :
  store_ok t → r' ≠ r → holders (allocate_resource p r t).2 r' = holders t r'.
Proof.
  intros Ht Hne. unfold allocate_resource.
  destruct (Dict.get p (processes t)) as [l|] eqn:Hp; [|done].
  unfold resources_getitem.
  destruct (Dict.get r (resources t)) as [lr|] eqn:Hr; cbn [snd].
  - destruct (Dict.get r' (resources t)) as [lr'|] eqn:Hr'.
    + rewrite (holders_Some t r' lr' Hr'), (holders_Some _ r' lr') by done.
      cbn [holder_lists]. rewrite list_lookup_alter_ne; [done|]. intros ->.
      destruct Ht as (_ & _ & _ & _ & Hrv & _).
      destruct Hne. by apply (get_inj r' r lr' (resources t)).
    + by rewrite (holders_unknown t r' Hr'), holders_unknown.
  - destruct (Dict.get r' (resources t)) as [lr'|] eqn:Hr'.
    + rewrite (holders_Some t r' lr' Hr').
      rewrite (holders_Some _ r' lr') by (cbn [resources]; by rewrite get_set_ne).
      cbn [holder_lists].
      destruct (store_ok_lookup_resource t r' lr' Ht Hr') as [h Hh].
      pose proof (lookup_lt_Some _ _ _ Hh) as Hlt.
      rewrite list_lookup_alter_ne by lia.
      rewrite Hh. f_equal. by apply lookup_app_l_Some.
    + rewrite (holders_unknown t r' Hr'). apply holders_unknown.
      cbn [resources]. by rewrite get_set_ne.
Qed.

Lemma registered_process_of t p :
  store_ok t → is_Some (Dict.get p (processes t)) → is_Some (process_of t p).
Proof.
  intros Ht [l Hl]. rewrite (process_of_Some t p l Hl).
  by apply (store_ok_lookup_process t p l).
Qed.

Lemma process_of_registered t p rec :
  process_of t p = Some rec → is_Some (Dict.get p (processes t)).
Proof.
  unfold process_of. destruct (Dict.get p (processes t)); [eauto | done].
Qed.

(** X1. [add_process] is "last write wins": after it, the id is bound to a
    fresh record (status running, nothing held, waiting for nothing),
    whatever was registered under it before; the records of the other ids
    and the holders of every resource are what they were. *)
Theorem add_process_overwrites (ops : list op) (p : pid) (name : string) :
  process_of (add_process p name (run ops init)) p
    = Some {| p_name := name; p_status := "running";
              p_resources := []; p_waiting_for := None |} ∧
  (∀ q, q ≠ p →
        process_of (add_process p name (run ops init)) q = process_of (run ops init) q) ∧
  (∀ r, holders (add_process p name (run ops init)) r = holders (run ops init) r).
Proof.
  split; [apply process_of_add_process_eq|]. split; [|done].
  intros q Hq. apply process_of_add_process_ne; [|done].
  apply store_ok_run, store_ok_init.
Qed.

(** X2. On a registered id, [set_waiting_for] returns [True] and replaces
    the wait target, whatever it was; the name, status and held list of the
    process, the records of the other processes and the holders of every
    resource are unchanged. *)
Theorem set_waiting_for_replaces (ops : list op) (p : pid) (r : rid)
    (rec : process_record) :
  process_of (run ops init) p = Some rec →
  (set_waiting_for p r (run ops init)).1 = true ∧
  process_of (set_waiting_for p r (run ops init)).2 p
    = Some {| p_name := p_name rec; p_status := p_status rec;
              p_resources := p_resources rec; p_waiting_for := Some r |} ∧
  (∀ q, q ≠ p →
        process_of (set_waiting_for p r (run ops init)).2 q
        = process_of (run ops init) q) ∧
  (∀ r', holders (set_waiting_for p r (run ops init)).2 r' = holders (run ops init) r').
Proof.
  intros Hrec. pose proof (store_ok_run ops init store_ok_init) as Hok.
  destruct (process_of_registered _ _ _ Hrec) as [l Hl].
  split; [unfold set_waiting_for; by rewrite Hl|].
  split; [by apply process_of_set_waiting_for_eq|].
  split; [intros q Hq; by apply process_of_set_waiting_for_ne|].
  intros r'. unfold set_waiting_for. by rewrite Hl.
Qed.

Lemma set_waiting_for_replaces_witness :
  (set_waiting_for 1%Z "Z" classic).1 = true ∧
  process_of (set_waiting_for 1%Z "Z" classic).2 1%Z
    = Some {| p_name := "first"; p_status := "running";
              p_resources := ["X"]; p_waiting_for := Some "Z" |} ∧
  (∀ q, q ≠ 1%Z →
        process_of (set_waiting_for 1%Z "Z" classic).2 q = process_of classic q) ∧
  (∀ r', holders (set_waiting_for 1%Z "Z" classic).2 r' = holders classic r').
Proof.
  apply (set_waiting_for_replaces
           [AddProcess 1%Z "first"; AddProcess 2%Z "second";
            AllocateResource 1%Z "X"; AllocateResource 2%Z "Y";
            SetWaitingFor 1%Z "Y"; SetWaitingFor 2%Z "X"] 1%Z "Z"
           {| p_name := "first"; p_status := "running";
              p_resources := ["X"]; p_waiting_for := Some "Y" |}).
  reflexivity.
Defined.

(** X3. On a registered id, [allocate_resource] appends the resource at the
    end of the held list of that process and the process at the end of the
    holders of that resource, whoever holds the resource already; nothing
    else changes: not the wait target, not another process, not the holders
    of another resource. *)
Theorem allocate_resource_effect (ops : list op) (p : pid) (r : rid)
    (rec : process_record) :
  process_of (run ops init) p = Some rec →
  process_of (allocate_resource p r (run ops init)).2 p
    = Some {| p_name := p_name rec; p_status := p_status rec;
              p_resources := p_resources rec ++ [r];
              p_waiting_for := p_waiting_for rec |} ∧
  holders (allocate_resource p r (run ops init)).2 r = holders (run ops init) r ++ [p] ∧
  (∀ q, q ≠ p →
        process_of (allocate_resource p r (run ops init)).2 q
        = process_of (run ops init) q) ∧
  (∀ r', r' ≠ r →
         holders (allocate_resource p r (run ops init)).2 r' = holders (run ops init) r').
Proof.
  intros Hrec. pose proof (store_ok_run ops init store_ok_init) as Hok.
  pose proof (process_of_registered _ _ _ Hrec) as Hreg.
  split; [by apply process_of_allocate_resource_eq|].
  split; [by apply holders_allocate_resource_eq|].
  split; [intros q Hq; by apply process_of_allocate_resource_ne|].
  intros r' Hr'. by apply holders_allocate_resource_ne.
Qed.

Lemma allocate_resource_effect_witness :
  process_of (allocate_resource 2%Z "X" classic).2 2%Z
    = Some {| p_name := "second"; p_status := "running";
              p_resources := ["Y"; "X"]; p_waiting_for := Some "X" |} ∧
  holders (allocate_resource 2%Z "X" classic).2 "X" = holders classic "X" ++ [2%Z] ∧
  (∀ q, q ≠ 2%Z →
        process_of (allocate_resource 2%Z "X" classic).2 q = process_of classic q) ∧
  (∀ r', r' ≠ "X" →
         holders (allocate_resource 2%Z "X" classic).2 r' = holders classic r').
Proof.
  apply (allocate_resource_effect
           [AddProcess 1%Z "first"; AddProcess 2%Z "second";
            AllocateResource 1%Z "X"; AllocateResource 2%Z "Y";
            SetWaitingFor 1%Z "Y"; SetWaitingFor 2%Z "X"] 2%Z "X"
           {| p_name := "second"; p_status := "running";
              p_resources := ["Y"]; p_waiting_for := Some "X" |}).
  reflexivity.
Defined.

Lemma held_process_of t p rec : process_of t p = Some rec → held t p = p_resources rec.
Proof. intros H. unfold held. by rewrite H. Qed.

Lemma held_unregistered t p : process_of t p = None → held t p = [].
Proof. intros H. unfold held. by rewrite H. Qed.

Lemma occurrences_snoc_ne {A} `{EqDecision A} (x y : A) (l : list A) :
  x ≠ y → occurrences x (l ++ [y]) = occurrences x l.
Proof.
  intros Hne. unfold occurrences. rewrite filter_app, length_app.
  rewrite filter_cons_False by done. simpl. lia.
Qed.

Lemma held_indexed_step t o :
  store_ok t →
  (∀ p r, occurrences r (held t p) ≤ occurrences p (holders t r)) →
  ∀ p r, occurrences r (held (step t o) p) ≤ occurrences p (holders (step t o) r).
Proof.
  intros Hok Hinv p r. destruct o as [q name|q r0|q r0|]; simpl.
  - destruct (decide (p = q)) as [->|Hne].
    + rewrite (held_process_of _ _ _ (process_of_add_process_eq q name t)).
      unfold occurrences. simpl. lia.
    + unfold held at 1. rewrite process_of_add_process_ne by done. apply Hinv.
  - destruct (Dict.get q (processes t)) as [l|] eqn:Hq.
    + destruct (registered_process_of t q Hok) as [rec Hrec]; [eauto|].
      pose proof (process_of_allocate_resource_eq q r0 t rec Hrec) as Hq'.
      pose proof (Hinv p r) as Hpr.
      destruct (decide (r = r0)) as [->|Hr].
      * rewrite holders_allocate_resource_eq by eauto.
        destruct (decide (p = q)) as [->|Hp].
        -- rewrite (held_process_of _ _ _ Hq'). simpl.
           rewrite !occurrences_snoc_eq.
           rewrite (held_process_of _ _ _ Hrec) in Hpr. lia.
        -- unfold held at 1. rewrite process_of_allocate_resource_ne by done.
           rewrite occurrences_snoc_ne by done. apply Hpr.
      * rewrite holders_allocate_resource_ne by done.
        destruct (decide (p = q)) as [->|Hp].
        -- rewrite (held_process_of _ _ _ Hq'). simpl.
           rewrite occurrences_snoc_ne by done.
           rewrite (held_process_of _ _ _ Hrec) in Hpr. lia.
        -- unfold held at 1. rewrite process_of_allocate_resource_ne by done.
           apply Hpr.
    + unfold allocate_resource. rewrite Hq. apply Hinv.
  - assert (∀ r', holders (set_waiting_for q r0 t).2 r' = holders t r') as Hh.
    { intros r'. unfold set_waiting_for. by destruct (Dict.get q (processes t)). }
    rewrite Hh. destruct (decide (p = q)) as [->|Hne].
    + destruct (process_of t q) as [rec|] eqn:Hrec.
      * rewrite (held_process_of _ _ _ (process_of_set_waiting_for_eq q r0 t rec Hrec)).
        simpl. rewrite <- (held_process_of _ _ _ Hrec). apply Hinv.
      * assert (set_waiting_for q r0 t = (false, t)) as ->; [|apply Hinv].
        unfold set_waiting_for.
        destruct (Dict.get q (processes t)) as [l|] eqn:Hq; [|done].
        destruct (registered_process_of t q Hok) as [rec Hrec']; [eauto|].
        congruence.
    + unfold held at 1. rewrite process_of_set_waiting_for_ne by done. apply Hinv.
  - unfold occurrences. simpl. lia.
Qed.

(** X4. The half of the index invariant that the code does keep: in every
    store reached by calls of the tracker, a resource occurs in the held list
    of a process at most as often as the process occurs among the holders of
    the resource.  So whoever holds a resource is listed as its holder. *)
Theorem held_resources_are_indexed (ops : list op) (p : pid) (r : rid) :
  occurrences r (held (run ops init) p) ≤ occurrences p (holders (run ops init) r) ∧
  (r ∈ held (run ops init) p → p ∈ holders (run ops init) r).
Proof.
  assert (∀ p r, occurrences r (held (run ops init) p)
                 ≤ occurrences p (holders (run ops init) r)) as Hinv.
  { induction ops as [|o ops IH] using rev_ind; [intros; reflexivity|].
    rewrite run_snoc. apply held_indexed_step; [|done].
    apply store_ok_run, store_ok_init. }
  split; [apply Hinv|]. intros Hin.
  assert (0 < occurrences r (held (run ops init) p)) as Hpos.
  { unfold occurrences. destruct (filter (r =.) (held (run ops init) p)) eqn:Hf;
      [|simpl; lia].
    exfalso. eapply (filter_nil_not_elem_of _ _ r Hf); done. }
  pose proof (Hinv p r) as Hle.
  unfold occurrences in Hle, Hpos.
  destruct (filter (p =.) (holders (run ops init) r)) as [|x l] eqn:Hf;
    [simpl in *; lia|].
  assert (x ∈ filter (p =.) (holders (run ops init) r)) as Hx
    by (rewrite Hf; by left).
  apply list_elem_of_filter in Hx as [-> Hx]. done.
Qed.

Lemma held_resources_are_indexed_witness :
  occurrences "X" (held reregistered 1%Z) ≤ occurrences 1%Z (holders reregistered "X") ∧
  ("X" ∈ held reregistered 1%Z → 1%Z ∈ holders reregistered "X").
Proof.
  apply (held_resources_are_indexed
           [AddProcess 1%Z "worker"; AllocateResource 1%Z "X"; AddProcess 1%Z "worker"]
           1%Z "X").
Defined.

Lemma step_registered p t o :
  o ≠ ClearSystem →
  is_Some (Dict.get p (processes t)) → is_Some (Dict.get p (processes (step t o))).
Proof.
  intros Ho Hp. destruct o as [q name|q r|q r|]; simpl; [| | |done].
  - destruct (decide (q = p)) as [->|Hne].
    + rewrite get_set_eq. eauto.
    + by rewrite get_set_ne.
  - by rewrite allocate_resource_processes.
  - by rewrite set_waiting_for_processes.
Qed.

(** X5. Only [clear_system] removes a process: once registered, an id stays
    registered through any calls that do not clear the store, so
    [allocate_resource] and [set_waiting_for] on it keep returning [True]. *)
Theorem registration_persists (ops : list op) (t : Tracker) (p : pid) (r : rid) :
  ClearSystem ∉ ops →
  is_Some (Dict.get p (processes t)) →
  is_Some (Dict.get p (processes (run ops t))) ∧
  (allocate_resource p r (run ops t)).1 = true ∧
  (set_waiting_for p r (run ops t)).1 = true.
Proof.
  intros Hops Hp.
  assert (is_Some (Dict.get p (processes (run ops t)))) as [l Hl].
  { revert t Hp. induction ops as [|o ops IH]; intros t Hp; [done|].
    apply (IH ltac:(intros Hin; apply Hops; by right) (step t o)).
    apply step_registered; [|done]. intros ->. apply Hops. by left. }
  split; [eauto|]. split.
  - destruct (allocate_resource_registered p r _ l Hl) as (? & ? & _ & _ & _ & ->).
    done.
  - unfold set_waiting_for. by rewrite Hl.
Qed.

Lemma registration_persists_witness :
  is_Some (Dict.get 1%Z (processes
     (run [AddProcess 1%Z "again"; SetWaitingFor 1%Z "X"; AddProcess 2%Z "other"] one_holder))) ∧
  (allocate_resource 1%Z "Y"
     (run [AddProcess 1%Z "again"; SetWaitingFor 1%Z "X"; AddProcess 2%Z "other"] one_holder)).1
    = true ∧
  (set_waiting_for 1%Z "Y"
     (run [AddProcess 1%Z "again"; SetWaitingFor 1%Z "X"; AddProcess 2%Z "other"] one_holder)).1
    = true.
Proof.
  apply (registration_persists
           [AddProcess 1%Z "again"; SetWaitingFor 1%Z "X"; AddProcess 2%Z "other"]
           one_holder 1%Z "Y").
  - intros Hin. apply list_elem_of_In in Hin. simpl in Hin.
    destruct Hin as [H|[H|[H|[]]]]; discriminate H.
  - vm_compute. eauto.
Defined.

(** X6. [clear_system] forgets every registration: an id that was
    registered before the clear is rejected by [allocate_resource] and
    [set_waiting_for], with the store left untouched, until [add_process] is
    called for it again. *)
Theorem clear_system_forgets (t : Tracker) (ops : list op) (p : pid) (r : rid) :
  (∀ name, AddProcess p name ∉ ops) →
  allocate_resource p r (run ops (clear_system t)) = (false, run ops (clear_system t)) ∧
  set_waiting_for p r (run ops (clear_system t)) = (false, run ops (clear_system t)).
Proof.
  intros Hops.
  assert (Dict.get p (processes (run ops (clear_system t))) = None) as Hp
    by (by apply run_unregistered).
  unfold allocate_resource, set_waiting_for. by rewrite Hp.
Qed.

Lemma clear_system_forgets_witness :
  allocate_resource 1%Z "X" (run [AddProcess 2%Z "other"] (clear_system classic))
    = (false, run [AddProcess 2%Z "other"] (clear_system classic)) ∧
  set_waiting_for 1%Z "X" (run [AddProcess 2%Z "other"] (clear_system classic))
    = (false, run [AddProcess 2%Z "other"] (clear_system classic)).
Proof.
  apply (clear_system_forgets classic [AddProcess 2%Z "other"] 1%Z "X").
  intros name Hin. apply list_elem_of_In in Hin. simpl in Hin.
  destruct Hin as [H|[]]; discriminate H.
Defined.

(** ** More on the detector *)

Lemma is_path_has_predecessor g x l u :
  is_path g (x :: l) → u ∈ l → ∃ a, a ∈ x :: l ∧ has_edge g a u.
Proof.
  revert x. induction l as [|y l IH]; intros x Hp Hu; [by apply elem_of_nil in Hu|].
  destruct Hp as [Hxy Hp]. apply elem_of_cons in Hu as [->|Hu].
  - exists x. split; [by left | done].
  - destruct (IH y Hp Hu) as (a & Ha & Hau). exists a. split; [by right | done].
Qed.

Lemma closed_walk_has_predecessor g w u :
  closed_walk g w → u ∈ w → ∃ a, a ∈ w ∧ has_edge g a u.
Proof.
  intros [Hne Hp] Hu. destruct w as [|x w]; [done|].
  change (take 1 (x :: w)) with [x] in Hp.
  change ((x :: w) ++ [x]) with (x :: (w ++ [x])) in Hp.
  destruct (is_path_has_predecessor g x (w ++ [x]) u Hp) as (a & Ha & Hau).
  - apply elem_of_app. apply elem_of_cons in Hu as [->|Hu]; [right; by left | by left].
  - exists a. split; [|done].
    apply elem_of_cons in Ha as [->|Ha]; [by left|].
    apply elem_of_app in Ha as [Ha|Ha%list_elem_of_singleton]; [by right | subst; by left].
Qed.

Lemma waiting_for_elem_of t p l rec :
  store_ok t → (p, l) ∈ processes t → records t !! l = Some rec →
  waiting_for t p = p_waiting_for rec.
Proof.
  intros (Hpk & _) Hin Hrec. apply (elem_of_get_Some p l _ Hpk) in Hin.
  unfold waiting_for. rewrite (process_of_Some t p l Hin).
  transitivity (Some rec ≫= p_waiting_for); [f_equal; exact Hrec | done].
Qed.

(** X7. A process that waits for nothing (or whose wait target is the empty
    name) is in no cycle that [detect_deadlocks] returns, however many
    resources it holds and whoever waits for them. *)
Theorem idle_process_is_never_reported (now : string) (ops : list op)
    (h : list detection) (p : pid) (ds : list (list node)) (c : list node) :
  truthy (waiting_for (run ops init) p) = None →
  (detect_deadlocks now (run ops init) h).1 = Some ds →
  c ∈ ds →
  process_node p ∉ c.
Proof.
  intros Hidle Hds Hc Hin.
  pose proof (store_ok_run ops init store_ok_init) as Hok.
  destruct (report_sound _ _ _ _ _ Hds Hc) as [[Hw _] _].
  destruct (closed_walk_has_predecessor _ _ _ Hw Hin) as (a & _ & Hedge).
  apply allocation_graph_edges in Hedge
    as [(q & l & rec & r & _ & _ & _ & _ & Heq)|(q & l & rec & w & Hq & Hrec & Hw' & _ & Heq)].
  - by destruct (process_node_not_resource p r).
  - apply process_node_inj in Heq as ->.
    rewrite (waiting_for_elem_of _ _ _ _ Hok Hq Hrec) in Hidle. congruence.
Qed.

Lemma idle_process_is_never_reported_witness :
  process_node 5%Z ∉ ["P1"; "RX"; "P2"; "RY"].
Proof.
  apply (idle_process_is_never_reported "12:00"
           [AddProcess 1%Z "first"; AddProcess 2%Z "second";
            AllocateResource 1%Z "X"; AllocateResource 2%Z "Y";
            SetWaitingFor 1%Z "Y"; SetWaitingFor 2%Z "X";
            AddProcess 5%Z "idle"; AllocateResource 5%Z "X"; AllocateResource 5%Z "Y"]
           [] 5%Z [["P1"; "RX"; "P2"; "RY"]]).
  - reflexivity.
  - reflexivity.
  - by left.
Defined.

(** *** Bipartite graphs *)

Lemma bipartite_nil : bipartite [].
Proof. intros a b H. by apply elem_of_nil in H. Qed.

Lemma bipartite_add_node n g : bipartite g → bipartite (add_node n g).
Proof.
  intros Hg a b. unfold has_edge. rewrite successors_add_node. apply Hg.
Qed.

Lemma bipartite_add_edge_holds p r g :
  bipartite g → bipartite (add_edge (process_node p) (resource_node r) g).
Proof.
  intros Hg a b [H|[-> ->]]%has_edge_add_edge; [by apply Hg|].
  left. split; [by exists p | by exists r].
Qed.

Lemma bipartite_add_edge_waits p r g :
  bipartite g → bipartite (add_edge (resource_node r) (process_node p) g).
Proof.
  intros Hg a b [H|[-> ->]]%has_edge_add_edge; [by apply Hg|].
  right. split; [by exists r | by exists p].
Qed.

Lemma bipartite_foldl {A} (f : DiGraph → A → DiGraph) (items : list A) g :
  (∀ g x, bipartite g → bipartite (f g x)) → bipartite g → bipartite (foldl f g items).
Proof.
  intros Hf. revert g. induction items as [|x items IH]; intros g Hg; [done|].
  simpl. by apply IH, Hf.
Qed.

Lemma allocation_graph_is_bipartite t : bipartite (allocation_graph t).
Proof.
  intros a b [(p & r & -> & ->)|(p & r & -> & ->)]%allocation_graph_bipartite.
  - left. split; [by exists p | by exists r].
  - right. split; [by exists r | by exists p].
Qed.

Lemma monitor_graph_is_bipartite t s : bipartite (Monitor.build_graph t s).
Proof.
  unfold Monitor.build_graph.
  apply bipartite_foldl.
  { intros g [r l] Hg. unfold Monitor.add_holder_edges. simpl.
    destruct (holder_lists t !! l) as [pids|]; [|done].
    apply bipartite_foldl; [|done]. intros g' p. apply bipartite_add_edge_waits. }
  apply bipartite_foldl.
  { intros g [p l] Hg. unfold Monitor.add_holds_edges. simpl.
    destruct (records t !! l) as [rec|]; [|done].
    apply bipartite_foldl; [|done]. intros g' r. apply bipartite_add_edge_holds. }
  apply bipartite_foldl; [intros g x; apply bipartite_add_node|].
  apply bipartite_foldl; [intros g x; apply bipartite_add_node|].
  apply bipartite_nil.
Qed.

Lemma process_is_not_resource n : is_process_node n → is_resource_node n → False.
Proof. intros [p ->] [r Hr]. by destruct (process_node_not_resource p r). Qed.

Lemma long_cycle_two_of_each g c :
  bipartite g → simple_cycle g c → 4 ≤ length c →
  ∃ p1 p2 r1 r2,
    p1 ≠ p2 ∧ r1 ≠ r2 ∧
    process_node p1 ∈ c ∧ process_node p2 ∈ c ∧
    resource_node r1 ∈ c ∧ resource_node r2 ∈ c.
Proof.
  intros Hg [[_ Hp] Hnd] Hlen.
  destruct c as [|x0 [|x1 [|x2 [|x3 c]]]]; simpl in Hlen; try lia.
  destruct Hp as (H01 & H12 & H23 & _).
  apply NoDup_cons in Hnd as [Hx0 Hnd]. apply NoDup_cons in Hnd as [Hx1 _].
  assert (x0 ≠ x2) as H02 by (intros ->; apply Hx0; right; by left).
  assert (x1 ≠ x3) as H13 by (intros ->; apply Hx1; right; by left).
  apply Hg in H01, H12, H23.
  destruct H01 as [[[p0 ->] [r1 ->]]|[[r0 ->] [p1 ->]]].
  - destruct H12 as [[Hbad _]|[_ [p2 ->]]].
    { destruct (process_is_not_resource _ Hbad). by exists r1. }
    destruct H23 as [[_ [r3 ->]]|[Hbad _]].
    2:{ destruct (process_is_not_resource (process_node p2)); [by exists p2 | done]. }
    exists p0, p2, r1, r3. split; [congruence|]. split; [congruence|].
    rewrite !elem_of_cons. tauto.
  - destruct H12 as [[_ [r2 ->]]|[Hbad _]].
    2:{ destruct (process_is_not_resource (process_node p1)); [by exists p1 | done]. }
    destruct H23 as [[Hbad _]|[_ [p3 ->]]].
    { destruct (process_is_not_resource _ Hbad). by exists r2. }
    exists p1, p3, r0, r2. split; [congruence|]. split; [congruence|].
    rewrite !elem_of_cons. tauto.
Qed.

(** X8. What the comment in the filter says ("at least two processes and two
    resources for a deadlock") holds of every cycle either detector returns:
    it goes through two different processes and two different resources. *)
Theorem reported_cycle_has_two_of_each (now : string) (t : Tracker)
    (h : list detection) (ds : list (list node)) (c : list node) :
  (detect_deadlocks now t h).1 = Some ds ∨ (Monitor.detect_deadlocks now t h).1 = Some ds →
  c ∈ ds →
  ∃ p1 p2 r1 r2,
    p1 ≠ p2 ∧ r1 ≠ r2 ∧
    process_node p1 ∈ c ∧ process_node p2 ∈ c ∧
    resource_node r1 ∈ c ∧ resource_node r2 ∈ c.
Proof.
  intros [Hds|Hds] Hc; destruct (report_sound _ _ _ _ _ Hds Hc) as [Hcyc Hlen].
  - apply (long_cycle_two_of_each (allocation_graph t)); [|done|done].
    apply allocation_graph_is_bipartite.
  - apply (long_cycle_two_of_each (Monitor.build_graph t (get_system_state t)));
      [|done|done].
    apply monitor_graph_is_bipartite.
Qed.

Lemma reported_cycle_has_two_of_each_witness :
  ∃ p1 p2 r1 r2,
    p1 ≠ p2 ∧ r1 ≠ r2 ∧
    process_node p1 ∈ ["P1"; "RX"; "P2"; "RY"] ∧ process_node p2 ∈ ["P1"; "RX"; "P2"; "RY"] ∧
    resource_node r1 ∈ ["P1"; "RX"; "P2"; "RY"] ∧ resource_node r2 ∈ ["P1"; "RX"; "P2"; "RY"].
Proof.
  apply (reported_cycle_has_two_of_each "12:00" classic [] [["P1"; "RX"; "P2"; "RY"]]).
  - left. reflexivity.
  - by left.
Defined.

Lemma is_path_ext g g' l :
  (∀ a b, has_edge g a b ↔ has_edge g' a b) → is_path g l → is_path g' l.
Proof.
  intros Hgg'. induction l as [|u l IH]; [done|].
  destruct l as [|v l]; [done|]. intros [Huv Hp]. split; [by apply Hgg' | by apply IH].
Qed.

Lemma simple_cycle_ext g g' c :
  (∀ a b, has_edge g a b ↔ has_edge g' a b) → simple_cycle g c → simple_cycle g' c.
Proof.
  intros Hgg' [[Hne Hp] Hnd]. split; [split; [done|]|done].
  by apply (is_path_ext g g').
Qed.

Lemma allocation_graph_edges_ext t t' a b :
  processes t = processes t' → records t = records t' →
  has_edge (allocation_graph t) a b ↔ has_edge (allocation_graph t') a b.
Proof.
  intros Hp Hr. rewrite !allocation_graph_edges.
  unfold holds_edge, waits_edge. by rewrite Hp, Hr.
Qed.

(** X9. The detector of [deadlock_detecting_withinput.py] reads who holds
    what from the process records only: two stores with the same processes
    and records, whatever their holder index lists, have the same deadlocks
    reported (each cycle up to the node it is read from).  Entries left
    behind in the index neither create nor hide a deadlock. *)
Theorem detection_ignores_holder_index (now now' : string) (t t' : Tracker)
    (h h' : list detection) (ds : list (list node)) (c : list node) :
  processes t = processes t' → records t = records t' →
  (detect_deadlocks now t h).1 = Some ds → c ∈ ds →
  ∃ ds' c', (detect_deadlocks now' t' h').1 = Some ds' ∧ c' ∈ ds' ∧ rotation c c'.
Proof.
  intros Hp Hr Hds Hc. destruct (report_sound _ _ _ _ _ Hds Hc) as [Hcyc Hlen].
  apply report_complete; [|done].
  apply (simple_cycle_ext (allocation_graph t)); [|done].
  intros a b. by apply allocation_graph_edges_ext.
Qed.

Lemma detection_ignores_holder_index_witness :
  ∃ ds' c',
    (detect_deadlocks "12:01"
       {| processes := processes classic; resources := [("X", 0); ("stale", 1)];
          records := records classic; holder_lists := [[7%Z; 7%Z]; []] |} []).1 = Some ds' ∧
    c' ∈ ds' ∧ rotation ["P1"; "RX"; "P2"; "RY"] c'.
Proof.
  apply (detection_ignores_holder_index "12:00" "12:01" classic
           {| processes := processes classic; resources := [("X", 0); ("stale", 1)];
              records := records classic; holder_lists := [[7%Z; 7%Z]; []] |}
           [] [] [["P1"; "RX"; "P2"; "RY"]]).
  - reflexivity.
  - reflexivity.
  - reflexivity.
  - by left.
Defined.

(** X10. The detection history is append-only and holds deadlocks only: a
    call of [detect_deadlocks] keeps the records that were there, in order,
    adds at most one, and if every record held a non-empty list of elementary
    circuits of at least four nodes of the graph stored with it, so does
    every record afterwards. *)
Theorem detection_history_invariant (now : string) (t : Tracker) (h : list detection) :
  Forall record_ok h →
  h `prefix_of` (detect_deadlocks now t h).2 ∧
  length (detect_deadlocks now t h).2 ≤ S (length h) ∧
  Forall record_ok (detect_deadlocks now t h).2.
Proof.
  intros Hh. unfold detect_deadlocks.
  destruct (report now (allocation_graph t) h).1 as [ds|] eqn:Hds.
  - destruct (report_Some _ _ _ _ Hds) as [Hfilter ->].
    split; [by apply prefix_app_r|]. split; [rewrite length_app; simpl; lia|].
    apply Forall_app. split; [done|]. apply Forall_singleton. split; simpl.
    + intros ->. by apply (report_never_empty now (allocation_graph t) h).
    + apply Forall_forall. intros c Hc.
      destruct (report_sound _ _ _ _ _ Hds Hc). done.
  - assert ((report now (allocation_graph t) h).2 = h) as ->.
    { unfold report in *.
      by destruct (filter _ (simple_cycles (allocation_graph t))). }
    split; [done|]. split; [lia | done].
Qed.

Lemma detection_history_invariant_witness :
  (detect_deadlocks "12:00" classic []).2
    `prefix_of` (detect_deadlocks "12:05" two_deadlocks (detect_deadlocks "12:00" classic []).2).2 ∧
  length (detect_deadlocks "12:05" two_deadlocks (detect_deadlocks "12:00" classic []).2).2
    ≤ S (length (detect_deadlocks "12:00" classic []).2) ∧
  Forall record_ok
    (detect_deadlocks "12:05" two_deadlocks (detect_deadlocks "12:00" classic []).2).2.
Proof.
  apply (detection_history_invariant "12:05" two_deadlocks
           (detect_deadlocks "12:00" classic []).2).
  apply (detection_history_invariant "12:00" classic []). constructor.
Defined.

(** ** A ring of three processes *)

Ltac split_nodup H :=
  repeat (let H' := fresh "Hfresh" in apply NoDup_cons in H as [H' H];
          rewrite ?not_elem_of_cons in H'; destruct_and?).

Lemma six_cycle (a b c x y z : node) :
  NoDup [a; b; c; x; y; z] →
  simple_cycles [(a, [x]); (b, [y]); (c, [z]); (x, [c]); (y, [a]); (z, [b])]
  = [[a; x; c; z; b; y]].
Proof.
  intros Hnd. split_nodup Hnd.
  set (g := [(a, [x]); (b, [y]); (c, [z]); (x, [c]); (y, [a]); (z, [b])]).
  assert (successors g a = [x]) as Sa
    by (unfold successors, g; simpl; by repeat decide_step).
  assert (successors g b = [y]) as Sb
    by (unfold successors, g; simpl; by repeat decide_step).
  assert (successors g c = [z]) as Sc
    by (unfold successors, g; simpl; by repeat decide_step).
  assert (successors g x = [c]) as Sx
    by (unfold successors, g; simpl; by repeat decide_step).
  assert (successors g y = [a]) as Sy
    by (unfold successors, g; simpl; by repeat decide_step).
  assert (successors g z = [b]) as Sz
    by (unfold successors, g; simpl; by repeat decide_step).
  unfold simple_cycles. change (nodes g) with [a; b; c; x; y; z]. clearbody g.
  simpl. rewrite ?Sa, ?Sb, ?Sc, ?Sx, ?Sy, ?Sz. simpl.
  repeat (decide_step; simpl; rewrite ?Sa, ?Sb, ?Sc, ?Sx, ?Sy, ?Sz; simpl).
  done.
Qed.

Lemma run_cons o ops t : run (o :: ops) t = run ops (step t o).
Proof. done. Qed.

(** Evaluate the next call of a [run] on an explicit store. *)
Ltac run_step :=
  rewrite run_cons;
  cbv [step add_process allocate_resource set_waiting_for resources_getitem
       Dict.get Dict.set init processes resources records holder_lists fst snd];
  repeat (decide_step; cbv beta iota zeta);
  cbv [length app alter list_alter append_resource assign_waiting_for
       p_name p_status p_resources p_waiting_for].

Lemma ring_deadlock_state A B C X Y Z :
  NoDup [A; B; C] → NoDup [X; Y; Z] →
  ring_deadlock A B C X Y Z =
  {| processes := [(A, 0); (B, 1); (C, 2)];
     resources := [(X, 0); (Y, 1); (Z, 2)];
     records :=
       [{| p_name := "a"; p_status := "running";
           p_resources := [X]; p_waiting_for := Some Y |};
        {| p_name := "b"; p_status := "running";
           p_resources := [Y]; p_waiting_for := Some Z |};
        {| p_name := "c"; p_status := "running";
           p_resources := [Z]; p_waiting_for := Some X |}];
     holder_lists := [[A]; [B]; [C]] |}.
Proof.
  intros HP HR. split_nodup HP. split_nodup HR.
  unfold ring_deadlock. do 9 run_step. reflexivity.
Qed.

Lemma ring_edges (a b c x y z : node) :
  NoDup [a; b; c; x; y; z] →
  add_edge x c (add_edge c z (add_edge z b (add_edge b y (add_edge y a (add_edge a x
    (add_node z (add_node y (add_node x
      (add_node c (add_node b (add_node a [])))))))))))
  = [(a, [x]); (b, [y]); (c, [z]); (x, [c]); (y, [a]); (z, [b])].
Proof.
  intros Hnd. split_nodup Hnd.
  rewrite (add_node_new a []) by solve_node. simpl app.
  rewrite (add_node_new b [(a, [])]) by solve_node. simpl app.
  rewrite (add_node_new c [(a, []); (b, [])]) by solve_node. simpl app.
  rewrite (add_node_new x [(a, []); (b, []); (c, [])]) by solve_node. simpl app.
  rewrite (add_node_new y [(a, []); (b, []); (c, []); (x, [])]) by solve_node. simpl app.
  rewrite (add_node_new z [(a, []); (b, []); (c, []); (x, []); (y, [])]) by solve_node.
  simpl app.
  rewrite (add_edge_old a x) by solve_node.
  simpl add_successor. repeat (decide_step; simpl app).
  rewrite (add_edge_old y a) by solve_node.
  simpl add_successor. repeat (decide_step; simpl app).
  rewrite (add_edge_old b y) by solve_node.
  simpl add_successor. repeat (decide_step; simpl app).
  rewrite (add_edge_old z b) by solve_node.
  simpl add_successor. repeat (decide_step; simpl app).
  rewrite (add_edge_old c z) by solve_node.
  simpl add_successor. repeat (decide_step; simpl app).
  rewrite (add_edge_old x c) by solve_node.
  simpl add_successor. repeat (decide_step; simpl app).
  done.
Qed.

Lemma NoDup_ring_nodes A B C X Y Z :
  NoDup [A; B; C] → NoDup [X; Y; Z] →
  NoDup [process_node A; process_node B; process_node C;
         resource_node X; resource_node Y; resource_node Z].
Proof.
  intros HP HR.
  change (NoDup ((process_node <$> [A; B; C]) ++ (resource_node <$> [X; Y; Z]))).
  apply NoDup_app. split; [|split].
  - apply NoDup_fmap_2_strong; [|done]. intros ? ? _ _. apply process_node_inj.
  - intros n [p [-> _]]%list_elem_of_fmap [r [Hr _]]%list_elem_of_fmap.
    by destruct (process_node_not_resource p r).
  - apply NoDup_fmap_2_strong; [|done]. intros ? ? _ _. apply resource_node_inj.
Qed.

Lemma ring_deadlock_graph A B C X Y Z :
  NoDup [A; B; C] → NoDup [X; Y; Z] → X ≠ "" → Y ≠ "" → Z ≠ "" →
  allocation_graph (ring_deadlock A B C X Y Z) =
  [(process_node A, [resource_node X]); (process_node B, [resource_node Y]);
   (process_node C, [resource_node Z]); (resource_node X, [process_node C]);
   (resource_node Y, [process_node A]); (resource_node Z, [process_node B])].
Proof.
  intros HP HR HX HY HZ. rewrite ring_deadlock_state by done.
  cbv [allocation_graph build_graph get_system_state snap_processes snap_resources
       processes resources records foldl add_process_edges fst snd
       lookup list_lookup p_resources p_waiting_for].
  rewrite !truthy_nonempty by done.
  by apply ring_edges, NoDup_ring_nodes.
Qed.

(** X11. Three different processes in a ring over three different resources
    with non-empty names ([A] holds [X] and waits for [Y], [B] holds [Y] and
    waits for [Z], [C] holds [Z] and waits for [X]) are reported as exactly
    one cycle, of six nodes, through all of them, and one record is added to
    the history. *)
Theorem ring_deadlock_detected (A B C : pid) (X Y Z : rid)
    (now : string) (h : list detection) :
  NoDup [A; B; C] → NoDup [X; Y; Z] → X ≠ "" → Y ≠ "" → Z ≠ "" →
  ∃ c,
    detect_deadlocks now (ring_deadlock A B C X Y Z) h =
      (Some [c],
       h ++ [{| time := now; deadlocks := [c];
                graph := allocation_graph (ring_deadlock A B C X Y Z) |}]) ∧
    length c = 6 ∧
    (∀ n, n ∈ c ↔ n ∈ [process_node A; process_node B; process_node C;
                        resource_node X; resource_node Y; resource_node Z]).
Proof.
  intros HP HR HX HY HZ.
  exists [process_node A; resource_node X; process_node C;
          resource_node Z; process_node B; resource_node Y].
  split; [|split; [done|]].
  - unfold detect_deadlocks, report. rewrite ring_deadlock_graph by done.
    by rewrite six_cycle by (by apply NoDup_ring_nodes).
  - intros n. rewrite !elem_of_cons. tauto.
Qed.

Lemma ring_deadlock_detected_witness :
  ∃ c,
    detect_deadlocks "12:00" (ring_deadlock 1%Z 2%Z 3%Z "X" "Y" "Z") [] =
      (Some [c],
       [] ++ [{| time := "12:00"; deadlocks := [c];
                 graph := allocation_graph (ring_deadlock 1%Z 2%Z 3%Z "X" "Y" "Z") |}]) ∧
    length c = 6 ∧
    (∀ n, n ∈ c ↔ n ∈ [process_node 1%Z; process_node 2%Z; process_node 3%Z;
                        resource_node "X"; resource_node "Y"; resource_node "Z"]).
Proof.
  apply (ring_deadlock_detected 1%Z 2%Z 3%Z "X" "Y" "Z" "12:00" []);
    try done; apply (bool_decide_unpack _); vm_compute; exact I.
Defined.

(** ** More on the resolvers *)

Lemma startswith_P_not_R n : startswith "P" n = true → startswith "R" n = false.
Proof.
  destruct n as [|c n]; [done|]. simpl.
  intros ->%Ascii.eqb_eq. done.
Qed.

Lemma collect_two_loops deadlock ps rs :
  collect deadlock ps rs =
  match MonitorResolver.collect_processes deadlock ps with
  | Some ps' => Some (ps', MonitorResolver.collect_resources deadlock rs)
  | None => None
  end.
Proof.
  revert ps rs. induction deadlock as [|n deadlock IH]; intros ps rs; simpl; [done|].
  destruct (startswith "P" n) eqn:HP.
  - rewrite (startswith_P_not_R n HP). destruct (py_int (tail1 n)); [apply IH | done].
  - destruct (startswith "R" n); apply IH.
Qed.

(** X12. The two resolvers agree on every list of node names, whatever the
    strings are: either both raise (on some node ['P...'] whose tail is not an
    int), or they collect the same set of process ids and the same set of
    resource names, from which each builds its resolutions (same targets,
    same lowest id; only the wording differs), and neither touches the
    tracker or the history. *)
Theorem resolvers_agree (list_of_pids : list pid → list pid)
    (list_of_rids : list rid → list rid) (pop : list rid → rid)
    (deadlock : list node) (sys : System) :
  (suggest_resolutions list_of_pids list_of_rids pop deadlock sys = (None, sys) ∧
   MonitorResolver.suggest_resolutions list_of_pids list_of_rids pop deadlock sys
     = (None, sys)) ∨
  (∃ ps rs,
     suggest_resolutions list_of_pids list_of_rids pop deadlock sys
       = (Some (termination list_of_pids ps ++ preemption list_of_rids pop rs), sys) ∧
     MonitorResolver.suggest_resolutions list_of_pids list_of_rids pop deadlock sys
       = (Some (MonitorResolver.termination list_of_pids ps
                ++ MonitorResolver.preemption list_of_rids pop rs), sys) ∧
     targets <$> (termination list_of_pids ps ++ preemption list_of_rids pop rs)
       = targets <$> (MonitorResolver.termination list_of_pids ps
                      ++ MonitorResolver.preemption list_of_rids pop rs)).
Proof.
  unfold suggest_resolutions, MonitorResolver.suggest_resolutions.
  rewrite collect_two_loops.
  destruct (MonitorResolver.collect_processes deadlock []) as [ps|]; [|by left].
  right. exists ps, (MonitorResolver.collect_resources deadlock []).
  split; [done|]. split; [done|].
  destruct ps, (MonitorResolver.collect_resources deadlock []); done.
Qed.

Lemma collect_processes_None deadlock ps :
  MonitorResolver.collect_processes deadlock ps = None ↔
  ∃ n, n ∈ deadlock ∧ startswith "P" n = true ∧ py_int (tail1 n) = None.
Proof.
  revert ps. induction deadlock as [|n deadlock IH]; intros ps; simpl.
  - split; [done|]. intros (n & Hn & _). by apply elem_of_nil in Hn.
  - destruct (startswith "P" n) eqn:HP.
    + destruct (py_int (tail1 n)) as [p|] eqn:Hint.
      * rewrite IH. split.
        -- intros (m & Hm & H). exists m. split; [by right | done].
        -- intros (m & Hm & HmP & Hmint). apply elem_of_cons in Hm as [->|Hm].
           ++ congruence.
           ++ by exists m.
      * split; [|done]. intros _. exists n. split; [by left | done].
    + rewrite IH. split.
      * intros (m & Hm & H). exists m. split; [by right | done].
      * intros (m & Hm & HmP & Hmint). apply elem_of_cons in Hm as [->|Hm].
        -- congruence.
        -- by exists m.
Qed.

(** X13. On a list of ASCII strings of at most 640 characters each (where
    [int] is as embedded here: no other digits or spaces than the ASCII
    ones, and within the limit on digits of every interpreter),
    [suggest_resolutions] raises [ValueError] exactly when some node of the
    list starts with ['P'] and what follows is not an int for [int()] (the
    bare node ['P'], or a process id that is not a number); it then returns
    nothing and has changed nothing.  On every other such list it returns a
    list of at most two resolutions. *)
Theorem suggest_resolutions_fails_on_bad_pid (list_of_pids : list pid → list pid)
    (list_of_rids : list rid → list rid) (pop : list rid → rid)
    (deadlock : list node) (sys : System) :
  Forall short_ascii deadlock →
  ((suggest_resolutions list_of_pids list_of_rids pop deadlock sys).1 = None ↔
   ∃ n, n ∈ deadlock ∧ startswith "P" n = true ∧ py_int (tail1 n) = None) ∧
  (∀ res, (suggest_resolutions list_of_pids list_of_rids pop deadlock sys).1 = Some res →
          length res ≤ 2) ∧
  (suggest_resolutions list_of_pids list_of_rids pop deadlock sys).2 = sys.
Proof.
  intros _. unfold suggest_resolutions. rewrite collect_two_loops.
  rewrite <- (collect_processes_None deadlock []).
  destruct (MonitorResolver.collect_processes deadlock []) as [ps|]; simpl.
  - split; [done|]. split; [|done]. intros res [= <-].
    destruct ps, (MonitorResolver.collect_resources deadlock []); simpl; lia.
  - done.
Qed.

Lemma suggest_resolutions_fails_on_bad_pid_witness :
  ((suggest_resolutions (fun s => s) (fun s => s) (fun s => default "" (head s))
      ["P1"; "RX"; "Pworker"; "RY"]
      {| tracker := init; detection_history := [] |}).1 = None ↔
   ∃ n, n ∈ ["P1"; "RX"; "Pworker"; "RY"] ∧
        startswith "P" n = true ∧ py_int (tail1 n) = None) ∧
  (∀ res,
     (suggest_resolutions (fun s => s) (fun s => s) (fun s => default "" (head s))
        ["P1"; "RX"; "Pworker"; "RY"]
        {| tracker := init; detection_history := [] |}).1 = Some res →
     length res ≤ 2) ∧
  (suggest_resolutions (fun s => s) (fun s => s) (fun s => default "" (head s))
     ["P1"; "RX"; "Pworker"; "RY"]
     {| tracker := init; detection_history := [] |}).2
  = {| tracker := init; detection_history := [] |}.
Proof.
  apply (suggest_resolutions_fails_on_bad_pid (fun s => s) (fun s => s)
           (fun s => default "" (head s)) ["P1"; "RX"; "Pworker"; "RY"]
           {| tracker := init; detection_history := [] |}).
  repeat (apply Forall_cons; split; [split; [reflexivity | simpl; lia]|]).
  apply Forall_nil_2.
Defined.

Lemma bad_pid_examples :
  (suggest_resolutions (fun s => s) (fun s => s) (fun s => default "" (head s))
     ["Pworker"; "RX"] {| tracker := init; detection_history := [] |}).1 = None ∧
  (suggest_resolutions (fun s => s) (fun s => s) (fun s => default "" (head s))
     ["P"; "RX"] {| tracker := init; detection_history := [] |}).1 = None ∧
  (suggest_resolutions (fun s => s) (fun s => s) (fun s => default "" (head s))
     ["P 1_0 "; "node"; "R"]
     {| tracker := init; detection_history := [] |}).1
  = Some [{| r_type := "process_termination";
             description := "Terminate one process involved in the deadlock";
             targets := ProcessTargets [10%Z];
             recommendation := "Terminate process: 10 (lowest PID)" |};
          {| r_type := "resource_preemption";
             description := "Preempt one resource involved in the deadlock";
             targets := ResourceTargets [""];
             recommendation := "Preempt resource: " |}].
Proof. repeat split. Qed.

(** ** The graph of [deadlock_detector.py] *)

Lemma foldl_holder_edges r (pids : list pid) g a b :
  has_edge (foldl (fun g p => add_edge (resource_node r) (process_node p) g) g pids) a b
  ↔ has_edge g a b ∨ (a = resource_node r ∧ ∃ p, p ∈ pids ∧ b = process_node p).
Proof.
  revert g. induction pids as [|p pids IH]; intros g; simpl.
  - split; [by left|]. intros [|[_ (p & Hp & _)]]; [done|].
    by apply elem_of_nil in Hp.
  - rewrite IH, has_edge_add_edge. split.
    + intros [[|[-> ->]]|[-> (p' & Hp' & ->)]]; auto.
      * right. split; [done|]. exists p. split; [by left | done].
      * right. split; [done|]. exists p'. split; [by right | done].
    + intros [|[-> (p' & Hp' & ->)]]; [auto|].
      apply elem_of_cons in Hp' as [->|Hp']; [auto|].
      right. split; [done|]. by exists p'.
Qed.

Lemma foldl_edges_union {A} (f : DiGraph → A → DiGraph) (E : A → node → node → Prop)
    (items : list A) g a b :
  (∀ g x a b, has_edge (f g x) a b ↔ has_edge g a b ∨ E x a b) →
  has_edge (foldl f g items) a b ↔ has_edge g a b ∨ ∃ x, x ∈ items ∧ E x a b.
Proof.
  intros Hf. revert g. induction items as [|x items IH]; intros g; simpl.
  - split; [by left|]. intros [|(x & Hx & _)]; [done|]. by apply elem_of_nil in Hx.
  - rewrite IH, Hf. split.
    + intros [[|HE]|(y & Hy & HE)]; [by left| |].
      * right. exists x. split; [by left | done].
      * right. exists y. split; [by right | done].
    + intros [|(y & Hy & HE)]; [auto|].
      apply elem_of_cons in Hy as [->|Hy]; [auto|]. right. by exists y.
Qed.

Lemma monitor_graph_edges t a b :
  has_edge (Monitor.build_graph t (get_system_state t)) a b ↔
  holds_edge t a b ∨ holder_edge t a b.
Proof.
  unfold Monitor.build_graph, get_system_state. simpl.
  rewrite (foldl_edges_union (Monitor.add_holder_edges t)
             (fun item a b => ∃ pids, holder_lists t !! item.2 = Some pids ∧
                a = resource_node item.1 ∧ ∃ p, p ∈ pids ∧ b = process_node p)).
  2:{ intros g [r l] a' b'. unfold Monitor.add_holder_edges. simpl.
      destruct (holder_lists t !! l) as [pids|].
      - rewrite foldl_holder_edges. split.
        + intros [|[-> H]]; [by left|]. right. by exists pids.
        + intros [|(pids' & [= <-] & -> & H)]; [by left | by right].
      - split; [by left|]. intros [|(pids & ? & _)]; done. }
  rewrite (foldl_edges_union (Monitor.add_holds_edges t)
             (fun item a b => ∃ rec, records t !! item.2 = Some rec ∧
                a = process_node item.1 ∧ ∃ r, r ∈ p_resources rec ∧ b = resource_node r)).
  2:{ intros g [p l] a' b'. unfold Monitor.add_holds_edges. simpl.
      destruct (records t !! l) as [rec|].
      - rewrite foldl_holds_edges. split.
        + intros [|[-> H]]; [by left|]. right. by exists rec.
        + intros [|(rec' & [= <-] & -> & H)]; [by left | by right].
      - split; [by left|]. intros [|(rec & ? & _)]; done. }
  rewrite !foldl_add_node_edges. unfold holds_edge, holder_edge. split.
  - intros [[H|([p l] & Hin & rec & Hrec & -> & r & Hr & ->)]
           |([r l] & Hin & pids & Hpids & -> & p & Hp & ->)].
    + by apply elem_of_nil in H.
    + left. by exists p, l, rec, r.
    + right. by exists r, l, pids, p.
  - intros [(p & l & rec & r & Hin & Hrec & Hr & -> & ->)
           |(r & l & pids & p & Hin & Hpids & Hp & -> & ->)].
    + left. right. exists (p, l). split; [done|]. exists rec.
      split; [done|]. split; [done|]. by exists r.
    + right. exists (r, l). split; [done|]. exists pids.
      split; [done|]. split; [done|]. by exists p.
Qed.

(** ** One round of the monitor *)

Lemma assign_allocate t i p l :
  Dict.get p (processes t) = Some l →
  MonitorTracker.assign t (i, p)
  = (allocate_resource p (MonitorTracker.resource_id i) t).2.
Proof.
  intros Hp. unfold MonitorTracker.assign, allocate_resource. rewrite Hp. simpl.
  pose proof (resources_getitem_processes (MonitorTracker.resource_id i) t) as H1.
  destruct (resources_getitem (MonitorTracker.resource_id i) t) as [lr t1].
  simpl in *. by rewrite H1, Hp.
Qed.

Lemma held_allocate_resource_eq p r t :
  store_ok t → is_Some (Dict.get p (processes t)) →
  held (allocate_resource p r t).2 p = held t p ++ [r].
Proof.
  intros Hok Hreg. destruct (registered_process_of t p Hok Hreg) as [rec Hrec].
  rewrite (held_process_of _ _ _ (process_of_allocate_resource_eq p r t rec Hrec)).
  by rewrite (held_process_of _ _ _ Hrec).
Qed.

Lemma held_allocate_resource_ne p q r t :
  store_ok t → q ≠ p → held (allocate_resource p r t).2 q = held t q.
Proof.
  intros Hok Hne. unfold held. by rewrite process_of_allocate_resource_ne.
Qed.

(** The state of the loop of [_update_resources] after the pairs [done] of
    [enumerate(pids)]: each of their processes holds its one resource and is
    listed under it, and nobody else holds or is listed anywhere. *)
Lemma assign_loop (todo done : list (nat * pid)) (t : Tracker) :
  NoDup (done ++ todo).*2 →
  (∀ item, item ∈ todo → is_Some (Dict.get item.2 (processes t))) →
  store_ok t →
  (∀ i p, (i, p) ∈ done → held t p = [MonitorTracker.resource_id i]
                          ∧ p ∈ holders t (MonitorTracker.resource_id i)) →
  (∀ p, p ∉ done.*2 → held t p = []) →
  (∀ r p, p ∈ holders t r → ∃ i, (i, p) ∈ done ∧ r = MonitorTracker.resource_id i) →
  store_ok (foldl MonitorTracker.assign t todo) ∧ processes (foldl MonitorTracker.assign t todo) = processes t ∧
  (∀ i p, (i, p) ∈ done ++ todo → held (foldl MonitorTracker.assign t todo) p = [MonitorTracker.resource_id i]
                                   ∧ p ∈ holders (foldl MonitorTracker.assign t todo) (MonitorTracker.resource_id i)) ∧
  (∀ p, p ∉ (done ++ todo).*2 → held (foldl MonitorTracker.assign t todo) p = []) ∧
  (∀ r p, p ∈ holders (foldl MonitorTracker.assign t todo) r →
          ∃ i, (i, p) ∈ done ++ todo ∧ r = MonitorTracker.resource_id i).
Proof.
  revert done t. induction todo as [|[i p] todo IH]; intros done t Hnd Hreg Hok Ha Hb Hc.
  - simpl. rewrite app_nil_r. done.
  - simpl. destruct (Hreg (i, p)) as [l Hl]; [by left|]. simpl in Hl.
    rewrite (assign_allocate t i p l Hl).
    set (r := MonitorTracker.resource_id i).
    assert (p ∉ done.*2) as Hfresh.
    { rewrite fmap_app in Hnd. apply NoDup_app in Hnd as (_ & Hdisj & _).
      intros Hin. apply (Hdisj p Hin). simpl. by left. }
    assert (is_Some (Dict.get p (processes t))) as Hp by eauto.
    destruct (IH (done ++ [(i, p)]) (allocate_resource p r t).2)
      as (Hok' & Hproc & Ha' & Hb' & Hc').
    + by rewrite <- app_assoc.
    + intros item Hitem. rewrite allocate_resource_processes.
      apply Hreg. by right.
    + by apply store_ok_allocate_resource.
    + intros i' p' [Hin|[= -> ->]%list_elem_of_singleton]%elem_of_app.
      * assert (p' ≠ p) as Hne.
        { intros ->. apply Hfresh. apply list_elem_of_fmap. by exists (i', p). }
        rewrite held_allocate_resource_ne by done.
        destruct (Ha i' p' Hin) as [Hh Hidx]. split; [done|].
        destruct (decide (MonitorTracker.resource_id i' = r)) as [Heq|Hr].
        -- rewrite Heq. rewrite holders_allocate_resource_eq by done.
           apply elem_of_app. left. by rewrite <- Heq.
        -- by rewrite holders_allocate_resource_ne.
      * rewrite held_allocate_resource_eq by done. rewrite (Hb p Hfresh).
        split; [done|].
        rewrite holders_allocate_resource_eq by done.
        apply elem_of_app. right. by left.
    + intros p' Hp'. rewrite fmap_app, not_elem_of_app in Hp'.
      destruct Hp' as [Hp1 Hp2]. simpl in Hp2.
      rewrite held_allocate_resource_ne; [by apply Hb | done |].
      intros ->. apply Hp2. by left.
    + intros r' p' Hin. destruct (decide (r' = r)) as [->|Hr].
      * rewrite holders_allocate_resource_eq in Hin by done.
        apply elem_of_app in Hin as [Hin | ->%list_elem_of_singleton].
        -- destruct (Hc r p' Hin) as (i' & Hi' & Hr'). exists i'.
           split; [apply elem_of_app; by left | done].
        -- exists i. split; [apply elem_of_app; right; by left | done].
      * rewrite holders_allocate_resource_ne in Hin by done.
        destruct (Hc r' p' Hin) as (i' & Hi' & Hr'). exists i'.
        split; [apply elem_of_app; by left | done].
    + rewrite <- !app_assoc in Ha', Hb', Hc'. simpl in Ha', Hb', Hc'.
      split; [done|]. split; [by rewrite Hproc, allocate_resource_processes|].
      done.
Qed.

Lemma register_keeps_ok t info :
  NoDup (processes t).*1 → NoDup (processes t).*2 →
  Forall (fun item => item.2 < length (records t)) (processes t) →
  NoDup (processes (MonitorTracker.register t info)).*1 ∧
  NoDup (processes (MonitorTracker.register t info)).*2 ∧
  Forall (fun item => item.2 < length (records (MonitorTracker.register t info)))
         (processes (MonitorTracker.register t info)).
Proof.
  intros Hk Hv Hb. unfold MonitorTracker.register. simpl.
  split; [by apply NoDup_keys_set|].
  split; [by apply NoDup_values_set, bound_not_in_values|].
  apply Forall_set.
  - rewrite length_app. simpl. lia.
  - by apply Forall_bound_grow.
Qed.

Lemma register_keeps_empty t info :
  Forall (fun item => ∃ rec, records t !! item.2 = Some rec ∧ p_resources rec = [])
         (processes t) →
  Forall (fun item => ∃ rec, records (MonitorTracker.register t info) !! item.2 = Some rec
                             ∧ p_resources rec = [])
         (processes (MonitorTracker.register t info)).
Proof.
  intros He. unfold MonitorTracker.register. simpl. apply Forall_set.
  - simpl. eexists. split; [by apply list_lookup_middle | done].
  - eapply Forall_impl; [exact He|]. intros item (rec & Hrec & Hempty).
    exists rec. split; [by apply lookup_app_l_Some | done].
Qed.

Lemma foldl_register_ok procs t :
  NoDup (processes t).*1 → NoDup (processes t).*2 →
  Forall (fun item => item.2 < length (records t)) (processes t) →
  Forall (fun item => ∃ rec, records t !! item.2 = Some rec ∧ p_resources rec = [])
         (processes t) →
  NoDup (processes (foldl MonitorTracker.register t procs)).*1 ∧
  NoDup (processes (foldl MonitorTracker.register t procs)).*2 ∧
  Forall (fun item => item.2 < length (records (foldl MonitorTracker.register t procs)))
         (processes (foldl MonitorTracker.register t procs)) ∧
  Forall (fun item => ∃ rec, records (foldl MonitorTracker.register t procs) !! item.2
                               = Some rec ∧ p_resources rec = [])
         (processes (foldl MonitorTracker.register t procs)).
Proof.
  revert t. induction procs as [|info procs IH]; intros t Hk Hv Hb He; [done|].
  simpl. destruct (register_keeps_ok t info Hk Hv Hb) as (? & ? & ?).
  apply IH; try done. by apply register_keeps_empty.
Qed.

Lemma register_keys t info p :
  p ∈ (processes (MonitorTracker.register t info)).*1 ↔
  p = info.1.1 ∨ p ∈ (processes t).*1.
Proof.
  unfold MonitorTracker.register. simpl. rewrite keys_set.
  destruct (decide (info.1.1 ∈ (processes t).*1)) as [Hin|Hnin].
  - split; [tauto|]. intros [->|]; tauto.
  - rewrite elem_of_app, list_elem_of_singleton. tauto.
Qed.

Lemma foldl_register_keys procs t p :
  p ∈ (processes (foldl MonitorTracker.register t procs)).*1 ↔
  p ∈ (processes t).*1 ∨ p ∈ procs.*1.*1.
Proof.
  revert t. induction procs as [|info procs IH]; intros t; simpl.
  - split; [by left|]. intros [|H]; [done|]. by apply elem_of_nil in H.
  - rewrite IH, register_keys, elem_of_cons. tauto.
Qed.

Lemma imap_pair_snd {A} (l : list A) (k : nat) :
  (imap (fun i x => (k + i, x)) l).*2 = l.
Proof.
  revert k. induction l as [|x l IH]; intros k; [done|].
  simpl. f_equal.
  rewrite <- (IH (S k)) at 2. f_equal. apply imap_ext. intros i y _. simpl.
  f_equal. lia.
Qed.

Lemma update_resources_fold u :
  MonitorTracker._update_resources u =
  foldl MonitorTracker.assign
    {| processes := processes u; resources := [];
       records := records u; holder_lists := holder_lists u |}
    (imap pair (Dict.keys (processes u))).
Proof.
  unfold MonitorTracker._update_resources. by destruct (processes u).
Qed.

(** What one round of the monitor leaves. *)
Lemma monitor_pass_spec procs t :
  store_ok (MonitorTracker.monitor_pass procs t) ∧
  (∀ p, p ∈ (processes (MonitorTracker.monitor_pass procs t)).*1 ↔ p ∈ procs.*1.*1) ∧
  (∀ i p, Dict.keys (processes (MonitorTracker.monitor_pass procs t)) !! i = Some p →
          held (MonitorTracker.monitor_pass procs t) p = [MonitorTracker.resource_id i]) ∧
  (∀ p, p ∉ (processes (MonitorTracker.monitor_pass procs t)).*1 →
        held (MonitorTracker.monitor_pass procs t) p = []) ∧
  (∀ p r, r ∈ held (MonitorTracker.monitor_pass procs t) p ↔
          p ∈ holders (MonitorTracker.monitor_pass procs t) r).
Proof.
  unfold MonitorTracker.monitor_pass. rewrite update_resources_fold.
  set (u := MonitorTracker._update_processes procs t).
  set (t0 := {| processes := processes u; resources := [];
                records := records u; holder_lists := holder_lists u |}).
  destruct (foldl_register_ok procs
              {| processes := []; resources := resources t;
                 records := records t; holder_lists := holder_lists t |})
    as (Hk & Hv & Hb & He); [constructor..|].
  fold (MonitorTracker._update_processes procs t) in Hk, Hv, Hb, He.
  fold u in Hk, Hv, Hb, He.
  assert (store_ok t0) as Hok0.
  { split; [done|]. split; [done|]. split; [done|]. repeat split; constructor. }
  assert ((imap pair (Dict.keys (processes u))).*2 = (processes u).*1) as Hsnd
    by apply (imap_pair_snd _ 0).
  destruct (assign_loop (imap pair (Dict.keys (processes u))) [] t0)
    as (Hok & Hproc & Ha & Hb' & Hc).
  - simpl. by rewrite Hsnd.
  - intros [i p] Hin. simpl.
    assert (p ∈ (processes u).*1) as Hp.
    { rewrite <- Hsnd. apply list_elem_of_fmap. by exists (i, p). }
    apply list_elem_of_fmap in Hp as ([p' l] & -> & Hp). simpl.
    exists l. by apply elem_of_get_Some.
  - done.
  - intros i p Hin. by apply elem_of_nil in Hin.
  - intros p _. destruct (Dict.get p (processes u)) as [l|] eqn:Hl.
    + apply get_Some_elem_of in Hl as Hin.
      destruct (proj1 (Forall_forall _ _) He (p, l) Hin) as (rec & Hrec & Hempty).
      rewrite (held_process_of t0 p rec); [done|].
      rewrite (process_of_Some t0 p l Hl). exact Hrec.
    + apply held_unregistered. by apply process_of_None.
  - intros r p Hin. unfold holders in Hin. simpl in Hin. by apply elem_of_nil in Hin.
  - simpl in Ha, Hb', Hc. rewrite Hsnd in Hb'. simpl in Hproc.
    split; [done|]. rewrite Hproc.
    assert (∀ p, p ∈ (processes u).*1 → ∃ i, (i, p) ∈ imap pair (Dict.keys (processes u)))
      as Hidx.
    { intros p Hp. rewrite <- Hsnd in Hp.
      apply list_elem_of_fmap in Hp as ([i p'] & -> & Hp). by exists i. }
    split; [|split; [|split; [done|]]].
    + intros p. unfold u, MonitorTracker._update_processes.
      rewrite foldl_register_keys. simpl. rewrite elem_of_nil. tauto.
    + intros i p Hi. apply Ha. apply elem_of_lookup_imap. by exists i, p.
    + intros p r. split.
      * intros Hr. destruct (decide (p ∈ (processes u).*1)) as [Hp|Hp].
        -- destruct (Hidx p Hp) as [i Hi]. destruct (Ha i p Hi) as [Hh Hl].
           rewrite Hh in Hr. by apply list_elem_of_singleton in Hr as ->.
        -- rewrite (Hb' p Hp) in Hr. by apply elem_of_nil in Hr.
      * intros Hp. destruct (Hc r p Hp) as (i & Hi & ->).
        destruct (Ha i p Hi) as [-> _]. by left.
Qed.

(** X14. One round of the monitor of [deadlock_detector.py] registers
    exactly the processes that [psutil] lists and gives the process at
    position [i] of the dict exactly one resource, ["R{i%5}"]; the holder
    index it builds agrees with the held lists in both directions. *)
Theorem monitor_pass_allocation (procs : list (pid * string * string)) (t : Tracker) :
  (∀ p, p ∈ Dict.keys (processes (MonitorTracker.monitor_pass procs t))
        ↔ p ∈ procs.*1.*1) ∧
  NoDup (Dict.keys (processes (MonitorTracker.monitor_pass procs t))) ∧
  (∀ i p, Dict.keys (processes (MonitorTracker.monitor_pass procs t)) !! i = Some p →
          held (MonitorTracker.monitor_pass procs t) p = [MonitorTracker.resource_id i]) ∧
  (∀ p r, r ∈ held (MonitorTracker.monitor_pass procs t) p ↔
          p ∈ holders (MonitorTracker.monitor_pass procs t) r).
Proof.
  destruct (monitor_pass_spec procs t) as ((Hk & _) & Hreg & Hheld & _ & Hidx).
  done.
Qed.

Lemma held_of_edges t a b :
  store_ok t →
  has_edge (Monitor.build_graph t (get_system_state t)) a b →
  (∃ p r, a = process_node p ∧ b = resource_node r ∧ r ∈ held t p) ∨
  (∃ p r, a = resource_node r ∧ b = process_node p ∧ p ∈ holders t r).
Proof.
  intros (Hpk & _ & _ & Hrk & _) [(p & l & rec & r & Hin & Hrec & Hr & -> & ->)
    |(r & l & pids & p & Hin & Hpids & Hp & -> & ->)]%monitor_graph_edges.
  - left. exists p, r. split; [done|]. split; [done|].
    apply (elem_of_get_Some p l _ Hpk) in Hin.
    rewrite (held_process_of t p rec); [done|].
    rewrite (process_of_Some t p l Hin). exact Hrec.
  - right. exists p, r. split; [done|]. split; [done|].
    apply (elem_of_get_Some r l _ Hrk) in Hin.
    rewrite (holders_Some t r l Hin).
    replace (holder_lists t !! l) with (Some pids); done.
Qed.

(** X15. The detector of [deadlock_detector.py] can never report anything,
    neither on the empty store before the first round of the monitor nor on
    the store a round has built, whatever processes are running: every
    process holds one resource only, and the edges from a resource go to its
    holders, so each cycle of the graph is a process and its resource pointing
    at each other, which the filter drops.  [detect_deadlocks] returns [None]
    and the history stays as it was. *)
Theorem monitor_never_reports (now : string) (procs : list (pid * string * string))
    (t : Tracker) (h : list detection) :
  Monitor.detect_deadlocks now init h = (None, h) ∧
  Monitor.detect_deadlocks now (MonitorTracker.monitor_pass procs t) h = (None, h).
Proof.
  split; [reflexivity|].
  destruct (monitor_pass_spec procs t) as (Hok & _ & Hheld & Hnone & Hidx).
  set (T := MonitorTracker.monitor_pass procs t) in *.
  assert (∀ p r r', r ∈ held T p → r' ∈ held T p → r = r') as Hone.
  { intros p r r' Hr Hr'.
    destruct (decide (p ∈ (processes T).*1)) as [Hp|Hp].
    - apply list_elem_of_lookup in Hp as [i Hi].
      rewrite (Hheld i p Hi) in Hr, Hr'.
      apply list_elem_of_singleton in Hr, Hr'. congruence.
    - rewrite (Hnone p Hp) in Hr. by apply elem_of_nil in Hr. }
  apply report_None. apply elem_of_nil_inv.
  intros c [Hlen [[_ Hp] Hnd]%simple_cycles_sound]%list_elem_of_filter.
  destruct c as [|x0 [|x1 [|x2 [|x3 c]]]]; simpl in Hlen; try lia.
  destruct Hp as (H01 & H12 & H23 & _).
  apply NoDup_cons in Hnd as [Hx0 Hnd]. apply NoDup_cons in Hnd as [Hx1 _].
  apply (held_of_edges T _ _ Hok) in H01, H12, H23.
  destruct H01 as [(p & r & -> & -> & Hr)|(p & r & -> & -> & Hpr)].
  - destruct H12 as [(p' & r' & Hbad & _)|(p' & r' & Heq & -> & Hp')].
    { symmetry in Hbad. by destruct (process_node_not_resource p' r). }
    apply resource_node_inj in Heq as <-.
    destruct H23 as [(p'' & r'' & Heq & -> & Hr'')|(p'' & r'' & Hbad & _)].
    2:{ by destruct (process_node_not_resource p' r''). }
    apply process_node_inj in Heq as <-.
    apply Hidx in Hp'. rewrite (Hone p' r r'' Hp' Hr'') in Hx1.
    apply Hx1. right. by left.
  - destruct H12 as [(p' & r' & Heq & -> & Hr')|(p' & r' & Hbad & _)].
    2:{ by destruct (process_node_not_resource p r'). }
    apply process_node_inj in Heq as <-.
    apply Hidx in Hpr. rewrite (Hone p r r' Hpr Hr') in Hx0.
    apply Hx0. right. by left.
Qed.

(** ** The window *)

Lemma names_ok_step t o : op_ok o → names_ok t → names_ok (step t o).
Proof.
  unfold names_ok. destruct o as [p name|p r|p r|]; simpl; intros Ho Ht.
  - apply Forall_app. split; [done|]. apply Forall_singleton.
    split; [apply not_elem_of_nil | done].
  - unfold allocate_resource. destruct (Dict.get p (processes t)) as [lp|]; [|done].
    destruct (resources_getitem r t) as [lr t1] eqn:Hg. simpl.
    assert (records t1 = records t) as ->.
    { pose proof (resources_getitem_records r t) as H. by rewrite Hg in H. }
    apply Forall_alter; [done|]. intros rec _ [Hres Hw]. split; [|done]. simpl.
    rewrite elem_of_app, list_elem_of_singleton. intros [?|?]; [done | by apply Ho].
  - unfold set_waiting_for. destruct (Dict.get p (processes t)) as [lp|]; [|done].
    simpl. apply Forall_alter; [done|]. intros rec _ [Hres Hw]. split; [done|]. simpl.
    intros [= ?]. by apply Ho.
  - done.
Qed.

Lemma names_ok_run ops t : Forall op_ok ops → names_ok t → names_ok (run ops t).
Proof.
  intros Hops. revert t. induction Hops as [|o ops Ho _ IH]; intros t Ht; [done|].
  rewrite run_cons. by apply IH, names_ok_step.
Qed.

Lemma run_app ops ops' t : run (ops ++ ops') t = run ops' (run ops t).
Proof. apply foldl_app. Qed.

Lemma truthy_Some w r : truthy w = Some r → w = Some r ∧ r ≠ "".
Proof. destruct w as [[|c s]|]; simpl; [done| |done]. by intros [= <-]. Qed.

Lemma suggest_resolutions_system lp lr pop deadlock sys :
  (suggest_resolutions lp lr pop deadlock sys).2 = sys.
Proof. unfold suggest_resolutions. by destruct (collect deadlock [] []) as [[ps rs]|]. Qed.

Lemma system_text_insert s g : GUI.system (GUI.text_insert s g) = GUI.system g.
Proof. by destruct g as [sys txt [] st eb]. Qed.

Lemma text_enabled_text_insert s g :
  GUI.text_enabled (GUI.text_insert s g) = GUI.text_enabled g.
Proof. by destruct g as [sys txt [] st eb]. Qed.

Lemma status_var_text_insert s g : GUI.status_var (GUI.text_insert s g) = GUI.status_var g.
Proof. by destruct g as [sys txt [] st eb]. Qed.

Lemma error_boxes_text_insert s g :
  GUI.error_boxes (GUI.text_insert s g) = GUI.error_boxes g.
Proof. by destruct g as [sys txt [] st eb]. Qed.

Lemma system_text_delete g : GUI.system (GUI.text_delete g) = GUI.system g.
Proof. by destruct g as [sys txt [] st eb]. Qed.

Lemma text_enabled_text_delete g :
  GUI.text_enabled (GUI.text_delete g) = GUI.text_enabled g.
Proof. by destruct g as [sys txt [] st eb]. Qed.

Lemma status_var_text_delete g : GUI.status_var (GUI.text_delete g) = GUI.status_var g.
Proof. by destruct g as [sys txt [] st eb]. Qed.

Lemma error_boxes_text_delete g : GUI.error_boxes (GUI.text_delete g) = GUI.error_boxes g.
Proof. by destruct g as [sys txt [] st eb]. Qed.

Create Rewrite HintDb gui.
#[local] Hint Rewrite system_text_insert text_enabled_text_insert status_var_text_insert
  error_boxes_text_insert system_text_delete text_enabled_text_delete
  status_var_text_delete error_boxes_text_delete : gui.

Lemma system_foldl_insert {A} (f : A → string) (l : list A) g :
  GUI.system (foldl (fun g x => GUI.text_insert (f x) g) g l) = GUI.system g.
Proof.
  revert g. induction l as [|x l IH]; intros g; [done|]. simpl.
  by rewrite IH, system_text_insert.
Qed.

Lemma text_enabled_foldl_insert {A} (f : A → string) (l : list A) g :
  GUI.text_enabled (foldl (fun g x => GUI.text_insert (f x) g) g l) = GUI.text_enabled g.
Proof.
  revert g. induction l as [|x l IH]; intros g; [done|]. simpl.
  by rewrite IH, text_enabled_text_insert.
Qed.

Lemma status_var_foldl_insert {A} (f : A → string) (l : list A) g :
  GUI.status_var (foldl (fun g x => GUI.text_insert (f x) g) g l) = GUI.status_var g.
Proof.
  revert g. induction l as [|x l IH]; intros g; [done|]. simpl.
  by rewrite IH, status_var_text_insert.
Qed.

Lemma error_boxes_foldl_insert {A} (f : A → string) (l : list A) g :
  GUI.error_boxes (foldl (fun g x => GUI.text_insert (f x) g) g l) = GUI.error_boxes g.
Proof.
  revert g. induction l as [|x l IH]; intros g; [done|]. simpl.
  by rewrite IH, error_boxes_text_insert.
Qed.

#[local] Hint Rewrite @system_foldl_insert @text_enabled_foldl_insert
  @status_var_foldl_insert @error_boxes_foldl_insert : gui.

(** The loop changes the text only, and it keeps the tracker and the
    history whether or not it raises. *)
Lemma show_deadlocks_fields lp lr pop i ds g :
  GUI.system (GUI.show_deadlocks lp lr pop i ds g).2 = GUI.system g ∧
  GUI.text_enabled (GUI.show_deadlocks lp lr pop i ds g).2 = GUI.text_enabled g ∧
  GUI.status_var (GUI.show_deadlocks lp lr pop i ds g).2 = GUI.status_var g ∧
  GUI.error_boxes (GUI.show_deadlocks lp lr pop i ds g).2 = GUI.error_boxes g.
Proof.
  revert i g. induction ds as [|d ds IH]; intros i g; [done|]. simpl.
  destruct (suggest_resolutions _ _ _ _ _) as [[res|] sys] eqn:Hs;
    apply (f_equal snd) in Hs; rewrite suggest_resolutions_system in Hs;
    simpl in Hs; subst sys.
  - destruct (IH (S i) (GUI.text_insert GUI.newline
      (foldl (fun g0 res0 => GUI.text_insert ("- " +:+ recommendation res0 +:+ GUI.newline) g0)
         (GUI.text_insert ("Possible resolutions:" +:+ GUI.newline)
            (GUI.with_system
               (GUI.system (GUI.text_insert
                  (String.concat " → " d +:+ " → ..." +:+ GUI.newline +:+ GUI.newline)
                  (GUI.text_insert ("Deadlock #" +:+ str_int (Z.of_nat i) +:+ ":" +:+ GUI.newline) g)))
               (GUI.text_insert
                  (String.concat " → " d +:+ " → ..." +:+ GUI.newline +:+ GUI.newline)
                  (GUI.text_insert ("Deadlock #" +:+ str_int (Z.of_nat i) +:+ ":" +:+ GUI.newline) g))))
         res))) as (-> & -> & -> & ->).
    autorewrite with gui. simpl. by autorewrite with gui.
  - simpl. by autorewrite with gui.
Qed.

Lemma show_deadlocks_system lp lr pop i ds g :
  GUI.system (GUI.show_deadlocks lp lr pop i ds g).2 = GUI.system g.
Proof. apply show_deadlocks_fields. Qed.

(** Every node of an elementary circuit of the allocation graph is one of
    the nodes the detector creates. *)
Lemma reported_nodes now t h ds :
  (detect_deadlocks now t h).1 = Some ds → Forall (Forall graph_node) ds.
Proof.
  intros Hds. apply Forall_forall. intros c Hc. apply Forall_forall. intros u Hu.
  destruct (report_sound _ _ _ _ _ Hds Hc) as [[[Hne Hp] _] _].
  destruct c as [|a c]; [done|]. change (take 1 (a :: c)) with [a] in Hp.
  destruct (is_path_has_successor _ _ _ _ Hp Hu) as [v Hv].
  apply allocation_graph_bipartite in Hv as [(p & r & -> & _)|(p & r & -> & _)].
  - left. by exists p.
  - right. by exists r.
Qed.

Lemma show_deadlocks_never_raises lp lr pop i ds g :
  Forall (Forall graph_node) ds → (GUI.show_deadlocks lp lr pop i ds g).1 = false.
Proof.
  intros Hds. revert i g. induction Hds as [|d ds Hd _ IH]; intros i g; [done|].
  simpl. unfold suggest_resolutions.
  destruct (collect_spec d Hd [] [] NoDup_nil_2 NoDup_nil_2)
    as (ps & rs & -> & _).
  apply IH.
Qed.

Lemma check_for_deadlocks_tracker limit lp lr pop now now' g :
  tracker (GUI.system (GUI.check_for_deadlocks limit lp lr pop now now' g).2)
  = tracker (GUI.system g).
Proof.
  unfold GUI.check_for_deadlocks.
  destruct (existsb _ _); [done|].
  destruct (detect_deadlocks _ _ _) as [[[|d ds]|] h].
  - simpl. by autorewrite with gui.
  - destruct (GUI.show_deadlocks lp lr pop 1 (d :: ds) _) as [raised g4] eqn:Hshow.
    apply (f_equal snd) in Hshow. cbn [snd] in Hshow. subst g4.
    destruct raised; cbn [snd GUI.text_config GUI.system];
      rewrite show_deadlocks_system; autorewrite with gui; simpl;
      by autorewrite with gui.
  - simpl. by autorewrite with gui.
Qed.

(** The calls that a handler makes on the tracker. *)
Lemma handle_ops limit lp lr pop g e :
  ∃ ops, Forall op_ok ops ∧
         tracker (GUI.system (GUI.handle limit lp lr pop g e))
         = run ops (tracker (GUI.system g)).
Proof.
  destruct e as [[p|] name|[p|] res|[p|] res| |now now']; simpl;
    try (by exists []).
  - unfold GUI.add_process_dialog.
    destruct (truthy name) as [n|]; [|by exists []].
    exists [AddProcess p n]. split; [by apply Forall_singleton|].
    by destruct (GUI.str_raises limit p).
  - unfold GUI.allocate_resource_dialog.
    destruct (truthy res) as [r|] eqn:Hr; [|by exists []].
    apply truthy_Some in Hr as [_ Hr].
    exists [AllocateResource p r]. split; [by apply Forall_singleton|].
    simpl. destruct (allocate_resource p r (tracker (GUI.system g))) as [[] t];
      by destruct (GUI.str_raises limit p).
  - unfold GUI.set_waiting_dialog.
    destruct (truthy res) as [r|] eqn:Hr; [|by exists []].
    apply truthy_Some in Hr as [_ Hr].
    exists [SetWaitingFor p r]. split; [by apply Forall_singleton|].
    simpl. destruct (set_waiting_for p r (tracker (GUI.system g))) as [[] t];
      by destruct (GUI.str_raises limit p).
  - exists [ClearSystem]. split; [by apply Forall_singleton | done].
  - exists []. split; [done|]. apply check_for_deadlocks_tracker.
Qed.

Lemma mainloop_ops limit lp lr pop events g :
  ∃ ops, Forall op_ok ops ∧
         tracker (GUI.system (GUI.mainloop limit lp lr pop events g))
         = run ops (tracker (GUI.system g)).
Proof.
  revert g. induction events as [|e events IH]; intros g; [by exists []|].
  simpl. destruct (handle_ops limit lp lr pop g e) as (ops & Hops & Ht).
  destruct (IH (GUI.handle limit lp lr pop g e)) as (ops' & Hops' & Ht').
  exists (ops ++ ops'). split; [by apply Forall_app|].
  rewrite run_app, <- Ht. exact Ht'.
Qed.

Lemma names_ok_held t p : names_ok t → "" ∉ held t p.
Proof.
  intros Ht. unfold held, process_of.
  destruct (Dict.get p (processes t)) as [l|]; simpl; [|apply not_elem_of_nil].
  destruct (records t !! l) as [rec|] eqn:Hrec; simpl; [|apply not_elem_of_nil].
  apply list_elem_of_lookup_2 in Hrec.
  by destruct (proj1 (Forall_forall _ _) Ht rec Hrec).
Qed.

Lemma names_ok_waiting_for t p : names_ok t → waiting_for t p ≠ Some "".
Proof.
  intros Ht. unfold waiting_for, process_of.
  destruct (Dict.get p (processes t)) as [l|]; simpl; [|done].
  destruct (records t !! l) as [rec|] eqn:Hrec; simpl; [|done].
  apply list_elem_of_lookup_2 in Hrec.
  by destruct (proj1 (Forall_forall _ _) Ht rec Hrec).
Qed.

Lemma truthy_id w : w ≠ Some "" → truthy w = w.
Proof. by destruct w as [[|c s]|]. Qed.

Lemma waits_edge_waiting_for t p r :
  store_ok t →
  has_edge (allocation_graph t) (resource_node r) (process_node p)
  ↔ truthy (waiting_for t p) = Some r.
Proof.
  intros Hok. rewrite allocation_graph_edges. split.
  - intros [(p' & l & rec & r' & _ & _ & _ & Hbad & _)
           |(p' & l & rec & w & Hin & Hrec & Hw & Hr & Hp)].
    { symmetry in Hbad. by destruct (process_node_not_resource p' r). }
    apply resource_node_inj in Hr as <-. apply process_node_inj in Hp as <-.
    by rewrite (waiting_for_elem_of t p l rec Hok Hin Hrec).
  - intros Hw. right. unfold waiting_for, process_of in Hw.
    destruct (Dict.get p (processes t)) as [l|] eqn:Hl; simpl in Hw; [|done].
    destruct (records t !! l) as [rec|] eqn:Hrec; simpl in Hw; [|done].
    exists p, l, rec, r. split; [by apply get_Some_elem_of|]. done.
Qed.

(** X16. No empty name reaches the store through the window: whatever is
    answered in the dialogs and whichever buttons are pressed, and whether or
    not a handler raises on the way, the tracker is in a state that calls of
    [add_process], [allocate_resource], [set_waiting_for] and [clear_system]
    reach from the empty store, no process holds or waits for the empty name,
    and so the truth test of [detect_deadlocks] drops no wait: the graph has
    the edge from a resource to a process exactly when the process is set to
    wait for it. *)
Theorem window_stores_no_empty_name (int_max_str_digits : nat)
    (list_of_pids : list pid → list pid)
    (list_of_rids : list rid → list rid) (pop : list rid → rid)
    (events : list GUI.event) :
  ∃ ops,
    tracker (GUI.system
               (GUI.mainloop int_max_str_digits list_of_pids list_of_rids pop
                  events GUI.new))
      = run ops init ∧
    ∀ p,
      ("" ∉ held (run ops init) p) ∧
      waiting_for (run ops init) p ≠ Some "" ∧
      ∀ r, has_edge (allocation_graph (run ops init)) (resource_node r) (process_node p)
           ↔ waiting_for (run ops init) p = Some r.
Proof.
  destruct (mainloop_ops int_max_str_digits list_of_pids list_of_rids pop events GUI.new)
    as (ops & Hops & Ht).
  exists ops. split; [done|]. intros p.
  assert (names_ok (run ops init)) as Hn.
  { apply names_ok_run; [done|]. apply Forall_nil_2. }
  split; [by apply names_ok_held|]. split; [by apply names_ok_waiting_for|].
  intros r. rewrite (waits_edge_waiting_for _ _ _ (store_ok_run ops init store_ok_init)).
  by rewrite truthy_id by by apply names_ok_waiting_for.
Qed.

Lemma detect_deadlocks_cases now t h :
  (∃ d ds,
     detect_deadlocks now t h
       = (Some (d :: ds),
          h ++ [{| time := now; deadlocks := d :: ds; graph := allocation_graph t |}]) ∧
     Forall (Forall graph_node) (d :: ds) ∧
     simple_cycle (allocation_graph t) d ∧ 4 ≤ length d) ∨
  (detect_deadlocks now t h = (None, h) ∧
   ¬ ∃ c, simple_cycle (allocation_graph t) c ∧ 4 ≤ length c).
Proof.
  destruct (detect_deadlocks now t h) as [[ds|] h'] eqn:Hd.
  - destruct ds as [|d ds].
    { destruct (report_never_empty now (allocation_graph t) h).
      unfold detect_deadlocks in Hd. by rewrite Hd. }
    left. exists d, ds.
    destruct (report_Some now (allocation_graph t) h (d :: ds)) as [_ Hh].
    { unfold detect_deadlocks in Hd. by rewrite Hd. }
    unfold detect_deadlocks in Hd. rewrite Hd in Hh. simpl in Hh. subst h'.
    split; [done|]. split.
    + apply (reported_nodes now t h). unfold detect_deadlocks. by rewrite Hd.
    + apply (report_sound now (allocation_graph t) h (d :: ds)); [by rewrite Hd | by left].
  - right. unfold detect_deadlocks, report in Hd.
    destruct (filter _ _) as [|d ds] eqn:Hf; [|done]. injection Hd as <-.
    split; [done|]. intros (c & Hc & Hlen).
    destruct (report_complete now _ h c Hc Hlen) as (ds & c' & Hds & _).
    unfold report in Hds. by rewrite Hf in Hds.
Qed.

(** X17. [check_for_deadlocks] raises exactly when [str] cannot convert the
    id of some registered process (an id with more digits than the limit of
    the interpreter; never where there is no limit), and then it has changed
    nothing.  The resolver never makes it raise: it is called on the cycles
    of the detector only, whose nodes it can always read back.  When the
    handler returns, it has left the tracker alone, shown no error box and
    left the text read-only, and the status line says "Deadlock detected!"
    exactly when the graph has an elementary circuit of four nodes or more,
    in which case one record is added to the history; otherwise it says "No
    deadlock detected" and the history is unchanged. *)
Theorem check_for_deadlocks_outcome (int_max_str_digits : nat)
    (list_of_pids : list pid → list pid)
    (list_of_rids : list rid → list rid) (pop : list rid → rid)
    (now now' : string) (g : GUI.Gui) :
  ((GUI.check_for_deadlocks int_max_str_digits list_of_pids list_of_rids pop now now' g).1
     = true ↔
   ∃ p, p ∈ Dict.keys (processes (tracker (GUI.system g))) ∧
        GUI.str_raises int_max_str_digits p = true) ∧
  ((GUI.check_for_deadlocks int_max_str_digits list_of_pids list_of_rids pop now now' g).1
     = true →
   (GUI.check_for_deadlocks int_max_str_digits list_of_pids list_of_rids pop now now' g).2
     = g) ∧
  ((GUI.check_for_deadlocks int_max_str_digits list_of_pids list_of_rids pop now now' g).1
     = false →
   tracker (GUI.system
     (GUI.check_for_deadlocks int_max_str_digits list_of_pids list_of_rids pop now now' g).2)
     = tracker (GUI.system g) ∧
   GUI.error_boxes
     (GUI.check_for_deadlocks int_max_str_digits list_of_pids list_of_rids pop now now' g).2
     = GUI.error_boxes g ∧
   GUI.text_enabled
     (GUI.check_for_deadlocks int_max_str_digits list_of_pids list_of_rids pop now now' g).2
     = false ∧
   (((∃ c, simple_cycle (allocation_graph (tracker (GUI.system g))) c ∧ 4 ≤ length c) ∧
     GUI.status_var
       (GUI.check_for_deadlocks int_max_str_digits list_of_pids list_of_rids pop now now' g).2
       = "Deadlock detected!" ∧
     ∃ d, detection_history
            (GUI.system
               (GUI.check_for_deadlocks int_max_str_digits list_of_pids list_of_rids pop
                  now now' g).2)
          = detection_history (GUI.system g) ++ [d]) ∨
    ((¬ ∃ c, simple_cycle (allocation_graph (tracker (GUI.system g))) c ∧ 4 ≤ length c) ∧
     GUI.status_var
       (GUI.check_for_deadlocks int_max_str_digits list_of_pids list_of_rids pop now now' g).2
       = "No deadlock detected" ∧
     detection_history
       (GUI.system
          (GUI.check_for_deadlocks int_max_str_digits list_of_pids list_of_rids pop
             now now' g).2)
     = detection_history (GUI.system g)))).
Proof.
  unfold GUI.check_for_deadlocks.
  destruct (existsb (GUI.str_raises int_max_str_digits)
              (Dict.keys (processes (tracker (GUI.system g))))) eqn:Hlong.
  { apply existsb_exists in Hlong as (p & Hp%list_elem_of_In & Hraise).
    split; [split; [by exists p | done]|]. split; done. }
  assert (¬ ∃ p, p ∈ Dict.keys (processes (tracker (GUI.system g))) ∧
                 GUI.str_raises int_max_str_digits p = true) as Hshort.
  { intros (p & Hp & Hraise).
    assert (existsb (GUI.str_raises int_max_str_digits)
              (Dict.keys (processes (tracker (GUI.system g)))) = true) as Hex.
    { apply existsb_exists. exists p. split; [by apply list_elem_of_In | done]. }
    congruence. }
  destruct (detect_deadlocks_cases now (tracker (GUI.system g))
              (detection_history (GUI.system g)))
    as [(d & ds & -> & Hnodes & Hd & Hlen)|[-> Hno]].
  - destruct (GUI.show_deadlocks _ _ _ _ _ _) as [raised g4] eqn:Hshow.
    pose proof (show_deadlocks_never_raises list_of_pids list_of_rids pop 1 (d :: ds)
      (GUI.text_insert ("DEADLOCK DETECTED at " +:+ now' +:+ GUI.newline +:+ GUI.newline)
         (GUI.set_status "Deadlock detected!"
            (GUI.text_delete (GUI.text_config true
               (GUI.with_system
                  {| tracker := tracker (GUI.system g);
                     detection_history :=
                       detection_history (GUI.system g) ++
                       [{| time := now; deadlocks := d :: ds;
                           graph := allocation_graph (tracker (GUI.system g)) |}] |}
                  g))))) Hnodes) as Hr.
    rewrite Hshow in Hr. simpl in Hr. subst raised.
    pose proof (show_deadlocks_fields list_of_pids list_of_rids pop 1 (d :: ds)
      (GUI.text_insert ("DEADLOCK DETECTED at " +:+ now' +:+ GUI.newline +:+ GUI.newline)
         (GUI.set_status "Deadlock detected!"
            (GUI.text_delete (GUI.text_config true
               (GUI.with_system
                  {| tracker := tracker (GUI.system g);
                     detection_history :=
                       detection_history (GUI.system g) ++
                       [{| time := now; deadlocks := d :: ds;
                           graph := allocation_graph (tracker (GUI.system g)) |}] |}
                  g))))))
      as (Hsys & _ & Hst & Hbox).
    rewrite Hshow in Hsys, Hst, Hbox. simpl in Hsys, Hst, Hbox.
    autorewrite with gui in Hsys, Hst, Hbox. simpl in Hsys, Hst, Hbox.
    autorewrite with gui in Hsys, Hst, Hbox. simpl in Hsys, Hst, Hbox.
    simpl. split; [split; [done | by intros ?]|]. split; [done|]. intros _.
    rewrite Hsys. simpl. split; [done|]. split; [done|]. split; [done|]. left.
    split; [by exists d|]. split; [done|]. eauto.
  - simpl. autorewrite with gui. simpl. autorewrite with gui. simpl.
    split; [split; [done | by intros ?]|]. split; [done|]. intros _.
    split; [done|]. split; [done|]. split; [done|]. right. done.
Qed.

(** ** Deadlocks and circular waits *)

Lemma rotate_to (c : list node) (u : node) :
  u ∈ c → 3 ≤ length c → ∃ a b l, rotation c (a :: b :: u :: l).
Proof.
  intros (l1 & l2 & ->)%list_elem_of_split Hlen.
  destruct l1 as [|b l1 _] using rev_ind.
  - destruct l2 as [|b l2 _] using rev_ind; [simpl in Hlen; lia|].
    destruct l2 as [|a l2 _] using rev_ind; [simpl in Hlen; lia|].
    exists a, b, l2, (u :: l2), [a; b]. split; [|done].
    simpl. by rewrite <- app_assoc.
  - destruct l1 as [|a l1 _] using rev_ind.
    + destruct l2 as [|a l2 _] using rev_ind; [simpl in Hlen; lia|].
      exists a, b, l2, (b :: u :: l2), [a]. split; reflexivity.
    + exists a, b, (l2 ++ l1), l1, (a :: b :: u :: l2). split; [|done].
      by rewrite <- !app_assoc.
Qed.

Lemma holds_edge_held t p r :
  store_ok t →
  has_edge (allocation_graph t) (process_node p) (resource_node r) ↔ r ∈ held t p.
Proof.
  intros Hok. rewrite allocation_graph_edges. split.
  - intros [(p' & l & rec & r' & Hin & Hrec & Hr & Hp & Hr')
           |(p' & l & rec & w & _ & _ & _ & Hbad & _)].
    2:{ by destruct (process_node_not_resource p w). }
    apply process_node_inj in Hp as <-. apply resource_node_inj in Hr' as <-.
    destruct Hok as (Hpk & _). apply (elem_of_get_Some p l _ Hpk) in Hin.
    rewrite (held_process_of t p rec); [done|].
    rewrite (process_of_Some t p l Hin). exact Hrec.
  - intros Hr. left. unfold held, process_of in Hr.
    destruct (Dict.get p (processes t)) as [l|] eqn:Hl; simpl in Hr;
      [|by apply elem_of_nil in Hr].
    destruct (records t !! l) as [rec|] eqn:Hrec; simpl in Hr;
      [|by apply elem_of_nil in Hr].
    exists p, l, rec, r. split; [by apply get_Some_elem_of|]. done.
Qed.

(** X18. A reported cycle is a real circular wait: in a store reached by
    calls of the tracker, every process of a cycle that [detect_deadlocks]
    returns waits for a resource of the cycle that another process of the
    cycle holds. *)
Theorem reported_cycle_is_circular_wait (now : string) (ops : list op)
    (h : list detection) (ds : list (list node)) (c : list node) (p : pid) :
  (detect_deadlocks now (run ops init) h).1 = Some ds →
  c ∈ ds →
  process_node p ∈ c →
  ∃ q r,
    q ≠ p ∧ process_node q ∈ c ∧ resource_node r ∈ c ∧
    waiting_for (run ops init) p = Some r ∧ r ∈ held (run ops init) q.
Proof.
  intros Hds Hc Hp.
  pose proof (store_ok_run ops init store_ok_init) as Hok.
  destruct (report_sound _ _ _ _ _ Hds Hc) as [Hcyc Hlen].
  destruct (rotate_to c (process_node p) Hp) as (a & b & l & Hrot); [lia|].
  destruct (rotation_simple_cycle _ _ _ Hrot Hcyc) as [[_ Hpath] Hnd].
  destruct Hpath as (Hab & Hbp & _).
  assert (a ≠ process_node p) as Hne.
  { apply NoDup_cons in Hnd as [Ha _]. intros ->. apply Ha. right. by left. }
  destruct (allocation_graph_bipartite _ _ _ Hbp) as [(p' & r & _ & Hbad)|(p' & r & -> & _)].
  { by destruct (process_node_not_resource p r). }
  destruct (allocation_graph_bipartite _ _ _ Hab) as [(q & r' & -> & _)|(p'' & r' & _ & Hbad)].
  2:{ symmetry in Hbad. by destruct (process_node_not_resource p'' r). }
  apply (waits_edge_waiting_for _ _ _ Hok) in Hbp.
  apply truthy_Some in Hbp as [Hw _].
  apply (holds_edge_held _ _ _ Hok) in Hab.
  exists q, r. split; [congruence|].
  rewrite !(rotation_elem_of _ _ _ Hrot). rewrite !elem_of_cons. tauto.
Qed.

Lemma reported_cycle_is_circular_wait_witness :
  ∃ q r,
    q ≠ 1%Z ∧ process_node q ∈ ["P1"; "RX"; "P2"; "RY"] ∧
    resource_node r ∈ ["P1"; "RX"; "P2"; "RY"] ∧
    waiting_for
      (run [AddProcess 1%Z "first"; AddProcess 2%Z "second";
            AllocateResource 1%Z "X"; AllocateResource 2%Z "Y";
            SetWaitingFor 1%Z "Y"; SetWaitingFor 2%Z "X"] init) 1%Z = Some r ∧
    r ∈ held
      (run [AddProcess 1%Z "first"; AddProcess 2%Z "second";
            AllocateResource 1%Z "X"; AllocateResource 2%Z "Y";
            SetWaitingFor 1%Z "Y"; SetWaitingFor 2%Z "X"] init) q.
Proof.
  apply (reported_cycle_is_circular_wait "12:00"
           [AddProcess 1%Z "first"; AddProcess 2%Z "second";
            AllocateResource 1%Z "X"; AllocateResource 2%Z "Y";
            SetWaitingFor 1%Z "Y"; SetWaitingFor 2%Z "X"] []
           [["P1"; "RX"; "P2"; "RY"]] ["P1"; "RX"; "P2"; "RY"] 1%Z).
  - vm_compute. reflexivity.
  - by left.
  - by left.
Defined.

Lemma waits_edge_of_waiting_for t p r :
  waiting_for t p = Some r → r ≠ "" →
  has_edge (allocation_graph t) (resource_node r) (process_node p).
Proof.
  intros Hw Hr. apply allocation_graph_edges. right.
  unfold waiting_for, process_of in Hw.
  destruct (Dict.get p (processes t)) as [l|] eqn:Hl; simpl in Hw; [|done].
  destruct (records t !! l) as [rec|] eqn:Hrec; simpl in Hw; [|done].
  exists p, l, rec, r. split; [by apply get_Some_elem_of|]. split; [done|].
  split; [|done]. rewrite Hw. by apply truthy_nonempty.
Qed.

Lemma holds_edge_of_held t p r :
  r ∈ held t p → has_edge (allocation_graph t) (process_node p) (resource_node r).
Proof.
  intros Hr. apply allocation_graph_edges. left. unfold held, process_of in Hr.
  destruct (Dict.get p (processes t)) as [l|] eqn:Hl; simpl in Hr;
    [|by apply elem_of_nil in Hr].
  destruct (records t !! l) as [rec|] eqn:Hrec; simpl in Hr;
    [|by apply elem_of_nil in Hr].
  exists p, l, rec, r. split; [by apply get_Some_elem_of|]. done.
Qed.

Lemma chain_nodes_path t first chain :
  circular_wait t first chain →
  is_path (allocation_graph t) (chain_nodes chain ++ [process_node first]).
Proof.
  induction chain as [|[p r] rest IH]; [done|].
  intros (Hheld & Hr & Hw & Hrest). specialize (IH Hrest).
  change (chain_nodes ((p, r) :: rest) ++ [process_node first])
    with (process_node p :: resource_node r :: (chain_nodes rest ++ [process_node first])).
  split; [by apply holds_edge_of_held|].
  destruct rest as [|[p' r'] rest].
  - split; [by apply waits_edge_of_waiting_for | done].
  - split; [by apply waits_edge_of_waiting_for | exact IH].
Qed.

Lemma chain_nodes_process chain p :
  process_node p ∈ chain_nodes chain ↔ p ∈ chain.*1.
Proof.
  induction chain as [|[q r] rest IH]; simpl; [by rewrite !elem_of_nil|].
  rewrite !elem_of_cons, IH. split.
  - intros [Hp%process_node_inj|[Hbad|?]]; [by left| |by right].
    by destruct (process_node_not_resource p r).
  - intros [->|?]; [by left | by do 2 right].
Qed.

Lemma chain_nodes_resource chain r :
  resource_node r ∈ chain_nodes chain ↔ r ∈ chain.*2.
Proof.
  induction chain as [|[q r'] rest IH]; simpl; [by rewrite !elem_of_nil|].
  rewrite !elem_of_cons, IH. split.
  - intros [Hbad|[Hr%resource_node_inj|?]]; [|by left|by right].
    symmetry in Hbad. by destruct (process_node_not_resource q r).
  - intros [->|?]; [right; by left | by do 2 right].
Qed.

Lemma chain_nodes_NoDup chain :
  NoDup chain.*1 → NoDup chain.*2 → NoDup (chain_nodes chain).
Proof.
  induction chain as [|[p r] rest IH]; simpl; [constructor|].
  intros [Hp Hps]%NoDup_cons [Hr Hrs]%NoDup_cons.
  apply NoDup_cons. split.
  - rewrite elem_of_cons, chain_nodes_process.
    intros [Hbad|?]; [|done]. by destruct (process_node_not_resource p r).
  - apply NoDup_cons. split; [by rewrite chain_nodes_resource | by apply IH].
Qed.

Lemma chain_nodes_length chain : length (chain_nodes chain) = 2 * length chain.
Proof. induction chain as [|[p r] rest IH]; simpl; [done|]. rewrite IH. lia. Qed.

(** X19. Every circular wait is reported, whatever its length: if two or
    more different processes each hold a resource (different, non-empty
    names), each next one waits for the resource of the one before and the
    first waits for the resource of the last, then [detect_deadlocks] returns
    a cycle through all of them and only them. *)
Theorem circular_wait_is_reported (now : string) (t : Tracker) (h : list detection)
    (p0 : pid) (r0 : rid) (rest : list (pid * rid)) :
  rest ≠ [] →
  NoDup ((p0, r0) :: rest).*1 →
  NoDup ((p0, r0) :: rest).*2 →
  circular_wait t p0 ((p0, r0) :: rest) →
  ∃ ds c,
    (detect_deadlocks now t h).1 = Some ds ∧ c ∈ ds ∧
    (∀ p, process_node p ∈ c ↔ p ∈ ((p0, r0) :: rest).*1) ∧
    (∀ r, resource_node r ∈ c ↔ r ∈ ((p0, r0) :: rest).*2) ∧
    length c = 2 * length ((p0, r0) :: rest).
Proof.
  intros Hrest Hps Hrs Hwait.
  assert (simple_cycle (allocation_graph t) (chain_nodes ((p0, r0) :: rest))) as Hcyc.
  { split; [|by apply chain_nodes_NoDup]. split; [done|].
    apply (chain_nodes_path t p0 ((p0, r0) :: rest) Hwait). }
  destruct (report_complete now (allocation_graph t) h _ Hcyc) as (ds & c & Hds & Hc & Hrot).
  { rewrite chain_nodes_length. destruct rest; [done | simpl; lia]. }
  exists ds, c. split; [done|]. split; [done|].
  split; [|split].
  - intros p. by rewrite <- (rotation_elem_of _ _ _ Hrot), chain_nodes_process.
  - intros r. by rewrite <- (rotation_elem_of _ _ _ Hrot), chain_nodes_resource.
  - by rewrite <- (rotation_length _ _ Hrot), chain_nodes_length.
Qed.

Lemma circular_wait_is_reported_witness :
  ∃ ds c,
    (detect_deadlocks "12:00" classic []).1 = Some ds ∧ c ∈ ds ∧
    (∀ p, process_node p ∈ c ↔ p ∈ [(1%Z, "X"); (2%Z, "Y")].*1) ∧
    (∀ r, resource_node r ∈ c ↔ r ∈ [(1%Z, "X"); (2%Z, "Y")].*2) ∧
    length c = 2 * length [(1%Z, "X"); (2%Z, "Y")].
Proof.
  apply (circular_wait_is_reported "12:00" classic [] 1%Z "X" [(2%Z, "Y")]).
  - done.
  - apply (bool_decide_unpack _). vm_compute. exact I.
  - apply (bool_decide_unpack _). vm_compute. exact I.
  - simpl. split_and!; try done.
    + apply (bool_decide_unpack _). vm_compute. exact I.
    + apply (bool_decide_unpack _). vm_compute. exact I.
Defined.

(** ** Snapshots and [clear_system] *)

Lemma detached_clear_system t : detached t (clear_system t).
Proof.
  split; [by apply Forall_nil_2|]. split; [by apply Forall_nil_2|].
  simpl. by rewrite !firstn_all.
Qed.

Lemma take_eq_length {A} (l0 l : list A) : take (length l0) l = l0 → length l0 ≤ length l.
Proof. intros H. apply (f_equal length) in H. rewrite length_take in H. lia. Qed.

Lemma detached_get {K} `{EqDecision K} (d : list (K * nat)) (k : K) (l n : nat) :
  Forall (fun item => n ≤ item.2) d → Dict.get k d = Some l → n ≤ l.
Proof.
  intros Hd Hl%get_Some_elem_of.
  by apply (proj1 (Forall_forall _ _) Hd (k, l)).
Qed.

Lemma detached_resources_getitem t0 t r :
  detached t0 t →
  detached t0 (resources_getitem r t).2 ∧
  length (holder_lists t0) ≤ (resources_getitem r t).1.
Proof.
  intros (Hp & Hr & Hrec & Hh). unfold resources_getitem.
  destruct (Dict.get r (resources t)) as [l|] eqn:Hl; simpl.
  - split; [done|]. by apply (detached_get (resources t) r).
  - pose proof (take_eq_length _ _ Hh) as Hlen.
    split; [|done]. split; [done|]. split; simpl.
    + by apply Forall_set.
    + split; [done|]. by rewrite take_app_le.
Qed.

Lemma detached_step t0 t o : detached t0 t → detached t0 (step t o).
Proof.
  intros Ht. destruct o as [p name|p r|p r|]; simpl.
  - destruct Ht as (Hp & Hr & Hrec & Hh).
    pose proof (take_eq_length _ _ Hrec) as Hlen.
    split; simpl; [by apply Forall_set|]. split; [done|].
    split; [by rewrite take_app_le | done].
  - unfold allocate_resource.
    destruct (Dict.get p (processes t)) as [lp|] eqn:Hlp; [|done].
    destruct (detached_resources_getitem t0 t r Ht) as [Ht1 Hlr].
    pose proof (resources_getitem_processes r t) as Hps.
    destruct (resources_getitem r t) as [lr t1]. simpl in *.
    destruct Ht1 as (Hp & Hr & Hrec & Hh).
    split; [done|]. split; [done|]. simpl. split.
    + rewrite take_alter_ge; [done|].
      apply (detached_get (processes t) p); [|done]. by rewrite <- Hps.
    + by rewrite take_alter_ge.
  - unfold set_waiting_for.
    destruct (Dict.get p (processes t)) as [lp|] eqn:Hlp; [|done].
    destruct Ht as (Hp & Hr & Hrec & Hh).
    split; [done|]. split; [done|]. simpl. split; [|done].
    rewrite take_alter_ge; [done|]. by apply (detached_get (processes t) p).
  - destruct Ht as (Hp & Hr & Hrec & Hh).
    split; [by apply Forall_nil_2|]. split; [by apply Forall_nil_2|]. done.
Qed.

Lemma detached_run t0 ops t : detached t0 t → detached t0 (run ops t).
Proof.
  revert t. induction ops as [|o ops IH]; intros t Ht; [done|].
  rewrite run_cons. by apply IH, detached_step.
Qed.

Lemma detached_snapshot t0 t s :
  detached t0 t →
  Forall (fun item => item.2 < length (records t0)) (snap_processes s) →
  Forall (fun item => item.2 < length (holder_lists t0)) (snap_resources s) →
  snapshot_processes t s = snapshot_processes t0 s ∧
  snapshot_resources t s = snapshot_resources t0 s.
Proof.
  intros (_ & _ & Hrec & Hh) Hsp Hsr. split.
  - unfold snapshot_processes. apply list_fmap_ext. intros i [p l] Hi. simpl. f_equal.
    pose proof (Forall_lookup_1 _ _ _ _ Hsp Hi) as Hl. simpl in Hl.
    transitivity (take (length (records t0)) (records t) !! l);
      [symmetry; by apply lookup_take_lt | by rewrite Hrec].
  - unfold snapshot_resources. apply list_fmap_ext. intros i [r l] Hi. simpl. f_equal.
    pose proof (Forall_lookup_1 _ _ _ _ Hsr Hi) as Hl. simpl in Hl.
    transitivity (take (length (holder_lists t0)) (holder_lists t) !! l);
      [symmetry; by apply lookup_take_lt | by rewrite Hh].
Qed.

Lemma heap_grows_step t o :
  length (records t) ≤ length (records (step t o)) ∧
  length (holder_lists t) ≤ length (holder_lists (step t o)).
Proof.
  destruct o as [p name|p r|p r|]; simpl.
  - rewrite length_app. simpl. lia.
  - unfold allocate_resource, resources_getitem.
    destruct (Dict.get p (processes t)); [|done].
    destruct (Dict.get r (resources t)); simpl; rewrite !length_alter;
      rewrite ?length_app; simpl; lia.
  - unfold set_waiting_for. destruct (Dict.get p (processes t)); [|done].
    simpl. by rewrite length_alter.
  - done.
Qed.

Lemma heap_grows_run ops t :
  length (records t) ≤ length (records (run ops t)) ∧
  length (holder_lists t) ≤ length (holder_lists (run ops t)).
Proof.
  revert t. induction ops as [|o ops IH]; intros t; [done|].
  rewrite run_cons. destruct (heap_grows_step t o), (IH (step t o)). lia.
Qed.

(** X20. What a snapshot shows is settled by [clear_system]: a snapshot
    taken at any time before the store is cleared reads, after the clear and
    whatever calls follow it, exactly what it read when the store was
    cleared.  (Calls made between the snapshot and the clear do show in
    it.) *)
Theorem snapshot_survives_clear (before between after : list op) :
  snapshot_processes
    (run after (clear_system (run between (run before init))))
    (get_system_state (run before init))
  = snapshot_processes (run between (run before init))
      (get_system_state (run before init)) ∧
  snapshot_resources
    (run after (clear_system (run between (run before init))))
    (get_system_state (run before init))
  = snapshot_resources (run between (run before init))
      (get_system_state (run before init)).
Proof.
  destruct (store_ok_run before init store_ok_init) as (_ & _ & Hp & _ & _ & Hr).
  destruct (heap_grows_run between (run before init)) as [Hrec Hh].
  apply detached_snapshot.
  - apply detached_run, detached_clear_system.
  - eapply Forall_impl; [exact Hp|]. simpl. intros item Hi. lia.
  - eapply Forall_impl; [exact Hr|]. simpl. intros item Hi. lia.
Qed.
